(** * goofys: a shallow embedding of the inode tables, the directory cursor
    and the streaming write path

    The development follows [internal/goofys.go] and [internal/handles.go].
    Go methods become functions that take the receiver as a value and return
    the updated receiver; objects that Go shares through pointers (inodes
    reachable from both filesystem indices) live in an explicit heap.  The
    object store is an external collaborator: it is represented by a record
    of response functions, each of which sees the requests issued so far, and
    every request is appended to a trace. *)

From Stdlib Require Import ZArith List Strings.String Strings.Ascii Strings.Byte Bool Lia.
From stdpp Require Import base option numbers list sorting gmap strings.

Open Scope string_scope.
Open Scope Z_scope.
Open Scope list_scope.

(** ** Machine integers *)

Definition wrap_uint64 (z : Z) : Z := z mod 2 ^ 64.
Definition wrap_int64 (z : Z) : Z := (z + 2 ^ 63) mod 2 ^ 64 - 2 ^ 63.

(** ** Errors *)

(** The error values that travel through the core: the errno constants of
    [fuse] and [syscall], and the error values of the object-store client. *)
Inductive error : Type :=
| ENOENT
| ENOTSUP
| EINVAL
| ENOTEMPTY
| ENOTDIR
| EISDIR
| RequestFailure (status : Z)      (* awserr.RequestFailure with its HTTP status *)
| AwsError (code : string)         (* awserr.Error that is not a request failure *)
| OtherError (msg : string).       (* any other Go error *)

#[global] Instance error_eq_dec : EqDecision error.
Proof. solve_decision. Defined.

Definition mapAwsError (err : error) : error :=
  match err with
  | RequestFailure status =>
      if status =? 404 then ENOENT
      else if status =? 405 then ENOTSUP
      else err
  | _ => err
  end.

(** ** Outcomes of a Go call *)

Inductive outcome (A : Type) : Type :=
| Done (a : A)
| Panic (msg : string)
| Blocked        (* the goroutine waits forever *)
| OutOfFuel.     (* the bound of a modelled loop was too small *)
Arguments Done {A} a.
Arguments Panic {A} msg.
Arguments Blocked {A}.
Arguments OutOfFuel {A}.

(** ** The object store *)

Record CompletedPart : Type := mkCompletedPart {
  cp_ETag : option string;
  cp_PartNumber : Z
}.

Inductive Request : Type :=
| RHeadObject (key : string)
| RListObjects (prefix delimiter : string) (marker : option string)
               (maxKeys : option Z)
| RPutObject (key : string) (body : list byte)
| RDeleteObject (key : string)
| RCopyObject (source key : string)
| RCreateMultipartUpload (key : string)
| RUploadPart (key : string) (uploadId : option string) (part : Z)
              (body : list byte)
| RUploadPartCopy (key source uploadId : string) (rangeFrom rangeTo : Z)
                  (part : Z)
| RCompleteMultipartUpload (key : string) (uploadId : option string)
                           (parts : list CompletedPart)
| RAbortMultipartUpload (key : string) (uploadId : option string).

Record HeadObjectOutput : Type := mkHeadObjectOutput {
  ContentLength : Z;
  LastModified : Z
}.

Record Object : Type := mkObject {
  Key : string;
  ObjSize : Z;
  ObjLastModified : Z
}.

Record ListObjectsOutput : Type := mkListObjectsOutput {
  CommonPrefixes : list string;
  Contents : list Object;
  IsTruncated : bool;
  NextMarker : option string
}.

(** The client.  Every entry point receives the requests issued so far
    (oldest first) and the request itself; it answers with the SDK's error or
    with the response.  A multipart upload that was created carries its
    upload identifier, a part that was uploaded its ETag. *)
Record S3 : Type := mkS3 {
  s3HeadObject : list Request -> Request -> error + HeadObjectOutput;
  s3ListObjects : list Request -> Request -> error + ListObjectsOutput;
  s3PutObject : list Request -> Request -> option error;
  s3DeleteObject : list Request -> Request -> option error;
  s3CopyObject : list Request -> Request -> option error;
  s3CreateMultipartUpload : list Request -> Request -> error + string;
  s3UploadPart : list Request -> Request -> error + option string;
  s3UploadPartCopy : list Request -> Request -> error + option string;
  s3CompleteMultipartUpload : list Request -> Request -> option error;
  s3AbortMultipartUpload : list Request -> Request -> option error
}.

(** ** The monad of backend interaction

    A computation reads and extends the trace of requests; it can panic,
    block or exhaust the bound of a modelled loop. *)
Definition Run (A : Type) : Type := list Request -> outcome (A * list Request).

Definition run_ret {A} (a : A) : Run A := fun tr => Done (a, tr).

Definition run_bind {A B} (m : Run A) (k : A -> Run B) : Run B :=
  fun tr =>
    match m tr with
    | Done (a, tr') => k a tr'
    | Panic msg => Panic msg
    | Blocked => Blocked
    | OutOfFuel => OutOfFuel
    end.

#[global] Instance run_mret : MRet Run := @run_ret.
#[global] Instance run_mbind : MBind Run := fun A B k m => run_bind m k.

Definition panic {A} (msg : string) : Run A := fun _ => Panic msg.
Definition block {A} : Run A := fun _ => Blocked.
Definition out_of_fuel {A} : Run A := fun _ => OutOfFuel.

(** A computation that does not touch the object store. *)
Definition lift {A} (o : outcome A) : Run A :=
  fun tr =>
    match o with
    | Done a => Done (a, tr)
    | Panic msg => Panic msg
    | Blocked => Blocked
    | OutOfFuel => OutOfFuel
    end.

(** [call f req] issues [req]: the client answers from the history, and the
    request is recorded. *)
Definition call {A} (f : list Request -> Request -> A) (req : Request) : Run A :=
  fun tr => Done (f tr req, tr ++ [req]).

(** ** Attributes, flags and inodes *)

Record InodeAttributes : Type := mkAttrs {
  Size : Z;
  Nlink : Z;
  Mode : Z;
  Atime : Z;
  Mtime : Z;
  Ctime : Z;
  Crtime : Z;
  Uid : Z;
  Gid : Z
}.

Record FlagStorage : Type := mkFlags {
  DirMode : Z;
  FileMode : Z;
  FlagUid : Z;
  FlagGid : Z
}.

(** [Inode.Attributes] is a pointer: a directory shares the record of the
    root ([&fs.rootAttrs]); a file owns its record. *)
Inductive AttrRef : Type :=
| RootAttrs
| OwnAttrs (a : InodeAttributes).

Definition RootInodeID : Z := 1.

(** [os.ModeDir] *)
Definition ModeDir : Z := Z.shiftl 1 31.

Record Inode : Type := mkInode {
  Id : Z;
  Name : string;
  FullName : string;
  Attributes : AttrRef;
  handles : list positive;     (* the open directory handles, by address *)
  refcnt : Z
}.

Definition NewInode (name fullName : string) (attrs : AttrRef) : Inode :=
  {| Id := 0; Name := name; FullName := fullName; Attributes := attrs;
     handles := []; refcnt := 1 |}.

Definition set_refcnt (inode : Inode) (n : Z) : Inode :=
  {| Id := Id inode; Name := Name inode; FullName := FullName inode;
     Attributes := Attributes inode; handles := handles inode; refcnt := n |}.

Definition set_Id (inode : Inode) (id : Z) : Inode :=
  {| Id := id; Name := Name inode; FullName := FullName inode;
     Attributes := Attributes inode; handles := handles inode;
     refcnt := refcnt inode |}.

Definition set_Attributes (inode : Inode) (a : AttrRef) : Inode :=
  {| Id := Id inode; Name := Name inode; FullName := FullName inode;
     Attributes := a; handles := handles inode; refcnt := refcnt inode |}.

Definition set_handles (inode : Inode) (hs : list positive) : Inode :=
  {| Id := Id inode; Name := Name inode; FullName := FullName inode;
     Attributes := Attributes inode; handles := hs; refcnt := refcnt inode |}.

Definition Ref (inode : Inode) : Inode :=
  set_refcnt inode (wrap_uint64 (refcnt inode + 1)).

Definition getChildName (parent : Inode) (name : string) : string :=
  if Id parent =? RootInodeID then name
  else FullName parent +:+ "/" +:+ name.

(** [Inode.DeRef]: the guard panics instead of letting the unsigned counter
    wrap. *)
Definition DeRef (inode : Inode) (n : Z) : outcome (Inode * bool) :=
  if refcnt inode <? n then Panic "deref"
  else
    let inode' := set_refcnt inode (refcnt inode - n) in
    Done (inode', refcnt inode' =? 0).

(** ** isEmptyDir *)

Definition isEmptyDir (s3 : S3) (fullName : string) : Run (bool * option error) :=
  let fullName := fullName +:+ "/" in
  resp ← call (s3ListObjects s3)
              (RListObjects fullName "/" None (Some 2));
  match resp with
  | inl err => mret (false, Some (mapAwsError err))
  | inr resp =>
      if (0 <? length (CommonPrefixes resp))%nat
         || (1 <? length (Contents resp))%nat
      then mret (true, Some ENOTEMPTY)
      else
        match Contents resp with
        | [obj] =>
            if String.eqb (Key obj) fullName then mret (true, None)
            else mret (true, Some ENOTEMPTY)
        | _ => mret (false, None)
        end
  end.

(** ** The buffer pool *)

(** Modelled from the spec: the buffer pool ([BufferPool] and
    [BufferPoolHandle], used by [Create], [WriteFile] and [FlushFile]) is not
    among the sources.  The pool hands out buffers of a fixed chunk size; a
    handle tracks the bytes outstanding to one writer. *)
Record BufferPool : Type := mkBufferPool {
  chunk : nat
}.

(** A Go byte slice handed out by the pool: its bytes and its capacity. *)
Record Buffer : Type := mkBuffer {
  buf_bytes : list byte;
  buf_cap : nat
}.

Record BufferPoolHandle : Type := mkPoolHandle {
  ph_chunk : nat;
  outstanding : Z
}.

(** Modelled from the spec: [new_handle()] produces a pool handle. *)
Definition NewPoolHandle (pool : BufferPool) : BufferPoolHandle :=
  {| ph_chunk := chunk pool; outstanding := 0 |}.

(** Modelled from the spec: [handle.request()] returns a buffer of the pool's
    fixed chunk size (bytes of length 0, capacity = chunk). *)
Definition PoolRequest (h : BufferPoolHandle) : BufferPoolHandle * Buffer :=
  ({| ph_chunk := ph_chunk h;
      outstanding := outstanding h + Z.of_nat (ph_chunk h) |},
   {| buf_bytes := []; buf_cap := ph_chunk h |}).

(** Modelled from the spec: [handle.copy(&mut buf, src)] appends from [src]
    into [buf] up to its remaining capacity, returning the number of bytes
    appended. *)
Definition PoolCopy (b : Buffer) (src : list byte) : Buffer * nat :=
  let n := Nat.min (length src) (buf_cap b - length (buf_bytes b)) in
  ({| buf_bytes := buf_bytes b ++ take n src; buf_cap := buf_cap b |}, n).

(** Modelled from the spec: [handle.free(buf)] returns the buffer's capacity
    to the pool. *)
Definition PoolFree (h : BufferPoolHandle) (b : Buffer) : BufferPoolHandle :=
  {| ph_chunk := ph_chunk h;
     outstanding := outstanding h - Z.of_nat (buf_cap b) |}.

(** ** Handles *)

Inductive DirentType : Type := DT_Directory | DT_File.

Record Dirent : Type := mkDirent {
  d_Offset : Z;
  d_Inode : Z;
  d_Name : string;
  d_Type : DirentType
}.

(** [Entries] is a Go slice: [None] is the nil slice, which [ReadDir] tells
    apart from an empty page. *)
Record DirHandle : Type := mkDirHandle {
  dh_inode : positive;
  Entries : option (list Dirent);
  NameToEntry : gmap string InodeAttributes;
  Marker : option string;
  BaseOffset : Z
}.

Definition NewDirHandle (inode : positive) : DirHandle :=
  {| dh_inode := inode; Entries := None; NameToEntry := ∅; Marker := None;
     BaseOffset := 0 |}.

(** A part upload spawned by [WriteFile]: the detached buffer and its part
    number. *)
Record PartTask : Type := mkPartTask {
  task_buf : Buffer;
  task_part : Z
}.

(** The write half of [FileHandle] (the read half, [reader] and
    [readBufOffset], takes no part in what follows).  [writeInit] records
    whether the [sync.Once] has fired; [mpuWG] holds the part uploads that the
    wait group counts and that have not finished. *)
Record FileHandle : Type := mkFileHandle {
  fh_inode : positive;
  dirty : bool;
  writeInit : bool;
  mpuWG : list PartTask;
  etags : list (option string);
  mpuId : option string;
  nextWriteOffset : Z;
  lastPartId : Z;
  poolHandle : option BufferPoolHandle;
  buf : option Buffer;
  lastWriteError : option error
}.

Definition NewFileHandle (inode : positive) : FileHandle :=
  {| fh_inode := inode; dirty := false; writeInit := false; mpuWG := [];
     etags := []; mpuId := None; nextWriteOffset := 0; lastPartId := 0;
     poolHandle := None; buf := None; lastWriteError := None |}.

(** ** The filesystem root and the Go heap *)

Record Goofys : Type := mkGoofys {
  bucket : string;
  flags : FlagStorage;
  s3 : S3;
  rootAttrs : InodeAttributes;
  bufferPool : BufferPool;
  nextInodeID : Z;
  inodes : gmap Z positive;
  inodesCache : gmap string positive;
  nextHandleID : Z;
  dirHandles : gmap Z positive;
  fileHandles : gmap Z positive
}.

(** The objects behind the pointers stored in the tables. *)
Record Heap : Type := mkHeap {
  inodeObjs : gmap positive Inode;
  dirObjs : gmap positive DirHandle;
  fileObjs : gmap positive FileHandle;
  nextAddr : positive
}.

Definition set_rootAttrs (fs : Goofys) (a : InodeAttributes) : Goofys :=
  mkGoofys (bucket fs) (flags fs) (s3 fs) a (bufferPool fs) (nextInodeID fs)
           (inodes fs) (inodesCache fs) (nextHandleID fs) (dirHandles fs)
           (fileHandles fs).

Definition set_nextInodeID (fs : Goofys) (n : Z) : Goofys :=
  mkGoofys (bucket fs) (flags fs) (s3 fs) (rootAttrs fs) (bufferPool fs) n
           (inodes fs) (inodesCache fs) (nextHandleID fs) (dirHandles fs)
           (fileHandles fs).

Definition set_inodes (fs : Goofys) (m : gmap Z positive) : Goofys :=
  mkGoofys (bucket fs) (flags fs) (s3 fs) (rootAttrs fs) (bufferPool fs)
           (nextInodeID fs) m (inodesCache fs) (nextHandleID fs)
           (dirHandles fs) (fileHandles fs).

Definition set_inodesCache (fs : Goofys) (m : gmap string positive) : Goofys :=
  mkGoofys (bucket fs) (flags fs) (s3 fs) (rootAttrs fs) (bufferPool fs)
           (nextInodeID fs) (inodes fs) m (nextHandleID fs) (dirHandles fs)
           (fileHandles fs).

Definition set_nextHandleID (fs : Goofys) (n : Z) : Goofys :=
  mkGoofys (bucket fs) (flags fs) (s3 fs) (rootAttrs fs) (bufferPool fs)
           (nextInodeID fs) (inodes fs) (inodesCache fs) n (dirHandles fs)
           (fileHandles fs).

Definition set_dirHandles (fs : Goofys) (m : gmap Z positive) : Goofys :=
  mkGoofys (bucket fs) (flags fs) (s3 fs) (rootAttrs fs) (bufferPool fs)
           (nextInodeID fs) (inodes fs) (inodesCache fs) (nextHandleID fs) m
           (fileHandles fs).

Definition set_fileHandles (fs : Goofys) (m : gmap Z positive) : Goofys :=
  mkGoofys (bucket fs) (flags fs) (s3 fs) (rootAttrs fs) (bufferPool fs)
           (nextInodeID fs) (inodes fs) (inodesCache fs) (nextHandleID fs)
           (dirHandles fs) m.

Definition set_inodeObjs (h : Heap) (m : gmap positive Inode) : Heap :=
  mkHeap m (dirObjs h) (fileObjs h) (nextAddr h).

Definition set_dirObjs (h : Heap) (m : gmap positive DirHandle) : Heap :=
  mkHeap (inodeObjs h) m (fileObjs h) (nextAddr h).

Definition set_fileObjs (h : Heap) (m : gmap positive FileHandle) : Heap :=
  mkHeap (inodeObjs h) (dirObjs h) m (nextAddr h).

(** Allocation of a fresh address. *)
Definition new_addr (h : Heap) : positive * Heap :=
  (nextAddr h,
   mkHeap (inodeObjs h) (dirObjs h) (fileObjs h) (Pos.succ (nextAddr h))).

Definition alloc_inode (h : Heap) (inode : Inode) : positive * Heap :=
  let '(a, h) := new_addr h in
  (a, set_inodeObjs h (<[a := inode]> (inodeObjs h))).

Definition alloc_dir (h : Heap) (dh : DirHandle) : positive * Heap :=
  let '(a, h) := new_addr h in
  (a, set_dirObjs h (<[a := dh]> (dirObjs h))).

Definition alloc_file (h : Heap) (fh : FileHandle) : positive * Heap :=
  let '(a, h) := new_addr h in
  (a, set_fileObjs h (<[a := fh]> (fileObjs h))).

(** The attribute record an inode points to. *)
Definition attrs_of (fs : Goofys) (inode : Inode) : InodeAttributes :=
  match Attributes inode with
  | RootAttrs => rootAttrs fs
  | OwnAttrs a => a
  end.

(** [NewGoofys], after the region of the bucket has been settled: the root
    inode and the empty tables.  [now] is the clock reading. *)
Definition rootAddr : positive := 1%positive.

Definition NewGoofys (bucket : string) (s3 : S3) (flags : FlagStorage)
    (pool : BufferPool) (now : Z) : Goofys * Heap :=
  let root := set_Id (NewInode "" "" RootAttrs) RootInodeID in
  ({| bucket := bucket; flags := flags; s3 := s3;
      rootAttrs := {| Size := 4096; Nlink := 2;
                      Mode := Z.lor (DirMode flags) ModeDir;
                      Atime := now; Mtime := now; Ctime := now; Crtime := now;
                      Uid := FlagUid flags; Gid := FlagGid flags |};
      bufferPool := pool;
      nextInodeID := RootInodeID + 1;
      inodes := {[ RootInodeID := rootAddr ]};
      inodesCache := ∅;
      nextHandleID := 1;
      dirHandles := ∅;
      fileHandles := ∅ |},
   {| inodeObjs := {[ rootAddr := root ]}; dirObjs := ∅; fileObjs := ∅;
      nextAddr := 2%positive |}).

(** [getInodeOrDie]: the address and the inode behind it.  An absent
    identifier panics; so does a pointer with nothing behind it. *)
Definition getInodeOrDie (fs : Goofys) (h : Heap) (id : Z)
    : outcome (positive * Inode) :=
  match inodes fs !! id with
  | None => Panic "Unknown inode"
  | Some a =>
      match inodeObjs h !! a with
      | None => Panic "nil pointer dereference"
      | Some inode => Done (a, inode)
      end
  end.

Definition allocateInodeId (fs : Goofys) : Z * Goofys :=
  (nextInodeID fs, set_nextInodeID fs (wrap_uint64 (nextInodeID fs + 1))).

(** [Goofys.ForgetInode] *)
Definition ForgetInode (fs : Goofys) (h : Heap) (id n : Z)
    : outcome (Goofys * Heap) :=
  match getInodeOrDie fs h id with
  | Done (a, inode) =>
      match DeRef inode n with
      | Done (inode', stale) =>
          let h' := set_inodeObjs h (<[a := inode']> (inodeObjs h)) in
          if stale then
            let fs1 := set_inodes fs (delete id (inodes fs)) in
            let fs2 :=
              set_inodesCache fs1 (delete (FullName inode') (inodesCache fs1)) in
            Done (fs2, h')
          else Done (fs, h')
      | Panic msg => Panic msg
      | Blocked => Blocked
      | OutOfFuel => OutOfFuel
      end
  | Panic msg => Panic msg
  | Blocked => Blocked
  | OutOfFuel => OutOfFuel
  end.

(** ** Looking a name up *)

(** What the two probes of [LookUpInodeMaybeDir] send on their channels. *)
Inductive Completion : Type :=
| HeadResp (resp : HeadObjectOutput)     (* objectChan *)
| HeadErr (err : error)                  (* errObjectChan *)
| ListResp (resp : ListObjectsOutput)    (* dirChan *)
| ListErr (err : error).                 (* errDirChan *)

Definition LookUpInodeNotDir (s3 : S3) (name : string) : Run Completion :=
  resp ← call (s3HeadObject s3) (RHeadObject name);
  match resp with
  | inl err => mret (HeadErr (mapAwsError err))
  | inr resp => mret (HeadResp resp)
  end.

Definition LookUpInodeDir (s3 : S3) (name : string) : Run Completion :=
  resp ← call (s3ListObjects s3)
              (RListObjects (name +:+ "/") "/" None (Some 1));
  match resp with
  | inl err => mret (ListErr (mapAwsError err))
  | inr resp => mret (ListResp resp)
  end.

(** The attributes of a file inode, from the answer to HEAD. *)
Definition file_attrs (fs : Goofys) (resp : HeadObjectOutput)
    : InodeAttributes :=
  {| Size := wrap_uint64 (ContentLength resp); Nlink := 1;
     Mode := FileMode (flags fs);
     Atime := LastModified resp; Mtime := LastModified resp;
     Ctime := LastModified resp; Crtime := LastModified resp;
     Uid := FlagUid (flags fs); Gid := FlagGid (flags fs) |}.

(** The [for { select { ... } }] loop of [LookUpInodeMaybeDir], over the
    completions in the order in which the select receives them.  [err] is the
    named result, which the error cases assign; when no completion is left the
    loop waits forever. *)
Fixpoint LookUpInodeMaybeDir_select (fs : Goofys) (name fullName : string)
    (notFound : bool) (err : option error) (arrivals : list Completion)
    : outcome (option Inode * option error) :=
  match arrivals with
  | [] => Blocked
  | HeadResp resp :: _ =>
      Done (Some (NewInode name fullName (OwnAttrs (file_attrs fs resp))), err)
  | HeadErr e :: rest =>
      if decide (e = ENOENT) then
        if notFound then Done (None, Some e)
        else LookUpInodeMaybeDir_select fs name fullName true None rest
      else LookUpInodeMaybeDir_select fs name fullName notFound (Some e) rest
  | ListResp resp :: rest =>
      if negb (length (CommonPrefixes resp) =? 0)%nat
         || negb (length (Contents resp) =? 0)%nat
      then Done (Some (NewInode name fullName RootAttrs), err)
      else if notFound then Done (None, Some ENOENT)
      else LookUpInodeMaybeDir_select fs name fullName true err rest
  | ListErr e :: rest =>
      LookUpInodeMaybeDir_select fs name fullName notFound (Some e) rest
  end.

(** Which of the two probes the select hears from first. *)
Inductive Schedule : Type := HeadFirst | ListFirst.

Definition arrival_order (sched : Schedule) (object dir : Completion)
    : list Completion :=
  match sched with
  | HeadFirst => [object; dir]
  | ListFirst => [dir; object]
  end.

Definition LookUpInodeMaybeDir (fs : Goofys) (name fullName : string)
    (sched : Schedule) : Run (option Inode * option error) :=
  object ← LookUpInodeNotDir (s3 fs) fullName;
  dir ← LookUpInodeDir (s3 fs) fullName;
  lift (LookUpInodeMaybeDir_select fs name fullName false None
          (arrival_order sched object dir)).

(** The [range] over [parent.handles]; the handles are visited in the order
    of the list. *)
Fixpoint lookupFromDirHandles_range (h : Heap) (parent : Inode) (name : string)
    (hs : list positive) : outcome (option Inode) :=
  match hs with
  | [] => Done None
  | a :: hs =>
      match dirObjs h !! a with
      | None => Panic "nil pointer dereference"
      | Some dh =>
          match NameToEntry dh !! name with
          | Some attr =>
              Done (Some (NewInode name (getChildName parent name)
                                   (OwnAttrs attr)))
          | None => lookupFromDirHandles_range h parent name hs
          end
      end
  end.

Definition lookupFromDirHandles (h : Heap) (parent : Inode) (name : string)
    : outcome (option Inode) :=
  match lookupFromDirHandles_range h parent name (handles parent) with
  | Done (Some inode) => Done (Some (Ref inode))
  | r => r
  end.

(** [Inode.LookUp] *)
Definition Inode_LookUp (fs : Goofys) (h : Heap) (parent : Inode)
    (name : string) (sched : Schedule) : Run (option Inode * option error) :=
  match lookupFromDirHandles h parent name with
  | Done (Some inode) => mret (Some inode, None)
  | Done None =>
      '(inode, err) ← LookUpInodeMaybeDir fs name (getChildName parent name)
                                          sched;
      match err with
      | Some e => mret (None, Some e)
      | None => mret (inode, None)
      end
  | Panic msg => panic msg
  | Blocked => block
  | OutOfFuel => out_of_fuel
  end.

(** The reply of the operations that expose an inode to the kernel. *)
Record ChildInodeEntry : Type := mkEntry {
  Child : Z;
  EntryAttributes : InodeAttributes
}.

(** [Goofys.LookUpInode] *)
Definition LookUpInode (fs : Goofys) (h : Heap) (parentId : Z) (name : string)
    (sched : Schedule) : Run (Goofys * Heap * (error + ChildInodeEntry)) :=
  match getInodeOrDie fs h parentId with
  | Done (_, parent) =>
      match inodesCache fs !! getChildName parent name with
      | Some a =>
          match inodeObjs h !! a with
          | None => panic "nil pointer dereference"
          | Some inode =>
              let fs' := set_inodes fs (<[Id inode := a]> (inodes fs)) in
              let entry := {| Child := Id inode;
                              EntryAttributes := attrs_of fs inode |} in
              let h' := set_inodeObjs h (<[a := Ref inode]> (inodeObjs h)) in
              mret (fs', h', inr entry)
          end
      | None =>
          '(inode, err) ← Inode_LookUp fs h parent name sched;
          match err, inode with
          | Some e, _ => mret (fs, h, inl e)
          | None, None => panic "nil pointer dereference"
          | None, Some inode =>
              let '(id, fs1) := allocateInodeId fs in
              let inode := set_Id inode id in
              let '(a, h1) := alloc_inode h inode in
              let fs2 :=
                set_inodesCache fs1 (<[FullName inode := a]> (inodesCache fs1)) in
              let fs3 := set_inodes fs2 (<[Id inode := a]> (inodes fs2)) in
              mret (fs3, h1,
                    inr {| Child := Id inode;
                           EntryAttributes := attrs_of fs inode |})
          end
      end
  | Panic msg => panic msg
  | Blocked => block
  | OutOfFuel => out_of_fuel
  end.

(** [Inode.MkDir] *)
Definition Inode_MkDir (fs : Goofys) (parent : Inode) (name : string)
    : Run (option Inode * option error) :=
  let fullName := getChildName parent name +:+ "/" in
  err ← call (s3PutObject (s3 fs)) (RPutObject fullName []);
  match err with
  | Some e => mret (None, Some (mapAwsError e))
  | None => mret (Some (NewInode name fullName RootAttrs), None)
  end.

(** [Goofys.MkDir] *)
Definition MkDir (fs : Goofys) (h : Heap) (parentId : Z) (name : string)
    : Run (Goofys * Heap * (error + ChildInodeEntry)) :=
  match getInodeOrDie fs h parentId with
  | Done (_, parent) =>
      '(inode, err) ← Inode_MkDir fs parent name;
      match err, inode with
      | Some e, _ => mret (fs, h, inl e)
      | None, None => panic "nil pointer dereference"
      | None, Some inode =>
          let nextInode := nextInodeID fs in
          let fs1 := set_nextInodeID fs (wrap_uint64 (nextInodeID fs + 1)) in
          let inode := set_Id inode nextInode in
          let '(a, h1) := alloc_inode h inode in
          let fs2 := set_inodes fs1 (<[Id inode := a]> (inodes fs1)) in
          mret (fs2, h1,
                inr {| Child := Id inode;
                       EntryAttributes := attrs_of fs inode |})
      end
  | Panic msg => panic msg
  | Blocked => block
  | OutOfFuel => out_of_fuel
  end.

(** ** Creating a file *)

(** [Inode.Create]; [now] is the clock reading. *)
Definition Inode_Create (fs : Goofys) (parent : Inode) (name : string)
    (now : Z) (inodeAddr : positive) : Inode * FileHandle :=
  let fullName := getChildName parent name in
  let inode :=
    NewInode name fullName
      (OwnAttrs {| Size := 0; Nlink := 1; Mode := FileMode (flags fs);
                   Atime := now; Mtime := now; Ctime := now; Crtime := now;
                   Uid := FlagUid (flags fs); Gid := FlagGid (flags fs) |}) in
  let fh := NewFileHandle inodeAddr in
  (inode,
   mkFileHandle (fh_inode fh) true (writeInit fh) (mpuWG fh) (etags fh)
     (mpuId fh) (nextWriteOffset fh) (lastPartId fh)
     (Some (NewPoolHandle (bufferPool fs))) (buf fh) (lastWriteError fh)).

(** [Goofys.CreateFile]: the reply carries the entry and the handle. *)
Definition CreateFile (fs : Goofys) (h : Heap) (parentId : Z) (name : string)
    (now : Z) : outcome (Goofys * Heap * (ChildInodeEntry * Z)) :=
  match getInodeOrDie fs h parentId with
  | Done (_, parent) =>
      let '(inode, fh) := Inode_Create fs parent name now (nextAddr h) in
      let nextInode := nextInodeID fs in
      let fs1 := set_nextInodeID fs (wrap_uint64 (nextInodeID fs + 1)) in
      let inode := set_Id inode nextInode in
      let '(a, h1) := alloc_inode h inode in
      let '(b, h2) := alloc_file h1 fh in
      let fs2 := set_inodes fs1 (<[Id inode := a]> (inodes fs1)) in
      let fs3 :=
        set_inodesCache fs2 (<[FullName inode := a]> (inodesCache fs2)) in
      let handleID := nextHandleID fs3 in
      let fs4 := set_nextHandleID fs3 (wrap_uint64 (nextHandleID fs3 + 1)) in
      let fs5 := set_fileHandles fs4 (<[handleID := b]> (fileHandles fs4)) in
      Done (fs5, h2,
            ({| Child := Id inode; EntryAttributes := attrs_of fs inode |},
             handleID))
  | Panic msg => Panic msg
  | Blocked => Blocked
  | OutOfFuel => OutOfFuel
  end.

(** ** The write path *)

Definition set_dirty (fh : FileHandle) (b : bool) : FileHandle :=
  mkFileHandle (fh_inode fh) b (writeInit fh) (mpuWG fh) (etags fh) (mpuId fh)
    (nextWriteOffset fh) (lastPartId fh) (poolHandle fh) (buf fh)
    (lastWriteError fh).

Definition set_writeInit (fh : FileHandle) (b : bool) : FileHandle :=
  mkFileHandle (fh_inode fh) (dirty fh) b (mpuWG fh) (etags fh) (mpuId fh)
    (nextWriteOffset fh) (lastPartId fh) (poolHandle fh) (buf fh)
    (lastWriteError fh).

Definition set_mpuWG (fh : FileHandle) (ts : list PartTask) : FileHandle :=
  mkFileHandle (fh_inode fh) (dirty fh) (writeInit fh) ts (etags fh) (mpuId fh)
    (nextWriteOffset fh) (lastPartId fh) (poolHandle fh) (buf fh)
    (lastWriteError fh).

Definition set_etags (fh : FileHandle) (es : list (option string))
    : FileHandle :=
  mkFileHandle (fh_inode fh) (dirty fh) (writeInit fh) (mpuWG fh) es (mpuId fh)
    (nextWriteOffset fh) (lastPartId fh) (poolHandle fh) (buf fh)
    (lastWriteError fh).

Definition set_mpuId (fh : FileHandle) (id : option string) : FileHandle :=
  mkFileHandle (fh_inode fh) (dirty fh) (writeInit fh) (mpuWG fh) (etags fh) id
    (nextWriteOffset fh) (lastPartId fh) (poolHandle fh) (buf fh)
    (lastWriteError fh).

Definition set_nextWriteOffset (fh : FileHandle) (o : Z) : FileHandle :=
  mkFileHandle (fh_inode fh) (dirty fh) (writeInit fh) (mpuWG fh) (etags fh)
    (mpuId fh) o (lastPartId fh) (poolHandle fh) (buf fh) (lastWriteError fh).

Definition set_lastPartId (fh : FileHandle) (p : Z) : FileHandle :=
  mkFileHandle (fh_inode fh) (dirty fh) (writeInit fh) (mpuWG fh) (etags fh)
    (mpuId fh) (nextWriteOffset fh) p (poolHandle fh) (buf fh)
    (lastWriteError fh).

Definition set_poolHandle (fh : FileHandle) (ph : option BufferPoolHandle)
    : FileHandle :=
  mkFileHandle (fh_inode fh) (dirty fh) (writeInit fh) (mpuWG fh) (etags fh)
    (mpuId fh) (nextWriteOffset fh) (lastPartId fh) ph (buf fh)
    (lastWriteError fh).

Definition set_buf (fh : FileHandle) (b : option Buffer) : FileHandle :=
  mkFileHandle (fh_inode fh) (dirty fh) (writeInit fh) (mpuWG fh) (etags fh)
    (mpuId fh) (nextWriteOffset fh) (lastPartId fh) (poolHandle fh) b
    (lastWriteError fh).

Definition set_lastWriteError (fh : FileHandle) (e : option error)
    : FileHandle :=
  mkFileHandle (fh_inode fh) (dirty fh) (writeInit fh) (mpuWG fh) (etags fh)
    (mpuId fh) (nextWriteOffset fh) (lastPartId fh) (poolHandle fh) (buf fh) e.

(** [cap] and [len] of the slice [fh.buf]; both are 0 for the nil slice. *)
Definition cap_of (b : option Buffer) : nat :=
  match b with
  | None => 0%nat
  | Some b => buf_cap b
  end.

Definition bytes_of (b : option Buffer) : list byte :=
  match b with
  | None => []
  | Some b => buf_bytes b
  end.

(** [BufferPoolHandle.Free] through the pointer [fh.poolHandle]. *)
Definition free_buf (fh : FileHandle) (b : Buffer) : outcome FileHandle :=
  match poolHandle fh with
  | None => Panic "nil pointer dereference"
  | Some ph => Done (set_poolHandle fh (Some (PoolFree ph b)))
  end.

(** The part limit of one upload: [make([]*string, 10000)]. *)
Definition MaxParts : nat := Z.to_nat 10000.

(** [FileHandle.initMPU].  The client always hands back a response record,
    whose upload identifier is absent when the request failed. *)
Definition initMPU (fs : Goofys) (inode : Inode) (fh : FileHandle)
    : Run FileHandle :=
  resp ← call (s3CreateMultipartUpload (s3 fs))
              (RCreateMultipartUpload (FullName inode));
  match resp with
  | inl err =>
      let fh := set_lastWriteError fh (Some (mapAwsError err)) in
      mret (set_etags (set_mpuId fh None) (replicate MaxParts None))
  | inr id =>
      mret (set_etags (set_mpuId fh (Some id)) (replicate MaxParts None))
  end.

(** [FileHandle.mpuPartNoSpawn] *)
Definition mpuPartNoSpawn (fs : Goofys) (inode : Inode) (fh : FileHandle)
    (b : option Buffer) (part : Z) : Run (FileHandle * option error) :=
  if (part =? 0) || (10000 <? part) then panic "invalid part number"
  else
    resp ← call (s3UploadPart (s3 fs))
                (RUploadPart (FullName inode) (mpuId fh) part (bytes_of b));
    '(fh, err) ←
      match resp with
      | inl err => mret (fh, Some (mapAwsError err))
      | inr etag =>
          if part <? 1 then panic "index out of range"
          else
            match etags fh !! Z.to_nat (part - 1) with
            | None => panic "index out of range"
            | Some (Some _) => panic "etags for part already set"
            | Some None =>
                mret (set_etags fh (<[Z.to_nat (part - 1) := etag]> (etags fh)),
                      None)
            end
      end;
    (* the deferred Free *)
    match b with
    | Some b' =>
        if (buf_cap b' =? 0)%nat then mret (fh, err)
        else fh ← lift (free_buf fh b'); mret (fh, err)
    | None => mret (fh, err)
    end.

(** [FileHandle.mpuPart], the goroutine of one part.  A goroutine that finds
    no upload identifier waits on the wait group that counts the goroutine
    itself. *)
Definition mpuPart (fs : Goofys) (inode : Inode) (fh : FileHandle)
    (t : PartTask) : Run FileHandle :=
  match mpuId fh with
  | None => block
  | Some _ =>
      '(fh, err) ← mpuPartNoSpawn fs inode fh (Some (task_buf t)) (task_part t);
      match err with
      | Some e =>
          match lastWriteError fh with
          | None => mret (set_lastWriteError fh (Some (mapAwsError e)))
          | Some _ => mret fh
          end
      | None => mret fh
      end
  end.

(** [fh.mpuWG.Wait()]: the outstanding part uploads finish, in the order in
    which they were spawned. *)
Fixpoint mpuWG_Wait_tasks (fs : Goofys) (inode : Inode) (fh : FileHandle)
    (ts : list PartTask) : Run FileHandle :=
  match ts with
  | [] => mret fh
  | t :: ts =>
      fh ← mpuPart fs inode fh t;
      mpuWG_Wait_tasks fs inode fh ts
  end.

Definition mpuWG_Wait (fs : Goofys) (inode : Inode) (fh : FileHandle)
    : Run FileHandle :=
  mpuWG_Wait_tasks fs inode (set_mpuWG fh []) (mpuWG fh).

(** [FileHandle.initWrite] followed by the wait of [waitForCreateMPU]: the
    initializer runs once and the caller waits for it. *)
Definition initWrite (fs : Goofys) (inode : Inode) (fh : FileHandle)
    : Run FileHandle :=
  if writeInit fh then mret fh
  else initMPU fs inode (set_writeInit fh true).

(** [FileHandle.waitForCreateMPU] *)
Definition waitForCreateMPU (fs : Goofys) (inode : Inode) (fh : FileHandle)
    : Run (FileHandle * option error) :=
  match mpuId fh with
  | None =>
      fh ← initWrite fs inode fh;
      fh ← mpuWG_Wait fs inode fh;
      match lastWriteError fh with
      | Some e => mret (fh, Some e)
      | None => mret (fh, None)
      end
  | Some _ => mret (fh, None)
  end.

(** The loop of [WriteFile].  It yields the handle, the error (if the upload
    could not be created) and what is left of [data] when the loop is left. *)
Fixpoint WriteFile_loop (fuel : nat) (fs : Goofys) (inode : Inode)
    (fh : FileHandle) (data : list byte)
    : Run (FileHandle * option error * list byte) :=
  match fuel with
  | O => out_of_fuel
  | S fuel =>
      '(fh, b) ←
        (if (cap_of (buf fh) =? 0)%nat then
           match poolHandle fh with
           | None => panic "nil pointer dereference"
           | Some ph =>
               let '(ph', b) := PoolRequest ph in
               mret (set_buf (set_poolHandle fh (Some ph')) (Some b), b)
           end
         else
           match buf fh with
           | None => panic "nil pointer dereference"
           | Some b => mret (fh, b)
           end);
      let '(b, nCopied) := PoolCopy b data in
      let fh := set_buf fh (Some b) in
      let fh :=
        set_nextWriteOffset fh
          (wrap_int64 (nextWriteOffset fh + Z.of_nat nCopied)) in
      '(fh, err) ←
        (if (length (buf_bytes b) =? buf_cap b)%nat then
           '(fh, err) ← waitForCreateMPU fs inode fh;
           match err with
           | Some e => mret (fh, Some e)
           | None =>
               let fh := set_lastPartId fh (wrap_int64 (lastPartId fh + 1)) in
               let part := lastPartId fh in
               let fh := set_buf fh None in
               mret (set_mpuWG fh (mpuWG fh ++ [mkPartTask b part]), None)
           end
         else mret (fh, None));
      match err with
      | Some e => mret (fh, Some e, data)
      | None =>
          if (nCopied =? length data)%nat then mret (fh, None, data)
          else WriteFile_loop fuel fs inode fh (drop nCopied data)
      end
  end.

(** The assignment [fh.inode.Attributes.Size = v] through the pointer. *)
Definition set_Size (a : InodeAttributes) (v : Z) : InodeAttributes :=
  mkAttrs v (Nlink a) (Mode a) (Atime a) (Mtime a) (Ctime a) (Crtime a) (Uid a)
          (Gid a).

Definition store_Size (fs : Goofys) (inode : Inode) (v : Z) : Goofys * Inode :=
  match Attributes inode with
  | RootAttrs => (set_rootAttrs fs (set_Size (rootAttrs fs) v), inode)
  | OwnAttrs a => (fs, set_Attributes inode (OwnAttrs (set_Size a v)))
  end.

(** [FileHandle.WriteFile].  Every turn of the loop either appends at least
    one byte or detaches a full buffer, so twice the length of the data (and
    two more turns) bounds it. *)
Definition WriteFile (fs : Goofys) (inode : Inode) (fh : FileHandle)
    (offset : Z) (data : list byte)
    : Run (Goofys * Inode * FileHandle * option error) :=
  match lastWriteError fh with
  | Some e => mret (fs, inode, fh, Some e)
  | None =>
      if negb (offset =? nextWriteOffset fh) then
        mret (fs, inode, set_lastWriteError fh (Some EINVAL), Some EINVAL)
      else
        let fh :=
          if offset =? 0 then
            set_dirty (set_poolHandle fh (Some (NewPoolHandle (bufferPool fs))))
                      true
          else fh in
        '(fh, err, data) ←
          WriteFile_loop (2 * length data + 2) fs inode fh data;
        match err with
        | Some e => mret (fs, inode, fh, Some e)
        | None =>
            let '(fs, inode) :=
              store_Size fs inode
                (wrap_uint64 (wrap_int64 (offset + Z.of_nat (length data)))) in
            mret (fs, inode, fh, None)
        end
  end.

(** [FileHandle.flushSmallFile] *)
Definition flushSmallFile (fs : Goofys) (inode : Inode) (fh : FileHandle)
    : Run (FileHandle * option error) :=
  let b := buf fh in
  let fh := set_buf fh None in
  err ← call (s3PutObject (s3 fs)) (RPutObject (FullName inode) (bytes_of b));
  let err := option_map mapAwsError err in
  if (cap_of b =? 0)%nat then mret (fh, err)
  else
    match b with
    | Some b' => fh ← lift (free_buf fh b'); mret (fh, err)
    | None => mret (fh, err)
    end.

(** The [parts] of [CompleteMultipartUpload]: entry [i] pairs [fh.etags[i]]
    with the part number [i + 1]. *)
Fixpoint completed_parts (es : list (option string)) (i n : nat)
    : option (list CompletedPart) :=
  match n with
  | O => Some []
  | S n =>
      match es !! i with
      | None => None
      | Some etag =>
          match completed_parts es (S i) n with
          | None => None
          | Some ps => Some (mkCompletedPart etag (Z.of_nat i + 1) :: ps)
          end
      end
  end.

(** The body of [FlushFile] on a dirty handle, up to its deferred function. *)
Definition FlushFile_body (fs : Goofys) (inode : Inode) (fh : FileHandle)
    : Run (FileHandle * option error) :=
  if lastPartId fh =? 0 then flushSmallFile fs inode fh
  else
    fh ← mpuWG_Wait fs inode fh;
    match lastWriteError fh with
    | Some e => mret (fh, Some e)
    | None =>
        match mpuId fh with
        | None => mret (fh, None)
        | Some _ =>
            let nParts := lastPartId fh in
            '(fh, nParts, err) ←
              match buf fh with
              | Some _ =>
                  let nParts := wrap_int64 (nParts + 1) in
                  '(fh, err) ← mpuPartNoSpawn fs inode fh (buf fh) nParts;
                  mret (fh, nParts, err)
              | None => mret (fh, nParts, None)
              end;
            match err with
            | Some e => mret (fh, Some e)
            | None =>
                if nParts <? 0 then panic "makeslice: len out of range"
                else
                  match completed_parts (etags fh) 0 (Z.to_nat nParts) with
                  | None => panic "index out of range"
                  | Some parts =>
                      err ← call (s3CompleteMultipartUpload (s3 fs))
                                 (RCompleteMultipartUpload (FullName inode)
                                    (mpuId fh) parts);
                      match err with
                      | Some e => mret (fh, Some (mapAwsError e))
                      | None => mret (set_mpuId fh None, None)
                      end
                  end
            end
        end
    end.

(** The deferred function of [FlushFile].  The abort it spawns on an error
    reads the upload identifier, clears it and issues the request. *)
Definition FlushFile_deferred (fs : Goofys) (inode : Inode) (fh : FileHandle)
    (err : option error) : Run FileHandle :=
  fh ←
    match err, mpuId fh with
    | Some _, Some id =>
        _ ← call (s3AbortMultipartUpload (s3 fs))
                 (RAbortMultipartUpload (FullName inode) (Some id));
        mret (set_mpuId fh None)
    | _, _ => mret fh
    end;
  let fh := set_writeInit fh false in
  let fh := set_nextWriteOffset fh 0 in
  let fh := set_lastPartId fh 0 in
  mret (set_dirty fh false).

(** [FileHandle.FlushFile] *)
Definition FlushFile (fs : Goofys) (inode : Inode) (fh : FileHandle)
    : Run (FileHandle * option error) :=
  if negb (dirty fh) then mret (fh, None)
  else
    '(fh, err) ← FlushFile_body fs inode fh;
    fh ← FlushFile_deferred fs inode fh err;
    mret (fh, err).

(** ** Histories of one file handle

    What happens to a handle is a sequence of kernel operations, interleaved
    with the completion of part uploads that are still outstanding. *)
Inductive Action : Type :=
| AWrite (offset : Z) (data : list byte)
| AFlush
| APartDone (k : nat).      (* the [k]-th outstanding part upload finishes *)

Record HandleState : Type := mkHandleState {
  hs_fs : Goofys;
  hs_inode : Inode;
  hs_fh : FileHandle
}.

(** One action; the error is what the kernel operation returned. *)
Definition step (st : HandleState) (a : Action)
    : Run (HandleState * option error) :=
  let '(mkHandleState fs inode fh) := st in
  match a with
  | AWrite offset data =>
      '(fs, inode, fh, err) ← WriteFile fs inode fh offset data;
      mret (mkHandleState fs inode fh, err)
  | AFlush =>
      '(fh, err) ← FlushFile fs inode fh;
      mret (mkHandleState fs inode fh, err)
  | APartDone k =>
      match mpuWG fh !! k, mpuId fh with
      | Some t, Some _ =>
          fh ← mpuPart fs inode (set_mpuWG fh (delete k (mpuWG fh))) t;
          mret (mkHandleState fs inode fh, None)
      | _, _ => mret (st, None)
      end
  end.

(** A history, with the error of each action. *)
Fixpoint steps (st : HandleState) (acts : list Action)
    : Run (HandleState * list (option error)) :=
  match acts with
  | [] => mret (st, [])
  | a :: acts =>
      '(st, err) ← step st a;
      '(st, errs) ← steps st acts;
      mret (st, err :: errs)
  end.

(** ** The directory cursor *)

(** Go string slicing: [s[n:]] and [s[0 : len(s)-1]]; out of range they
    panic, which is [None] here. *)
Definition slice_from (s : string) (n : nat) : option string :=
  if (n <=? String.length s)%nat
  then Some (substring n (String.length s - n) s)
  else None.

Definition slice_drop_last (s : string) : option string :=
  if (String.length s =? 0)%nat then None
  else Some (substring 0 (String.length s - 1) s).

Definition set_Entries (dh : DirHandle) (es : option (list Dirent))
    : DirHandle :=
  mkDirHandle (dh_inode dh) es (NameToEntry dh) (Marker dh) (BaseOffset dh).

Definition set_NameToEntry (dh : DirHandle)
    (m : gmap string InodeAttributes) : DirHandle :=
  mkDirHandle (dh_inode dh) (Entries dh) m (Marker dh) (BaseOffset dh).

Definition set_Marker (dh : DirHandle) (m : option string) : DirHandle :=
  mkDirHandle (dh_inode dh) (Entries dh) (NameToEntry dh) m (BaseOffset dh).

Definition set_BaseOffset (dh : DirHandle) (o : Z) : DirHandle :=
  mkDirHandle (dh_inode dh) (Entries dh) (NameToEntry dh) (Marker dh) o.

Definition set_d_Offset (e : Dirent) (o : Z) : Dirent :=
  mkDirent o (d_Inode e) (d_Name e) (d_Type e).

Definition makeDirEntry (name : string) (t : DirentType) : Dirent :=
  {| d_Offset := 0; d_Inode := RootInodeID + 1; d_Name := name; d_Type := t |}.

(** [sortedDirents]: the order of [sort.Sort] is the byte order of the
    names. *)
Definition dirent_le (a b : Dirent) : Prop := (d_Name a ≤ d_Name b)%string.

#[global] Instance dirent_le_dec : RelDecision dirent_le.
Proof. intros a b. unfold dirent_le. apply _. Defined.

Definition sortDirents (es : list Dirent) : list Dirent :=
  merge_sort dirent_le es.

(** The entries length as a Go [int]. *)
Definition len_Entries (dh : DirHandle) : Z :=
  match Entries dh with
  | None => 0
  | Some es => Z.of_nat (length es)
  end.

(** The first loop of the listing: one directory entry per common prefix. *)
Fixpoint ReadDir_prefixes (fs : Goofys) (prefix : string)
    (entries : list Dirent) (names : gmap string InodeAttributes)
    (dirs : list string)
    : outcome (list Dirent * gmap string InodeAttributes) :=
  match dirs with
  | [] => Done (entries, names)
  | dir :: dirs =>
      match slice_drop_last dir with
      | None => Panic "slice bounds out of range"
      | Some dirName =>
          match slice_from dirName (String.length prefix) with
          | None => Panic "slice bounds out of range"
          | Some dirName =>
              ReadDir_prefixes fs prefix
                (entries ++ [makeDirEntry dirName DT_Directory])
                (<[dirName := rootAttrs fs]> names) dirs
          end
      end
  end.

(** The second loop: one file entry per object, except the directory blob
    itself. *)
Fixpoint ReadDir_contents (fs : Goofys) (prefix : string)
    (entries : list Dirent) (names : gmap string InodeAttributes)
    (objs : list Object)
    : outcome (list Dirent * gmap string InodeAttributes) :=
  match objs with
  | [] => Done (entries, names)
  | obj :: objs =>
      match slice_from (Key obj) (String.length prefix) with
      | None => Panic "slice bounds out of range"
      | Some baseName =>
          if (String.length baseName =? 0)%nat
          then ReadDir_contents fs prefix entries names objs
          else
            ReadDir_contents fs prefix
              (entries ++ [makeDirEntry baseName DT_File])
              (<[baseName :=
                   {| Size := wrap_uint64 (ObjSize obj); Nlink := 1;
                      Mode := FileMode (flags fs);
                      Atime := ObjLastModified obj;
                      Mtime := ObjLastModified obj;
                      Ctime := ObjLastModified obj;
                      Crtime := ObjLastModified obj;
                      Uid := FlagUid (flags fs);
                      Gid := FlagGid (flags fs) |}]> names) objs
      end
  end.

(** "Fix up offset fields": entry [i] gets [DirOffset(i+BaseOffset) + 1 + 2]. *)
Fixpoint fix_offsets (base : Z) (i : nat) (es : list Dirent) : list Dirent :=
  match es with
  | [] => []
  | e :: es =>
      set_d_Offset e
        (wrap_uint64 (wrap_uint64 (wrap_int64 (Z.of_nat i + base)) + 1 + 2))
      :: fix_offsets base (S i) es
  end.

(** The listing of one page ([if dh.Entries == nil { ... }]). *)
Definition ReadDir_list (fs : Goofys) (inode : Inode) (dh : DirHandle)
    : Run (DirHandle * option error) :=
  let prefix := FullName inode in
  let prefix :=
    if negb (String.length prefix =? 0)%nat then prefix +:+ "/" else prefix in
  resp ← call (s3ListObjects (s3 fs)) (RListObjects prefix "/" (Marker dh) None);
  match resp with
  | inl err => mret (dh, Some (mapAwsError err))
  | inr resp =>
      '(entries, names) ←
        lift (ReadDir_prefixes fs prefix [] (NameToEntry dh)
                (CommonPrefixes resp));
      '(entries, names) ←
        lift (ReadDir_contents fs prefix entries names (Contents resp));
      let entries := fix_offsets (BaseOffset dh) 0 (sortDirents entries) in
      let dh := set_NameToEntry (set_Entries dh (Some entries)) names in
      mret (set_Marker dh (if IsTruncated resp then NextMarker resp else None),
            None)
  end.

(** [DirHandle.ReadDir]: the entry (or nil) and the error. *)
Definition ReadDir (fs : Goofys) (inode : Inode) (dh : DirHandle) (offset : Z)
    : Run (DirHandle * option Dirent * option error) :=
  let dh := if offset =? 0 then set_Entries dh None else dh in
  if offset =? 0 then
    let e := set_d_Offset (makeDirEntry "." DT_Directory) 1 in
    mret (set_NameToEntry dh (<["." := rootAttrs fs]> (NameToEntry dh)),
          Some e, None)
  else if offset =? 1 then
    let e := set_d_Offset (makeDirEntry ".." DT_Directory) 2 in
    mret (set_NameToEntry dh (<[".." := rootAttrs fs]> (NameToEntry dh)),
          Some e, None)
  else
    let i := wrap_int64 (wrap_int64 (wrap_int64 offset - BaseOffset dh) - 2) in
    if i <? 0 then panic "invalid offset"
    else
      let '(dh, i) :=
        if len_Entries dh <=? i then
          match Marker dh with
          | Some _ =>
              (set_BaseOffset (set_Entries dh None)
                 (wrap_int64 (BaseOffset dh + i)), 0)
          | None => (dh, i)
          end
        else (dh, i) in
      if 5000 <? i then panic "too many results"
      else
        '(dh, err) ←
          match Entries dh with
          | None => ReadDir_list fs inode dh
          | Some _ => mret (dh, None)
          end;
        match err with
        | Some e => mret (dh, None, Some e)
        | None =>
            if i =? len_Entries dh then mret (dh, None, None)
            else if len_Entries dh <? i then mret (dh, None, Some EINVAL)
            else
              match Entries dh with
              | Some es =>
                  match es !! Z.to_nat i with
                  | Some e => mret (dh, Some e, None)
                  | None => panic "index out of range"
                  end
              | None => panic "index out of range"
              end
        end.

(** [fuseutil.WriteDirent] belongs to the kernel bridge; all that matters
    here is how many bytes an entry takes: a header of 24 bytes and the name,
    padded to a multiple of 8; nothing is written when that does not fit. *)
Definition direntSize (e : Dirent) : nat :=
  let n := (24 + String.length (d_Name e))%nat in
  (n + (8 - n mod 8) mod 8)%nat.

Definition WriteDirent (room : nat) (e : Dirent) : nat :=
  if (direntSize e <=? room)%nat then direntSize e else 0%nat.

(** The loop of [Goofys.ReadDir] on the handle: the entries written into a
    destination of [room] bytes, starting at [offset].  Every entry written
    takes at least one byte, which bounds the loop. *)
Fixpoint ReadDir_loop (fuel : nat) (fs : Goofys) (inode : Inode)
    (dh : DirHandle) (i : Z) (room : nat) (written : list Dirent)
    : Run (DirHandle * list Dirent * option error) :=
  match fuel with
  | O => out_of_fuel
  | S fuel =>
      '(dh, e, err) ← ReadDir fs inode dh i;
      match err, e with
      | Some err, _ => mret (dh, written, Some err)
      | None, None => mret (dh, written, None)
      | None, Some e =>
          let n := WriteDirent room e in
          if (n =? 0)%nat then mret (dh, written, None)
          else
            ReadDir_loop fuel fs inode dh (wrap_uint64 (i + 1)) (room - n)
                         (written ++ [e])
      end
  end.

Definition Goofys_ReadDir (fs : Goofys) (inode : Inode) (dh : DirHandle)
    (offset : Z) (room : nat) : Run (DirHandle * list Dirent * option error) :=
  ReadDir_loop (S room) fs inode dh offset room [].

(** [Inode.OpenDir]: the new handle, at address [a], joins the handle set. *)
Definition OpenDir (inodeAddr : positive) (inode : Inode) (a : positive)
    : Inode * DirHandle :=
  (set_handles inode (a :: handles inode), NewDirHandle inodeAddr).

(** ** Server-side copy and rename *)

Definition PART_SIZE : Z := 5 * 1024 * 1024 * 1024.

Definition sizeToParts (size : Z) : Z :=
  let nParts := wrap_int64 (Z.quot size PART_SIZE) in
  if negb (Z.rem size PART_SIZE =? 0) then wrap_int64 (nParts + 1) else nParts.

(** [Goofys.mpuCopyPart], run when it is spawned: the ETag lands in its slot,
    an error in the shared error variable. *)
Definition mpuCopyPart (fs : Goofys) (from to mpuId : string)
    (rangeFrom rangeTo part : Z) (slot : nat)
    (etags : list (option string)) (errout : option error)
    : Run (list (option string) * option error) :=
  resp ← call (s3UploadPartCopy (s3 fs))
              (RUploadPartCopy to from mpuId rangeFrom rangeTo part);
  match resp with
  | inl err => mret (etags, Some (mapAwsError err))
  | inr etag => mret (<[slot := etag]> etags, errout)
  end.

(** The loop of [Goofys.mpuCopyParts]: [i] counts the parts, [rangeTo] is the
    end of the previous range.  A turn beyond the last slot of [etags] panics
    on the index, so one turn more than there are slots bounds the loop. *)
Fixpoint mpuCopyParts_loop (fuel : nat) (fs : Goofys) (size : Z)
    (from to mpuId : string) (i rangeTo : Z)
    (etags : list (option string)) (errout : option error)
    : Run (list (option string) * option error) :=
  match fuel with
  | O => if rangeTo <? size then out_of_fuel else mret (etags, errout)
  | S fuel =>
      if rangeTo <? size then
        let rangeFrom := rangeTo in
        let rangeTo := wrap_int64 (i * PART_SIZE) in
        let rangeTo := if size <? rangeTo then size else rangeTo in
        if (i - 1 <? 0) || (Z.of_nat (length etags) <=? i - 1)
        then panic "index out of range"
        else
          '(etags, errout) ←
            mpuCopyPart fs from to mpuId rangeFrom (rangeTo - 1) i
                        (Z.to_nat (i - 1)) etags errout;
          mpuCopyParts_loop fuel fs size from to mpuId (wrap_int64 (i + 1))
                            rangeTo etags errout
      else mret (etags, errout)
  end.

Definition mpuCopyParts (fs : Goofys) (size : Z) (from to mpuId : string)
    (etags : list (option string)) (errout : option error)
    : Run (list (option string) * option error) :=
  mpuCopyParts_loop (S (length etags)) fs size from to mpuId 1 0 etags
                    errout.

(** [Goofys.copyObjectMultipart], called with an empty upload identifier. *)
Definition copyObjectMultipart (fs : Goofys) (size : Z) (from to : string)
    : Run (option error) :=
  let nParts := sizeToParts size in
  if nParts <? 0 then panic "makeslice: len out of range"
  else
    let etags := replicate (Z.to_nat nParts) (None : option string) in
    resp ← call (s3CreateMultipartUpload (s3 fs)) (RCreateMultipartUpload to);
    match resp with
    | inl err => mret (Some (mapAwsError err))
    | inr mpuId =>
        '(etags, err) ← mpuCopyParts fs size from to mpuId etags None;
        match err with
        | Some e => mret (Some e)
        | None =>
            match completed_parts etags 0 (Z.to_nat nParts) with
            | None => panic "index out of range"
            | Some parts =>
                err ← call (s3CompleteMultipartUpload (s3 fs))
                           (RCompleteMultipartUpload to (Some mpuId) parts);
                mret (option_map mapAwsError err)
            end
        end
    end.

(** [Goofys.copyObjectMaybeMultipart] *)
Definition copyObjectMaybeMultipart (fs : Goofys) (size : Z) (from to : string)
    : Run (option error) :=
  r ← (if size =? -1 then
         resp ← call (s3HeadObject (s3 fs)) (RHeadObject from);
         match resp with
         | inl err => mret (inl (mapAwsError err))
         | inr resp => mret (inr (ContentLength resp))
         end
       else mret (inr size));
  match r with
  | inl err => mret (Some err)
  | inr size =>
      let from := bucket fs +:+ "/" +:+ from in
      if 5 * 1024 * 1024 * 1024 <? size
      then copyObjectMultipart fs size from to
      else
        err ← call (s3CopyObject (s3 fs)) (RCopyObject from to);
        mret (option_map mapAwsError err)
  end.

(** [Inode.Rename] *)
Definition Rename (fs : Goofys) (parent : Inode) (from : string)
    (newParent : Inode) (to : string) : Run (option error) :=
  let fromFullName := getChildName parent from in
  '(fromIsDir, err) ← isEmptyDir (s3 fs) fromFullName;
  match err with
  | Some e => mret (Some e)
  | None =>
      let toFullName := getChildName newParent to in
      '(toIsDir, err) ← isEmptyDir (s3 fs) toFullName;
      match err with
      | Some e => mret (Some e)
      | None =>
          if fromIsDir && negb toIsDir then mret (Some ENOTDIR)
          else if negb fromIsDir && toIsDir then mret (Some EISDIR)
          else
            let '(fromFullName, toFullName, size) :=
              if fromIsDir
              then (fromFullName +:+ "/", toFullName +:+ "/", 0)
              else (fromFullName, toFullName, -1) in
            err ← copyObjectMaybeMultipart fs size fromFullName toFullName;
            match err with
            | Some e => mret (Some e)
            | None =>
                err ← call (s3DeleteObject (s3 fs))
                           (RDeleteObject fromFullName);
                mret (option_map mapAwsError err)
            end
      end
  end.

(** ** A reference object store

    To run scenarios one needs a store that answers.  This one keeps the
    objects of a bucket sorted by key and derives its state from the requests
    issued so far, so a marker written by [MkDir] is seen by a later
    listing.  It stands for the service, not for any code of the program; the
    general results below quantify over every client instead. *)

Fixpoint store_put (o : Object) (objs : list Object) : list Object :=
  match objs with
  | [] => [o]
  | x :: xs =>
      match String.compare (Key o) (Key x) with
      | Lt => o :: x :: xs
      | Eq => o :: xs
      | Gt => x :: store_put o xs
      end
  end.

Definition store_delete (key : string) (objs : list Object) : list Object :=
  filter (fun x => key ≠ Key x) objs.

Definition store_get (key : string) (objs : list Object) : option Object :=
  List.find (fun x => String.eqb key (Key x)) objs.

(** The bucket and the parts uploaded so far (part number and length). *)
Record Store : Type := mkStore {
  st_objs : list Object;
  st_parts : list (Z * Z)
}.

Definition part_length (parts : list (Z * Z)) (cp : CompletedPart) : Z :=
  match List.find (fun p => fst p =? cp_PartNumber cp) parts with
  | Some p => snd p
  | None => 0
  end.

(** [CopySource] is the bucket, a slash and the key. *)
Definition source_key (bucket source : string) : string :=
  substring (S (String.length bucket))
            (String.length source - S (String.length bucket)) source.

Definition store_apply (bucket : string) (st : Store) (req : Request) : Store :=
  match req with
  | RPutObject key body =>
      mkStore (store_put (mkObject key (Z.of_nat (length body)) 0) (st_objs st))
              (st_parts st)
  | RDeleteObject key => mkStore (store_delete key (st_objs st)) (st_parts st)
  | RCopyObject source key =>
      match store_get (source_key bucket source) (st_objs st) with
      | Some o =>
          mkStore (store_put (mkObject key (ObjSize o) 0) (st_objs st))
                  (st_parts st)
      | None => st
      end
  | RCreateMultipartUpload _ => mkStore (st_objs st) []
  | RUploadPart _ _ part body =>
      mkStore (st_objs st) ((part, Z.of_nat (length body)) :: st_parts st)
  | RCompleteMultipartUpload key _ parts =>
      mkStore
        (store_put
           (mkObject key
              (foldr (fun cp n => part_length (st_parts st) cp + n) 0 parts) 0)
           (st_objs st))
        []
  | _ => st
  end.

Definition store_replay (bucket : string) (init : list Object)
    (history : list Request) : Store :=
  fold_left (store_apply bucket) history (mkStore init []).

Inductive ListItem : Type :=
| ItemPrefix (p : string)
| ItemObject (o : Object).

(** Keys under [prefix], the ones that hold the delimiter behind the prefix
    rolled up into one common prefix. *)
Fixpoint store_rollup (prefix delimiter : string) (last : option string)
    (objs : list Object) : list ListItem :=
  match objs with
  | [] => []
  | o :: objs =>
      if String.prefix prefix (Key o) then
        let rest :=
          substring (String.length prefix)
                    (String.length (Key o) - String.length prefix) (Key o) in
        match
          (if (String.length delimiter =? 0)%nat then None
           else index 0 delimiter rest)
        with
        | Some j =>
            let cp :=
              prefix +:+ substring 0 (j + String.length delimiter) rest in
            if decide (last = Some cp)
            then store_rollup prefix delimiter last objs
            else ItemPrefix cp :: store_rollup prefix delimiter (Some cp) objs
        | None => ItemObject o :: store_rollup prefix delimiter last objs
        end
      else store_rollup prefix delimiter last objs
  end.

Definition item_key (i : ListItem) : string :=
  match i with
  | ItemPrefix p => p
  | ItemObject o => Key o
  end.

Definition after_marker (marker : option string) (i : ListItem) : bool :=
  match marker with
  | None => true
  | Some m => String.ltb m (item_key i)
  end.

Definition store_list (objs : list Object) (prefix delimiter : string)
    (marker : option string) (maxKeys : option Z) : ListObjectsOutput :=
  let items :=
    List.filter (after_marker marker)
                (store_rollup prefix delimiter None objs) in
  let n := Z.to_nat (default 1000 maxKeys) in
  let page := take n items in
  {| CommonPrefixes :=
       omap (fun i => match i with ItemPrefix p => Some p | _ => None end) page;
     Contents :=
       omap (fun i => match i with ItemObject o => Some o | _ => None end) page;
     IsTruncated := (n <? length items)%nat;
     NextMarker :=
       if (n <? length items)%nat then item_key <$> last page else None |}.

(** The ETag that the reference store gives to a part: the part number in
    binary, lowest bit first. *)
Fixpoint pos_bits (p : positive) : string :=
  match p with
  | xH => "1"
  | xO p => String "0" (pos_bits p)
  | xI p => String "1" (pos_bits p)
  end.

Definition etag_of (part : Z) : string :=
  match part with
  | Zpos p => "etag-" +:+ pos_bits p
  | _ => "etag"
  end.

Definition store_s3 (bucket : string) (init : list Object) : S3 :=
  let objs history := st_objs (store_replay bucket init history) in
  {| s3HeadObject history req :=
       match req with
       | RHeadObject key =>
           match store_get key (objs history) with
           | Some o => inr (mkHeadObjectOutput (ObjSize o) (ObjLastModified o))
           | None => inl (RequestFailure 404)
           end
       | _ => inl (OtherError "request")
       end;
     s3ListObjects history req :=
       match req with
       | RListObjects prefix delimiter marker maxKeys =>
           inr (store_list (objs history) prefix delimiter marker maxKeys)
       | _ => inl (OtherError "request")
       end;
     s3PutObject _ _ := None;
     s3DeleteObject _ _ := None;
     s3CopyObject history req :=
       match req with
       | RCopyObject source _ =>
           match store_get (source_key bucket source) (objs history) with
           | Some _ => None
           | None => Some (RequestFailure 404)
           end
       | _ => Some (OtherError "request")
       end;
     s3CreateMultipartUpload _ _ := inr "upload";
     s3UploadPart _ req :=
       match req with
       | RUploadPart _ _ part _ => inr (Some (etag_of part))
       | _ => inl (OtherError "request")
       end;
     s3UploadPartCopy _ req :=
       match req with
       | RUploadPartCopy _ _ _ _ _ part => inr (Some (etag_of part))
       | _ => inl (OtherError "request")
       end;
     s3CompleteMultipartUpload _ _ := None;
     s3AbortMultipartUpload _ _ := None |}.

(** ** Statements about requests and traces *)

(** The listing that [isEmptyDir] issues for the path [p]. *)
Definition isEmptyDir_request (p : string) : Request :=
  RListObjects (p +:+ "/") "/" None (Some 2).

(** ** Scenarios

    A mount over the reference store, and the kernel's side of the
    operations that the scenarios use. *)

Definition scenario_flags : FlagStorage :=
  {| DirMode := 493; FileMode := 420; FlagUid := 0; FlagGid := 0 |}.

Definition scenario_mount (objs : list Object) (chunk : nat) : Goofys * Heap :=
  NewGoofys "bucket" (store_s3 "bucket" objs) scenario_flags
            (mkBufferPool chunk) 0.

(** A directory marker and two children. *)
Definition marker_and_children : list Object :=
  [mkObject "d/" 0 0; mkObject "d/a" 1 0; mkObject "d/b" 2 0].

Definition listing_d : list Dirent :=
  [mkDirent 1 2 "." DT_Directory; mkDirent 2 2 ".." DT_Directory;
   mkDirent 3 2 "a" DT_File; mkDirent 4 2 "b" DT_File].

(** Repeated [ReadDir] operations on one handle: each request gives the
    offset to resume from and the size of the destination. *)
Fixpoint ReadDir_session (fs : Goofys) (inode : Inode) (dh : DirHandle)
    (reqs : list (Z * nat)) : Run (list (list Dirent * option error)) :=
  match reqs with
  | [] => mret []
  | (offset, room) :: reqs =>
      '(dh, es, err) ← Goofys_ReadDir fs inode dh offset room;
      rest ← ReadDir_session fs inode dh reqs;
      mret ((es, err) :: rest)
  end.

(** Look [name] up under the root of a fresh mount, open the directory and
    read it. *)
Definition directory_scenario (objs : list Object) (name : string)
    (reqs : list (Z * nat)) : option (list (list Dirent * option error)) :=
  let '(fs, h) := scenario_mount objs 8 in
  match LookUpInode fs h RootInodeID name HeadFirst [] with
  | Done (fs, h, inr entry, tr) =>
      match getInodeOrDie fs h (Child entry) with
      | Done (a, inode) =>
          let '(inode, dh) := OpenDir a inode (nextAddr h) in
          match ReadDir_session fs inode dh reqs tr with
          | Done (rs, _) => Some rs
          | _ => None
          end
      | _ => None
      end
  | _ => None
  end.

(** A file entry never carries the empty name. *)
Definition named_file (e : Dirent) : Prop :=
  d_Type e = DT_File -> d_Name e <> "".

(** A client with canned answers: every probe gets the same answer, every
    mutation succeeds. *)
Definition canned_s3 (head : error + HeadObjectOutput)
    (listing : error + ListObjectsOutput) : S3 :=
  {| s3HeadObject _ _ := head;
     s3ListObjects _ _ := listing;
     s3PutObject _ _ := None;
     s3DeleteObject _ _ := None;
     s3CopyObject _ _ := None;
     s3CreateMultipartUpload _ _ := inr "upload";
     s3UploadPart _ _ := inr (Some "etag");
     s3UploadPartCopy _ _ := inr (Some "etag");
     s3CompleteMultipartUpload _ _ := None;
     s3AbortMultipartUpload _ _ := None |}.

Definition canned_mount (head : error + HeadObjectOutput)
    (listing : error + ListObjectsOutput) (chunk : nat) : Goofys * Heap :=
  NewGoofys "bucket" (canned_s3 head listing) scenario_flags
            (mkBufferPool chunk) 0.

(** The two probes of a lookup. *)
Definition lookup_requests (fullName : string) : list Request :=
  [RHeadObject fullName; RListObjects (fullName +:+ "/") "/" None (Some 1)].

(** The invariants that [goofys.go] states for its tables, with what the
    heap adds: identifiers and addresses in use lie below the next ones. *)
Definition tables_wf (fs : Goofys) (h : Heap) : Prop :=
  0 <= nextInodeID fs < 2 ^ 64 /\
  (forall id a, inodes fs !! id = Some a ->
     RootInodeID <= id < nextInodeID fs /\ (a < nextAddr h)%positive) /\
  (forall key a,
     inodesCache fs !! key = Some a ->
     (a < nextAddr h)%positive /\
     forall inode, inodeObjs h !! a = Some inode -> Id inode < nextInodeID fs).

(** The data of the write scenarios. *)
Definition AAAA : list byte := list_byte_of_string "AAAA".
Definition BB : list byte := list_byte_of_string "BB".

(** The root inode of a fresh mount. *)
Definition root_inode : Inode := set_Id (NewInode "" "" RootAttrs) RootInodeID.

(** ** Requests of a rename *)

Definition is_mutation (req : Request) : bool :=
  match req with
  | RHeadObject _ | RListObjects _ _ _ _ => false
  | _ => true
  end.

Definition is_delete (req : Request) : bool :=
  match req with
  | RDeleteObject _ => true
  | _ => false
  end.

(** The key that a mutating request writes. *)
Definition written_key (req : Request) : option string :=
  match req with
  | RHeadObject _ | RListObjects _ _ _ _ => None
  | RPutObject key _ | RDeleteObject key | RCopyObject _ key
  | RCreateMultipartUpload key | RUploadPart key _ _ _
  | RUploadPartCopy key _ _ _ _ _ | RCompleteMultipartUpload key _ _
  | RAbortMultipartUpload key _ => Some key
  end.

(** What the copy step may issue: no delete, and nothing that writes a key
    other than the destination. *)
Definition copy_request (to : string) (req : Request) : Prop :=
  is_delete req = false /\
  (is_mutation req = true -> written_key req = Some to).

(** The validation stage of [Rename]: both sides are classified and compared;
    the result is the error, or whether a directory is renamed. *)
Definition Rename_validate (fs : Goofys) (src dst : string)
    : Run (error + bool) :=
  '(fromIsDir, err) ← isEmptyDir (s3 fs) src;
  match err with
  | Some e => mret (inl e)
  | None =>
      '(toIsDir, err) ← isEmptyDir (s3 fs) dst;
      match err with
      | Some e => mret (inl e)
      | None =>
          if fromIsDir && negb toIsDir then mret (inl ENOTDIR)
          else if negb fromIsDir && toIsDir then mret (inl EISDIR)
          else mret (inr fromIsDir)
      end
  end.

(** The keys and the size that [Rename] hands to the copy. *)
Definition Rename_keys (src dst : string) (isDir : bool) : string * string * Z :=
  if isDir then (src +:+ "/", dst +:+ "/", 0) else (src, dst, -1).

(** ** Removing entries *)


(** [Inode.RmDir] *)
Definition Inode_RmDir (fs : Goofys) (parent : Inode) (name : string)
    : Run (option error) :=
  let fullName := getChildName parent name in
  '(isDir, err) ← isEmptyDir (s3 fs) fullName;
  match err with
  | Some e => mret (Some e)
  | None =>
      if negb isDir then mret (Some ENOENT)
      else
        let fullName := fullName +:+ "/" in
        err ← call (s3DeleteObject (s3 fs)) (RDeleteObject fullName);
        mret (option_map mapAwsError err)
  end.


Definition RmDir (fs : Goofys) (h : Heap) (parentId : Z) (name : string)
    : Run (option error) :=
  match getInodeOrDie fs h parentId with
  | Done (_, parent) => Inode_RmDir fs parent name
  | Panic msg => panic msg
  | Blocked => block
  | OutOfFuel => out_of_fuel
  end.

(** ** Opening and releasing handles *)

(** [Goofys.OpenDir]: the handle identifier is taken before the inode is
    resolved. *)
Definition Goofys_OpenDir (fs : Goofys) (h : Heap) (id : Z)
    : outcome (Goofys * Heap * Z) :=
  let handleID := nextHandleID fs in
  let fs := set_nextHandleID fs (wrap_uint64 (nextHandleID fs + 1)) in
  match getInodeOrDie fs h id with
  | Done (a, inode) =>
      let '(inode, dh) := OpenDir a inode (nextAddr h) in
      let '(b, h) := alloc_dir h dh in
      let h := set_inodeObjs h (<[a := inode]> (inodeObjs h)) in
      Done (set_dirHandles fs (<[handleID := b]> (dirHandles fs)), h, handleID)
  | Panic msg => Panic msg
  | Blocked => Blocked
  | OutOfFuel => OutOfFuel
  end.

(** [DirHandle.CloseDir]: [delete(inode.handles, dh)], for the handle at
    address [b]. *)
Definition CloseDir (inode : Inode) (b : positive) : Inode :=
  set_handles inode (filter (λ c, c ≠ b) (handles inode)).

(** [Goofys.ReleaseDirHandle]: an identifier that is not in the table gives
    the nil handle, which [CloseDir] dereferences. *)
Definition ReleaseDirHandle (fs : Goofys) (h : Heap) (handle : Z)
    : outcome (Goofys * Heap) :=
  match dirHandles fs !! handle with
  | None => Panic "nil pointer dereference"
  | Some b =>
      match dirObjs h !! b with
      | None => Panic "nil pointer dereference"
      | Some dh =>
          match inodeObjs h !! dh_inode dh with
          | None => Panic "nil pointer dereference"
          | Some inode =>
              let h :=
                set_inodeObjs h
                  (<[dh_inode dh := CloseDir inode b]> (inodeObjs h)) in
              Done (set_dirHandles fs (delete handle (dirHandles fs)), h)
          end
      end
  end.

(** [Goofys.OpenFile], with [Inode.OpenFile]. *)
Definition Goofys_OpenFile (fs : Goofys) (h : Heap) (id : Z)
    : outcome (Goofys * Heap * Z) :=
  match getInodeOrDie fs h id with
  | Done (a, _) =>
      let '(b, h) := alloc_file h (NewFileHandle a) in
      let handleID := nextHandleID fs in
      let fs := set_nextHandleID fs (wrap_uint64 (nextHandleID fs + 1)) in
      Done (set_fileHandles fs (<[handleID := b]> (fileHandles fs)), h,
            handleID)
  | Panic msg => Panic msg
  | Blocked => Blocked
  | OutOfFuel => OutOfFuel
  end.

(** [Goofys.ReleaseFileHandle] *)
Definition ReleaseFileHandle (fs : Goofys) (handle : Z) : Goofys :=
  set_fileHandles fs (delete handle (fileHandles fs)).

(** ** The tables and the heap

    The invariants of [goofys.go] ([inodes[k].Id == k], and every key below
    [nextInodeID]), with what the name index adds: a cached name leads to an
    inode of that full name which the identifier index holds as well. *)
Definition tables_inv (fs : Goofys) (h : Heap) : Prop :=
  tables_wf fs h /\
  RootInodeID <= nextInodeID fs /\
  (forall id a, inodes fs !! id = Some a ->
     exists inode, inodeObjs h !! a = Some inode /\ Id inode = id) /\
  (forall key a, inodesCache fs !! key = Some a ->
     exists inode, inodeObjs h !! a = Some inode /\ FullName inode = key /\
                   inodes fs !! Id inode = Some a).

(** ** Requests of a multipart copy *)


(** ** Statements about the upload pipeline *)

Definition is_abort (req : Request) : bool :=
  match req with
  | RAbortMultipartUpload _ _ => true
  | _ => false
  end.

Definition is_upload_part (req : Request) : bool :=
  match req with
  | RUploadPart _ _ _ _ => true
  | _ => false
  end.

(** The fields of a handle that a part upload leaves alone. *)
Definition keeps (fh fh' : FileHandle) : Prop :=
  dirty fh' = dirty fh /\ writeInit fh' = writeInit fh /\
  mpuId fh' = mpuId fh /\ nextWriteOffset fh' = nextWriteOffset fh /\
  lastPartId fh' = lastPartId fh /\ buf fh' = buf fh.

(** The sticky error only ever gets set. *)
Definition error_grows (fh fh' : FileHandle) : Prop :=
  lastWriteError fh' = lastWriteError fh \/
  (lastWriteError fh = None /\ lastWriteError fh' <> None).

(** Writes that follow one another from [offset] on. *)
Fixpoint sequential_writes (offset : Z) (ds : list (list byte)) : list Action :=
  match ds with
  | [] => []
  | d :: ds =>
      AWrite offset d :: sequential_writes (offset + Z.of_nat (length d)) ds
  end.

(** A handle that has buffered [written] and has not filled a buffer yet. *)
Definition buffering (fs : Goofys) (key : string) (st : HandleState)
    (written : list byte) : Prop :=
  hs_fs st = fs /\ FullName (hs_inode st) = key /\
  (exists a, Attributes (hs_inode st) = OwnAttrs a /\
             Size a = Z.of_nat (length written)) /\
  dirty (hs_fh st) = true /\ lastWriteError (hs_fh st) = None /\
  mpuId (hs_fh st) = None /\ lastPartId (hs_fh st) = 0 /\
  nextWriteOffset (hs_fh st) = Z.of_nat (length written) /\
  (exists ph, poolHandle (hs_fh st) = Some ph /\
              ph_chunk ph = chunk (bufferPool fs)) /\
  bytes_of (buf (hs_fh st)) = written /\
  (buf (hs_fh st) = None \/
   exists b, buf (hs_fh st) = Some b /\ buf_cap b = chunk (bufferPool fs)).




(** Part [p] was uploaded under [key] and the upload [id], and the store
    answered with [etag]: the trace holds the request, and [etag] is the
    answer to it. *)
Definition recorded (s : S3) (key : string) (id : option string)
    (tr : list Request) (p : Z) (etag : option string) : Prop :=
  exists j body,
    tr !! j = Some (RUploadPart key id p body) /\
    s3UploadPart s (take j tr) (RUploadPart key id p body) = inr etag.

Definition is_flush (a : Action) : bool :=
  match a with
  | AFlush => true
  | _ => false
  end.

(** Between flushes: a handle that has parts is dirty; and unless the sticky
    error is set, the upload exists as soon as a part does, and every part
    up to [lastPartId] is either still outstanding or has its ETag in its
    slot, as the store returned it. *)
Definition write_inv (s : S3) (key : string) (tr : list Request)
    (fh : FileHandle) (pending : list PartTask) : Prop :=
  (dirty fh = true \/ (nextWriteOffset fh = 0 /\ lastPartId fh = 0)) /\
  (lastWriteError fh <> None \/
   (- 2 ^ 63 <= lastPartId fh < 2 ^ 63 /\
    (mpuId fh = None ->
       lastPartId fh = 0 /\ pending = [] /\ writeInit fh = false) /\
    forall p, 1 <= p <= lastPartId fh ->
      (exists t, t ∈ pending /\ task_part t = p) \/
      (exists e, etags fh !! Z.to_nat (p - 1) = Some e /\
                 recorded s key (mpuId fh) tr p e))).

(** ** The read path

    The read half of a file handle: the body of the last response, and the
    offset of the byte that it yields next. *)

(** [io.EOF] *)
Definition EOF : error := OtherError "EOF".

(** The body of a response, an [io.ReadCloser]: the bytes still to come,
    how many of them each of the coming reads hands over at most, and
    whether the end is reported with the last bytes or by the read after
    them. *)
Record Body : Type := mkBody {
  body_rest : list byte;
  body_pace : list nat;
  body_eof_with_data : bool
}.

(** [Read(p)] with [len(p) = n]: while bytes are left, a read into a
    non-empty slice hands over at least one. *)
Definition Body_Read (r : Body) (n : nat) : Body * list byte * option error :=
  match body_rest r with
  | [] => (r, [], Some EOF)
  | _ :: _ =>
      let k := Nat.min n (Nat.max 1 (hd n (body_pace r))) in
      (mkBody (drop k (body_rest r)) (tl (body_pace r))
              (body_eof_with_data r),
       take k (body_rest r),
       if body_eof_with_data r && (length (body_rest r) <=? k)%nat
       then Some EOF else None)
  end.

(** A GetObject request: the key, and the first byte of the range
    ([bytes=<from>-]) when there is one. *)
Record GetRequest : Type := RGetObject {
  get_key : string;
  get_range : option Z
}.

(** The GetObject entry point of the client: it receives the requests
    issued so far and the request. *)
Definition GetClient : Type := list GetRequest -> GetRequest -> error + Body.

Record ReadHandle : Type := mkReadHandle {
  reader : option Body;
  readBufOffset : Z
}.

(** The loop of [tryReadAll]; every turn with bytes left to come takes at
    least one byte, so [toRead] turns are enough. *)
Fixpoint tryReadAll_loop (fuel : nat) (r : Body) (toRead : nat)
    (got : list byte) : outcome (Body * list byte * option error) :=
  if (toRead =? 0)%nat then Done (r, got, None)
  else
    match fuel with
    | O => OutOfFuel
    | S fuel =>
        let '(r, bytes, err) := Body_Read r toRead in
        let got := got ++ bytes in
        let toRead := (toRead - length bytes)%nat in
        match err with
        | Some e => Done (r, got, Some e)
        | None => tryReadAll_loop fuel r toRead got
        end
    end.

(** [tryReadAll]; [n] is [len(buf)]. *)
Definition tryReadAll (r : Body) (n : nat)
    : outcome (Body * list byte * option error) :=
  tryReadAll_loop n r n [].

(** What is left of the reader after a read: it is closed and dropped at
    the end of the stream. *)
Definition reader_after (r : Body) (err : option error) : option Body :=
  if decide (err = Some EOF) then None else Some r.

(** [FileHandle.readFromStream] *)
Definition readFromStream (fh : ReadHandle) (offset : Z) (n : nat)
    : outcome (ReadHandle * list byte * option error) :=
  match reader fh with
  | Some r =>
      if offset =? readBufOffset fh then
        match tryReadAll r n with
        | Done (r, bytes, err) =>
            Done (mkReadHandle (reader_after r err)
                    (wrap_int64 (readBufOffset fh + Z.of_nat (length bytes))),
                  bytes, err)
        | Panic msg => Panic msg
        | Blocked => Blocked
        | OutOfFuel => OutOfFuel
        end
      else Done (mkReadHandle None offset, [], None)
  | None => Done (fh, [], None)
  end.

(** The deferred function of [ReadFile]: an error that comes with bytes is
    dropped. *)
Definition ReadFile_deferred (bytes : list byte) (err : option error)
    : option error :=
  if negb (length bytes =? 0)%nat then None else err.

(** The second half of [ReadFile]: a new stream is opened behind the
    [bytes] read so far, and read into what is left of the buffer. *)
Definition ReadFile_get (get : GetClient) (inode : Inode) (fh : ReadHandle)
    (bytes : list byte) (offset : Z) (n : nat) (gets : list GetRequest)
    : outcome (ReadHandle * list byte * option error * list GetRequest) :=
  let offset := wrap_int64 (offset + Z.of_nat (length bytes)) in
  let n := (n - length bytes)%nat in
  let req :=
    RGetObject (FullName inode) (if offset =? 0 then None else Some offset) in
  match get gets req with
  | inl e =>
      Done (fh, bytes, ReadFile_deferred bytes (Some (mapAwsError e)),
            gets ++ [req])
  | inr body =>
      match tryReadAll body n with
      | Done (r, more, err) =>
          Done (mkReadHandle (reader_after r err)
                  (wrap_int64 (readBufOffset fh + Z.of_nat (length more))),
                bytes ++ more, ReadFile_deferred (bytes ++ more) err,
                gets ++ [req])
      | Panic msg => Panic msg
      | Blocked => Blocked
      | OutOfFuel => OutOfFuel
      end
  end.

(** [FileHandle.ReadFile]; [n] is [len(buf)], the result holds the bytes
    read. *)
Definition ReadFile (get : GetClient) (fs : Goofys) (inode : Inode)
    (fh : ReadHandle) (offset : Z) (n : nat) (gets : list GetRequest)
    : outcome (ReadHandle * list byte * option error * list GetRequest) :=
  if Size (attrs_of fs inode) <=? wrap_uint64 offset
  then Done (fh, [], None, gets)
  else
    match readFromStream fh offset n with
    | Done (fh, bytes, err) =>
        match err with
        | Some e => Done (fh, bytes, ReadFile_deferred bytes (Some e), gets)
        | None =>
            if (length bytes =? n)%nat
               || (wrap_uint64 offset =? Size (attrs_of fs inode))
            then Done (fh, bytes, None, gets)
            else ReadFile_get get inode fh bytes offset n gets
        end
    | Panic msg => Panic msg
    | Blocked => Blocked
    | OutOfFuel => OutOfFuel
    end.

(** ** Statements about reads *)

(** The store holds [content] under [key]: a GetObject for the key answers
    with the bytes from the start of the range on. *)
Definition serves (get : GetClient) (key : string) (content : list byte)
    : Prop :=
  forall gets range,
    exists body,
      get gets (RGetObject key range) = inr body /\
      body_rest body = drop (Z.to_nat (default 0 range)) content.

(** The reader of the handle, when there is one, stands at
    [readBufOffset]. *)
Definition positioned (content : list byte) (fh : ReadHandle) : Prop :=
  forall r, reader fh = Some r ->
    0 <= readBufOffset fh /\
    body_rest r = drop (Z.to_nat (readBufOffset fh)) content.

(** A client that holds [content] under every key and hands a body over in
    reads of at most [pace] bytes. *)
Definition canned_get (content : list byte) (pace : list nat) : GetClient :=
  fun _ req =>
    inr (mkBody (drop (Z.to_nat (default 0 (get_range req))) content) pace
                false).

(** A file inode of the given size. *)
Definition file_inode (name : string) (size : Z) : Inode :=
  mkInode 2 name name (OwnAttrs (mkAttrs size 1 420 0 0 0 0 0 0)) [] 1.

(* ======================================================================= *)
(** * Properties *)

(** ** The monad *)

Lemma run_bind_Done {A B} (m : Run A) (k : A -> Run B) tr r :
  (m ≫= k) tr = Done r ->
  exists a tr', m tr = Done (a, tr') /\ k a tr' = Done r.
Proof.
  unfold mbind, run_mbind, run_bind.
  destruct (m tr) as [[a tr']| | |]; try discriminate.
  intros H. eauto.
Qed.

Lemma run_bind_eq {A B} (m : Run A) (k : A -> Run B) tr a tr' :
  m tr = Done (a, tr') -> (m ≫= k) tr = k a tr'.
Proof. intros H. unfold mbind, run_mbind, run_bind. by rewrite H. Qed.

Lemma lift_Done {A} (o : outcome A) tr r :
  lift o tr = Done r -> exists a, o = Done a /\ r = (a, tr).
Proof. destruct o; simpl; intros; simplify_eq; eauto. Qed.

(** ** isEmptyDir *)

(** C8: for every path [p], [isEmptyDir] issues LIST(prefix = p + "/",
    delimiter = "/", limit 2) and classifies the answer: a common prefix or
    two contents give (true, NotEmpty); a single content whose key is
    p + "/" gives (true, ok); a single content with another key gives
    (true, NotEmpty); an empty answer gives (false, ok). *)
Theorem isEmptyDir_classifies (s3 : S3) (p : string) (tr : list Request)
    (resp : ListObjectsOutput) :
  s3ListObjects s3 tr (isEmptyDir_request p) = inr resp ->
  exists r,
    isEmptyDir s3 p tr = Done (r, tr ++ [isEmptyDir_request p]) /\
    ((1 <= length (CommonPrefixes resp) \/ 2 <= length (Contents resp))%nat ->
       r = (true, Some ENOTEMPTY)) /\
    (forall o, CommonPrefixes resp = [] -> Contents resp = [o] ->
       Key o = p +:+ "/" -> r = (true, None)) /\
    (forall o, CommonPrefixes resp = [] -> Contents resp = [o] ->
       Key o <> p +:+ "/" -> r = (true, Some ENOTEMPTY)) /\
    (CommonPrefixes resp = [] -> Contents resp = [] -> r = (false, None)).
Proof.
  intros Hresp. unfold isEmptyDir, isEmptyDir_request in *.
  unfold mbind, run_mbind, run_bind, call. rewrite Hresp.
  destruct resp as [cps cs trunc nm]; simpl.
  destruct cps as [|cp cps]; [destruct cs as [|o [|o' cs]]|]; simpl;
    try destruct (String.eqb_spec (Key o) (p +:+ "/")) as [He|He];
    (eexists; split; [reflexivity|]);
    repeat split; intros; simplify_eq/=; try done; try lia;
    intuition lia.
Qed.

(** The four rows on a bucket that holds [d/], [d/a], [e/] and [f]. *)
Lemma isEmptyDir_classifies_witness :
  let objs := [mkObject "d/" 0 0; mkObject "d/a" 1 0; mkObject "e/" 0 0;
               mkObject "f/g/h" 1 0] in
  let s3 := store_s3 "bucket" objs in
  isEmptyDir s3 "d" [] = Done ((true, Some ENOTEMPTY), [isEmptyDir_request "d"])
  /\ isEmptyDir s3 "e" [] = Done ((true, None), [isEmptyDir_request "e"])
  /\ isEmptyDir s3 "f/g" [] =
       Done ((true, Some ENOTEMPTY), [isEmptyDir_request "f/g"])
  /\ isEmptyDir s3 "x" [] = Done ((false, None), [isEmptyDir_request "x"]).
Proof.
  intros objs s3.
  pose proof (isEmptyDir_classifies s3 "d" [] _ eq_refl)
    as (r1 & E1 & H1 & _).
  pose proof (isEmptyDir_classifies s3 "e" [] _ eq_refl)
    as (r2 & E2 & _ & H2 & _).
  pose proof (isEmptyDir_classifies s3 "f/g" [] _ eq_refl)
    as (r3 & E3 & _ & _ & H3 & _).
  pose proof (isEmptyDir_classifies s3 "x" [] _ eq_refl)
    as (r4 & E4 & _ & _ & _ & H4).
  rewrite E1, E2, E3, E4.
  rewrite H1 by (right; vm_compute; lia).
  rewrite (H2 (mkObject "e/" 0 0)) by reflexivity.
  rewrite (H3 (mkObject "f/g/h" 1 0)) by (reflexivity || discriminate).
  rewrite H4 by reflexivity.
  repeat split.
Defined.

(** ** Reference counts *)

(** C10: with current count [r], forgetting [n > r] references panics on the
    guard of [DeRef]; forgetting [n <= r] stores [r - n], and the inode
    leaves the identifier index and the full-name index exactly when the
    count reached 0. *)
Theorem ForgetInode_deref (fs : Goofys) (h : Heap) (id n : Z) (a : positive)
    (inode : Inode) :
  inodes fs !! id = Some a ->
  inodeObjs h !! a = Some inode ->
  (refcnt inode < n ->
     DeRef inode n = Panic "deref" /\ ForgetInode fs h id n = Panic "deref") /\
  (n <= refcnt inode ->
     DeRef inode n =
       Done (set_refcnt inode (refcnt inode - n), refcnt inode - n =? 0) /\
     exists fs' h',
       ForgetInode fs h id n = Done (fs', h') /\
       inodeObjs h' !! a = Some (set_refcnt inode (refcnt inode - n)) /\
       (refcnt inode - n = 0 ->
          inodes fs' !! id = None /\
          inodesCache fs' !! FullName inode = None) /\
       (refcnt inode - n <> 0 -> fs' = fs)).
Proof.
  intros Hid Ha. unfold ForgetInode, getInodeOrDie, DeRef.
  rewrite Hid, Ha. split; intros Hn.
  - apply Z.ltb_lt in Hn. by rewrite Hn.
  - apply Z.ltb_ge in Hn. rewrite Hn. split; [done|]. simpl.
    destruct (refcnt inode - n =? 0) eqn:Hz.
    + apply Z.eqb_eq in Hz. do 2 eexists. split; [reflexivity|].
      simpl. rewrite lookup_insert_eq. split; [done|]. split; [|lia].
      intros _. by rewrite !lookup_delete_eq.
    + apply Z.eqb_neq in Hz. do 2 eexists. split; [reflexivity|].
      simpl. rewrite lookup_insert_eq. split; [done|]. split; [lia|done].
Qed.

(** The root of a fresh mount, forgotten once and forgotten twice over. *)
Lemma ForgetInode_deref_witness :
  let '(fs, h) := NewGoofys "bucket" (store_s3 "bucket" []) (mkFlags 493 420 0 0)
                            (mkBufferPool 8) 0 in
  ForgetInode fs h RootInodeID 2 = Panic "deref" /\
  exists fs' h',
    ForgetInode fs h RootInodeID 1 = Done (fs', h') /\
    inodes fs' !! RootInodeID = None /\ inodesCache fs' !! "" = None.
Proof.
  simpl.
  match goal with
  | |- ForgetInode ?fs ?h _ _ = _ /\ _ =>
      pose proof (ForgetInode_deref fs h RootInodeID 2 rootAddr _
                    eq_refl eq_refl) as [Hp _];
      pose proof (ForgetInode_deref fs h RootInodeID 1 rootAddr _
                    eq_refl eq_refl) as [_ Hd]
  end.
  split.
  - apply Hp. simpl. lia.
  - destruct Hd as (_ & fs' & h' & E & _ & Hz & _); [simpl; lia|].
    exists fs', h'. split; [exact E|]. apply Hz. reflexivity.
Defined.

(** ** Machine integers *)

Lemma wrap_int64_small z : - 2 ^ 63 <= z < 2 ^ 63 -> wrap_int64 z = z.
Proof. intros H. unfold wrap_int64. rewrite Z.mod_small; lia. Qed.

Lemma wrap_uint64_small z : 0 <= z < 2 ^ 64 -> wrap_uint64 z = z.
Proof. intros H. unfold wrap_uint64. rewrite Z.mod_small; lia. Qed.

Lemma wrap_int64_range z : - 2 ^ 63 <= wrap_int64 z < 2 ^ 63.
Proof.
  unfold wrap_int64. pose proof (Z.mod_pos_bound (z + 2 ^ 63) (2 ^ 64)). lia.
Qed.

(** ** The directory cursor *)

(** C6, as the code has it: the request at offset 0 returns the synthetic
    [.] entry, which carries offset 1, and records the root attributes under
    the name "."; the request at offset 1 returns the synthetic [..] entry,
    which carries offset 2; a request at an offset of 2 or more indexes the
    listed entries at i = offset - base_offset - 2. *)
Theorem ReadDir_offsets (fs : Goofys) (inode : Inode) (dh : DirHandle)
    (tr : list Request) :
  ReadDir fs inode dh 0 tr =
    Done (set_NameToEntry (set_Entries dh None)
            (<["." := rootAttrs fs]> (NameToEntry dh)),
          Some (mkDirent 1 (RootInodeID + 1) "." DT_Directory), None, tr)
  /\ ReadDir fs inode dh 1 tr =
       Done (set_NameToEntry dh (<[".." := rootAttrs fs]> (NameToEntry dh)),
             Some (mkDirent 2 (RootInodeID + 1) ".." DT_Directory), None, tr)
  /\ forall offset es e,
       2 <= offset < 2 ^ 63 ->
       0 <= BaseOffset dh <= offset - 2 ->
       offset - BaseOffset dh - 2 <= 5000 ->
       Entries dh = Some es ->
       es !! Z.to_nat (offset - BaseOffset dh - 2) = Some e ->
       ReadDir fs inode dh offset tr = Done (dh, Some e, None, tr).
Proof.
  split; [reflexivity|]. split; [reflexivity|].
  intros offset es e Hoff Hbase Hmax Hes He.
  unfold ReadDir.
  destruct (offset =? 0) eqn:E0; [lia|].
  destruct (offset =? 1) eqn:E1; [lia|].
  rewrite (wrap_int64_small offset) by lia.
  rewrite (wrap_int64_small (offset - BaseOffset dh)) by lia.
  rewrite (wrap_int64_small (offset - BaseOffset dh - 2)) by lia.
  set (i := offset - BaseOffset dh - 2) in *.
  assert (Hlen : (Z.to_nat i < length es)%nat)
    by (eapply lookup_lt_Some; eauto).
  destruct (i <? 0) eqn:Ei; [lia|].
  unfold len_Entries. rewrite Hes.
  destruct (Z.of_nat (length es) <=? i) eqn:El; [lia|].
  destruct (5000 <? i) eqn:E5; [lia|].
  rewrite Hes. simpl.
  unfold mbind, run_mbind, run_bind, mret, run_mret, run_ret. simpl.
  unfold len_Entries. rewrite Hes.
  destruct (i =? Z.of_nat (length es)) eqn:Ee; [lia|].
  destruct (Z.of_nat (length es) <? i) eqn:Eg; [lia|].
  by rewrite He.
Qed.

(** A handle whose page holds [a] and [b]: offset 3 is the entry at index 1. *)
Lemma ReadDir_offsets_witness :
  let fs := fst (scenario_mount marker_and_children 8) in
  let dh := set_Entries (NewDirHandle 2%positive) (Some (drop 2 listing_d)) in
  ReadDir fs (NewInode "d" "d" RootAttrs) dh 3 [] =
    Done (dh, Some (mkDirent 4 2 "b" DT_File), None, []).
Proof.
  intros fs dh.
  apply (proj2 (proj2 (ReadDir_offsets fs (NewInode "d" "d" RootAttrs) dh []))
           3 (drop 2 listing_d)); simpl; (lia || reflexivity).
Defined.

(** C6, as the claim has it, fails: on the directory [d] of the bucket
    {d/, d/a, d/b} the request at offset 1 returns [..], not [.], and the
    request at offset 2 returns the first listed entry [a], not [..]. *)
Lemma ReadDir_offsets_counterexample :
  directory_scenario marker_and_children "d" [(1, 32%nat)] =
    Some [([mkDirent 2 2 ".." DT_Directory], None)]
  /\ directory_scenario marker_and_children "d" [(2, 32%nat)] =
       Some [([mkDirent 3 2 "a" DT_File], None)]
  /\ ~ (forall fs inode dh tr,
          exists dh' e tr',
            ReadDir fs inode dh 1 tr = Done (dh', Some e, None, tr') /\
            d_Name e = ".").
Proof.
  split; [vm_compute; reflexivity|]. split; [vm_compute; reflexivity|].
  intros H.
  destruct (H (fst (scenario_mount marker_and_children 8))
              (NewInode "d" "d" RootAttrs) (NewDirHandle 2%positive) [])
    as (dh' & e & tr' & E & Hname).
  pose proof (ReadDir_offsets (fst (scenario_mount marker_and_children 8))
                (NewInode "d" "d" RootAttrs) (NewDirHandle 2%positive) [])
    as (_ & E1 & _).
  rewrite E1 in E. injection E as _ <- _. discriminate Hname.
Qed.

#[global] Instance dirent_le_total : Total dirent_le.
Proof. intros a b. unfold dirent_le. apply total, _. Qed.

#[global] Instance dirent_le_trans : Transitive dirent_le.
Proof. intros a b c. unfold dirent_le. apply transitivity. Qed.

Lemma ReadDir_prefixes_named fs prefix es names dirs es' names' :
  ReadDir_prefixes fs prefix es names dirs = Done (es', names') ->
  Forall named_file es -> Forall named_file es'.
Proof.
  revert es names. induction dirs as [|dir dirs IH]; intros es names; simpl.
  - intros [= <- <-]. done.
  - destruct (slice_drop_last dir) as [d1|]; [|done].
    destruct (slice_from d1 _) as [d2|]; [|done].
    intros H Hes. eapply IH; [exact H|].
    apply Forall_app. split; [done|]. constructor; [|constructor].
    unfold named_file. simpl. done.
Qed.

Lemma ReadDir_contents_named fs prefix es names objs es' names' :
  ReadDir_contents fs prefix es names objs = Done (es', names') ->
  Forall named_file es -> Forall named_file es'.
Proof.
  revert es names. induction objs as [|obj objs IH]; intros es names; simpl.
  - intros [= <- <-]. done.
  - destruct (slice_from (Key obj) _) as [base|]; [|done].
    destruct (String.length base =? 0)%nat eqn:El.
    + apply IH.
    + intros H Hes. eapply IH; [exact H|].
      apply Forall_app. split; [done|]. constructor; [|constructor].
      unfold named_file. simpl. intros _ ->. simpl in El. done.
Qed.

Lemma fix_offsets_lookup base i es k e :
  fix_offsets base i es !! k = Some e ->
  exists e0, es !! k = Some e0 /\
    e = set_d_Offset e0
          (wrap_uint64
             (wrap_uint64 (wrap_int64 (Z.of_nat (i + k) + base)) + 1 + 2)).
Proof.
  revert i k. induction es as [|x es IH]; intros i k; simpl; [done|].
  destruct k as [|k]; simpl.
  - intros [= <-]. exists x. split; [done|]. by rewrite Nat.add_0_r.
  - intros H. apply IH in H as (e0 & H0 & ->). exists e0. split; [done|].
    by replace (S i + k)%nat with (i + S k)%nat by lia.
Qed.

Lemma fix_offsets_elem base i es e :
  e ∈ fix_offsets base i es ->
  exists e0 o, e0 ∈ es /\ e = set_d_Offset e0 o.
Proof.
  intros (k & Hk)%list_elem_of_lookup.
  apply fix_offsets_lookup in Hk as (e0 & H0 & ->).
  do 2 eexists. split; [|done]. eapply list_elem_of_lookup_2; eauto.
Qed.

Lemma fix_offsets_Sorted base i es :
  Sorted dirent_le es -> Sorted dirent_le (fix_offsets base i es).
Proof.
  revert i. induction es as [|x es IH]; intros i Hs; simpl; [constructor|].
  apply Sorted_inv in Hs as [Hs Hhd]. constructor; [by apply IH|].
  destruct es as [|y es]; simpl; [constructor|].
  apply HdRel_inv in Hhd. constructor. exact Hhd.
Qed.

(** What a listed page looks like. *)
Lemma ReadDir_list_page (fs : Goofys) (inode : Inode) (dh dh' : DirHandle)
    (tr tr' : list Request) :
  ReadDir_list fs inode dh tr = Done (dh', None, tr') ->
  exists es,
    Entries dh' = Some es /\
    Sorted dirent_le es /\
    (forall i e, es !! i = Some e ->
       0 <= BaseOffset dh -> BaseOffset dh + Z.of_nat i + 3 < 2 ^ 63 ->
       d_Offset e = BaseOffset dh + Z.of_nat i + 3) /\
    (forall e, e ∈ es -> d_Type e = DT_File -> d_Name e <> "").
Proof.
  unfold ReadDir_list. intros H.
  apply run_bind_Done in H as (resp & tr1 & _ & H).
  destruct resp as [err|resp]; [discriminate|].
  apply run_bind_Done in H as ([es1 n1] & tr2 & H1 & H).
  apply lift_Done in H1 as ([es1' n1'] & H1 & [= <- <- <-]).
  apply run_bind_Done in H as ([es2 n2] & tr3 & H2 & H).
  apply lift_Done in H2 as ([es2' n2'] & H2 & [= <- <- <-]).
  injection H as <- <-. simpl.
  eexists. split; [reflexivity|]. split; [|split].
  - apply fix_offsets_Sorted, Sorted_merge_sort, _.
  - intros i e Hi Hb Hmax. apply fix_offsets_lookup in Hi as (e0 & H0 & ->).
    simpl. rewrite wrap_int64_small by lia.
    rewrite (wrap_uint64_small (Z.of_nat i + BaseOffset dh)) by lia.
    rewrite wrap_uint64_small by lia. lia.
  - intros e (e0 & o & H0 & ->)%fix_offsets_elem. simpl.
    unfold sortDirents in H0. rewrite merge_sort_Permutation in H0.
    apply ReadDir_prefixes_named in H1; [|constructor].
    apply ReadDir_contents_named in H2; [|done].
    rewrite Forall_forall in H2. by apply H2.
Qed.

(** C7: on a bucket that holds exactly [d/], [d/a] and [d/b], opening [d]
    and reading it yields [.], [..], [a], [b] in that order with the offsets
    1, 2, 3, 4, in one read or in reads that resume at the offset of the last
    entry; the marker [d/], whose stripped name is empty, is left out.  On
    every page the entries are sorted ascending by name, entry [i] carries
    the offset base_offset + i + 3, and no file entry has the empty name. *)
Theorem ReadDir_marker_and_children :
  directory_scenario marker_and_children "d" [(0, 4096%nat)] =
    Some [(listing_d, None)]
  /\ directory_scenario marker_and_children "d"
       [(0, 64%nat); (2, 64%nat); (4, 64%nat)] =
     Some [(take 2 listing_d, None); (drop 2 listing_d, None); ([], None)]
  /\ forall fs inode dh dh' tr tr',
       ReadDir_list fs inode dh tr = Done (dh', None, tr') ->
       exists es,
         Entries dh' = Some es /\
         Sorted dirent_le es /\
         (forall i e, es !! i = Some e ->
            0 <= BaseOffset dh -> BaseOffset dh + Z.of_nat i + 3 < 2 ^ 63 ->
            d_Offset e = BaseOffset dh + Z.of_nat i + 3) /\
         (forall e, e ∈ es -> d_Type e = DT_File -> d_Name e <> "").
Proof.
  split; [vm_compute; reflexivity|]. split; [vm_compute; reflexivity|].
  intros fs inode dh dh' tr tr'. apply ReadDir_list_page.
Qed.

(** The page that the listing of [d] produces. *)
Lemma ReadDir_marker_and_children_witness :
  let fs := fst (scenario_mount marker_and_children 8) in
  exists dh' tr',
    ReadDir_list fs (NewInode "d" "d" RootAttrs) (NewDirHandle 2%positive) [] =
      Done (dh', None, tr') /\
    Entries dh' = Some (drop 2 listing_d).
Proof.
  intros fs.
  destruct (ReadDir_list fs (NewInode "d" "d" RootAttrs)
              (NewDirHandle 2%positive) []) as [[[dh' err] tr']| | |] eqn:E;
    try (vm_compute in E; discriminate E).
  destruct err as [err|]; [vm_compute in E; discriminate E|].
  exists dh', tr'. split; [reflexivity|].
  pose proof (proj2 (proj2 ReadDir_marker_and_children) _ _ _ _ _ _ E)
    as (es & Hes & _).
  vm_compute in E. injection E as <- _. reflexivity.
Defined.

(** ** Looking a name up *)

Ltac run_simpl :=
  unfold mret, run_mret, run_ret, panic, block, out_of_fuel in *;
  simplify_eq/=.

(** Evaluation of the left-hand side of an equation. *)
Ltac by_computation :=
  lazymatch goal with
  | |- ?lhs = _ =>
      let v := eval vm_compute in lhs in
      transitivity v; [vm_cast_no_check (eq_refl v) | reflexivity]
  end.

(** The explicit not-found returns of the select loop need both probes to
    come back negative. *)
Lemma select_nil_only_when_both_negative fs name fullName sched object dir err :
  (exists r, object = HeadResp r) \/ (exists e, object = HeadErr e) ->
  (exists r, dir = ListResp r) \/ (exists e, dir = ListErr e) ->
  LookUpInodeMaybeDir_select fs name fullName false None
    (arrival_order sched object dir) = Done (None, err) ->
  object = HeadErr ENOENT /\
  (exists r, dir = ListResp r /\ CommonPrefixes r = [] /\ Contents r = []) /\
  err = Some ENOENT.
Proof.
  intros [[r ->]|[e ->]] [[r' ->]|[e' ->]]; destruct sched; simpl;
    repeat (case_decide || case_match || simplify_eq/= || intros); try done.
  all: try (split; [done|]; split; [|done]; eexists; split; [done|]).
  all: try (destruct (CommonPrefixes _), (Contents _); simpl in *; done).
Qed.

(** C4, at the input on which the code departs from it: the listing fails
    first, then HEAD succeeds.  The error of the listing stays in the named
    result, so [LookUpInodeMaybeDir] returns the file inode together with
    that error, and [Inode.LookUp] reports the error alone: not-found when
    the listing failed with status 404, although HEAD found the object. *)
Theorem LookUpInodeMaybeDir_error_leaks (fs : Goofys) (h : Heap)
    (parent : Inode) (name : string) (tr : list Request)
    (resp : HeadObjectOutput) (e : error) :
  let fullName := getChildName parent name in
  s3HeadObject (s3 fs) tr (RHeadObject fullName) = inr resp ->
  s3ListObjects (s3 fs) (tr ++ [RHeadObject fullName])
    (RListObjects (fullName +:+ "/") "/" None (Some 1)) = inl e ->
  LookUpInodeMaybeDir fs name fullName ListFirst tr =
    Done (Some (NewInode name fullName (OwnAttrs (file_attrs fs resp))),
          Some (mapAwsError e), tr ++ lookup_requests fullName)
  /\ (handles parent = [] ->
      Inode_LookUp fs h parent name ListFirst tr =
        Done (None, Some (mapAwsError e), tr ++ lookup_requests fullName)).
Proof.
  intros fullName Hhead Hlist.
  assert (E : LookUpInodeMaybeDir fs name fullName ListFirst tr =
    Done (Some (NewInode name fullName (OwnAttrs (file_attrs fs resp))),
          Some (mapAwsError e), tr ++ lookup_requests fullName)).
  { unfold LookUpInodeMaybeDir, LookUpInodeNotDir, LookUpInodeDir.
    unfold mbind, run_mbind, run_bind, call. rewrite Hhead. simpl.
    rewrite Hlist. simpl. unfold lookup_requests. by rewrite <- app_assoc. }
  split; [exact E|]. intros Hh.
  unfold Inode_LookUp, lookupFromDirHandles. rewrite Hh. simpl.
  fold fullName. unfold mbind, run_mbind, run_bind. rewrite E. reflexivity.
Qed.

(** The object [f] exists and the listing fails with status 404: the lookup
    reports not-found. *)
Lemma LookUpInodeMaybeDir_error_leaks_witness :
  let m := canned_mount (inr (mkHeadObjectOutput 3 0))
                        (inl (RequestFailure 404)) 8 in
  let root := set_Id (NewInode "" "" RootAttrs) RootInodeID in
  Inode_LookUp (fst m) (snd m) root "f" ListFirst [] =
    Done (None, Some ENOENT, lookup_requests "f").
Proof.
  intros m root.
  apply (proj2 (LookUpInodeMaybeDir_error_leaks (fst m) (snd m) root "f" []
                  (mkHeadObjectOutput 3 0) (RequestFailure 404)
                  eq_refl eq_refl)).
  reflexivity.
Defined.

(** ** The tables *)

Lemma wrap_uint64_succ_ne z : 0 <= z < 2 ^ 64 -> wrap_uint64 (z + 1) <> z.
Proof.
  intros H. unfold wrap_uint64.
  destruct (decide (z = 2 ^ 64 - 1)) as [->|Hne].
  - replace (2 ^ 64 - 1 + 1) with (2 ^ 64) by lia.
    rewrite Z.mod_same by lia. lia.
  - rewrite Z.mod_small by lia. lia.
Qed.

Lemma canned_tables_wf hd ls chunk :
  tables_wf (fst (canned_mount hd ls chunk)) (snd (canned_mount hd ls chunk)).
Proof.
  split; [simpl; unfold RootInodeID; lia|]. split.
  - intros id a. simpl. intros [<- <-]%lookup_singleton_Some.
    unfold RootInodeID, rootAddr. lia.
  - intros key a. simpl. rewrite lookup_empty. done.
Qed.

(** C5, at the input on which the code departs from it: [MkDir] files the
    new inode under its identifier only, so a lookup of the same name that
    follows it answers with a different identifier, and both inodes stay in
    the identifier index. *)
Theorem MkDir_then_LookUpInode_two_ids (fs : Goofys) (h : Heap) (parentId : Z)
    (name : string) (sched : Schedule) (tr : list Request)
    fs1 h1 e1 tr1 fs2 h2 e2 tr2 :
  tables_wf fs h ->
  MkDir fs h parentId name tr = Done (fs1, h1, inr e1, tr1) ->
  LookUpInode fs1 h1 parentId name sched tr1 = Done (fs2, h2, inr e2, tr2) ->
  Child e1 <> Child e2 /\
  exists a1 a2,
    inodes fs2 !! Child e1 = Some a1 /\ inodes fs2 !! Child e2 = Some a2 /\
    a1 <> a2.
Proof.
  intros (Hnext & Hids & Hcache) Hmk Hlk.
  unfold MkDir in Hmk. unfold getInodeOrDie in Hmk.
  destruct (inodes fs !! parentId) as [pa|] eqn:Hpid; [|done].
  destruct (inodeObjs h !! pa) as [parent|] eqn:Hpa; [|done].
  destruct (Hids _ _ Hpid) as [Hpid_lt Hpa_lt].
  apply run_bind_Done in Hmk as ([ino err] & tr' & Hm & Hmk).
  unfold Inode_MkDir in Hm.
  apply run_bind_Done in Hm as (perr & tr'' & _ & Hm).
  destruct perr as [perr|]; run_simpl.
  unfold LookUpInode, getInodeOrDie in Hlk. simpl in Hlk.
  rewrite lookup_insert_ne in Hlk by lia. rewrite Hpid in Hlk.
  rewrite lookup_insert_ne in Hlk by lia. rewrite Hpa in Hlk.
  destruct (inodesCache fs !! getChildName parent name) as [a|] eqn:Hc.
  - destruct (decide (a = nextAddr h)) as [->|Hne].
    + destruct (Hcache _ _ Hc) as [? _]. lia.
    + rewrite lookup_insert_ne in Hlk by done.
      destruct (inodeObjs h !! a) as [inode|] eqn:Ha; [|done].
      run_simpl.
      destruct (Hcache _ _ Hc) as [Halt Hid]. specialize (Hid _ Ha).
      split; [lia|].
      exists (nextAddr h), a. rewrite lookup_insert_ne by lia.
      rewrite lookup_insert_eq. rewrite lookup_insert_eq. done.
  - apply run_bind_Done in Hlk as ([ino err] & tr' & Hl & Hlk).
    destruct err as [err|]; [run_simpl|].
    destruct ino as [ino|]; run_simpl.
    pose proof (wrap_uint64_succ_ne (nextInodeID fs) Hnext).
    split; [done|].
    exists (nextAddr h), (Pos.succ (nextAddr h)).
    rewrite lookup_insert_ne by done. rewrite lookup_insert_eq.
    rewrite lookup_insert_eq. split; [done|]. split; [done|]. lia.
Qed.

(** A fresh mount: [MkDir] of [d] answers with identifier 2, the lookup of
    [d] that follows finds the marker and answers with identifier 3. *)
Lemma MkDir_then_LookUpInode_two_ids_witness :
  let m := canned_mount (inl (RequestFailure 404))
             (inr (mkListObjectsOutput [] [mkObject "d/" 0 0] false None)) 8 in
  exists fs1 h1 e1 tr1 fs2 h2 e2 tr2,
    MkDir (fst m) (snd m) RootInodeID "d" [] = Done (fs1, h1, inr e1, tr1) /\
    LookUpInode fs1 h1 RootInodeID "d" HeadFirst tr1 =
      Done (fs2, h2, inr e2, tr2) /\
    Child e1 = 2 /\ Child e2 = 3 /\ Child e1 <> Child e2.
Proof.
  intros m.
  do 8 eexists. split; [by_computation|]. split; [by_computation|].
  split; [reflexivity|]. split; [reflexivity|].
  eapply (MkDir_then_LookUpInode_two_ids (fst m) (snd m) RootInodeID "d"
            HeadFirst []); [apply canned_tables_wf|by_computation|by_computation].
Defined.

(** ** The write path *)

(** The handle as a flat record. *)
Ltac flat :=
  cbv beta iota delta
    [set_dirty set_writeInit set_mpuWG set_etags set_mpuId set_nextWriteOffset
     set_lastPartId set_poolHandle set_buf set_lastWriteError
     fh_inode dirty writeInit mpuWG etags mpuId nextWriteOffset lastPartId
     poolHandle buf lastWriteError].

Ltac red_run :=
  repeat (cbn -[PoolCopy Nat.mul length wrap_int64 wrap_uint64 Z.of_nat drop
                replicate];
          unfold mbind, run_mbind, run_bind, mret, run_mret, run_ret);
  flat.


(** C1, at the input on which the code departs from it: create a file, write
    "AAAA" at offset 0, write "BB" at offset 2, flush.  The second write
    returns [EINVAL] and leaves it in [lastWriteError]; the flush takes the
    small-file path, which does not look at [lastWriteError]: it puts "AAAA"
    and returns what the PUT returned, success when the PUT succeeded. *)
Theorem FlushFile_small_file_ignores_sticky_error (fs : Goofys)
    (parent : Inode) (name : string) (now : Z) (a : positive)
    (tr : list Request) :
  (4 < chunk (bufferPool fs))%nat ->
  let inode := fst (Inode_Create fs parent name now a) in
  let fh := snd (Inode_Create fs parent name now a) in
  let put := RPutObject (FullName inode) AAAA in
  exists st,
    steps (mkHandleState fs inode fh) [AWrite 0 AAAA; AWrite 2 BB; AFlush] tr =
      Done (st,
            [None; Some EINVAL;
             option_map mapAwsError (s3PutObject (s3 fs) tr put)],
            tr ++ [put]) /\
    lastWriteError (hs_fh st) = Some EINVAL.
Proof.
  intros Hc inode fh put.
  destruct fs
    as [bk fl [hd ls p de cp cr up uc co ab] ra [c] nid ino inc nh dhs fhs].
  simpl in Hc.
  do 5 (destruct c as [|c]; [lia|]).
  vm_compute.
  destruct (p tr _) as [e|]; eexists; split; reflexivity.
Qed.

(** With buffers of 8 bytes and a store that accepts the PUT, the flush
    after the failed write succeeds. *)
Lemma FlushFile_small_file_ignores_sticky_error_witness :
  let fs := fst (canned_mount (inl (RequestFailure 404))
                              (inl (RequestFailure 404)) 8) in
  let inode := fst (Inode_Create fs root_inode "x" 0 2%positive) in
  let fh := snd (Inode_Create fs root_inode "x" 0 2%positive) in
  exists st,
    steps (mkHandleState fs inode fh) [AWrite 0 AAAA; AWrite 2 BB; AFlush] [] =
      Done (st, [None; Some EINVAL; None], [RPutObject "x" AAAA]) /\
    lastWriteError (hs_fh st) = Some EINVAL.
Proof.
  intros fs inode fh.
  apply (FlushFile_small_file_ignores_sticky_error fs root_inode "x" 0
           2%positive []).
  simpl. lia.
Defined.

Lemma PoolCopy_fill c (d1 d2 : list byte) :
  length d1 = c ->
  PoolCopy {| buf_bytes := []; buf_cap := c |} (d1 ++ d2) =
    ({| buf_bytes := d1; buf_cap := c |}, c).
Proof.
  intros H. unfold PoolCopy. simpl. rewrite length_app, Nat.sub_0_r.
  replace (Nat.min (length d1 + length d2) c) with (length d1) by lia.
  rewrite take_app_length. by rewrite H.
Qed.

Lemma PoolCopy_fit c (d : list byte) :
  (length d <= c)%nat ->
  PoolCopy {| buf_bytes := []; buf_cap := c |} d =
    ({| buf_bytes := d; buf_cap := c |}, length d).
Proof.
  intros H. unfold PoolCopy. simpl. rewrite Nat.sub_0_r.
  replace (Nat.min (length d) c) with (length d) by lia.
  by rewrite firstn_all.
Qed.

(** C3, at the inputs on which the code departs from it: a write at offset 0
    whose data fills one buffer ([d1]) and goes on ([d2], at most one more
    buffer).  The loop re-slices [data] after the first buffer, and the size
    is computed from what is left of it: the write succeeds, the next write
    offset is the whole length, and the size of the inode is the length of
    [d2] alone. *)
Theorem WriteFile_size_after_full_buffer (fs : Goofys) (parent : Inode)
    (name : string) (now : Z) (a : positive) (tr : list Request)
    (d1 d2 : list byte) (id : string) :
  let inode := fst (Inode_Create fs parent name now a) in
  let fh := snd (Inode_Create fs parent name now a) in
  length d1 = chunk (bufferPool fs) ->
  (0 < length d2 <= chunk (bufferPool fs))%nat ->
  Z.of_nat (length d1 + length d2) < 2 ^ 63 ->
  s3CreateMultipartUpload (s3 fs) tr (RCreateMultipartUpload (FullName inode))
    = inr id ->
  exists fs' inode' fh' tr',
    WriteFile fs inode fh 0 (d1 ++ d2) tr = Done (fs', inode', fh', None, tr') /\
    Size (attrs_of fs' inode') = Z.of_nat (length d2) /\
    nextWriteOffset fh' = Z.of_nat (length d1 + length d2).
Proof.
  intros inode fh Hd1 Hd2 Hmax Hcreate.
  unfold WriteFile. subst inode fh. simpl in *.
  replace (length (d1 ++ d2) + (length (d1 ++ d2) + 0) + 2)%nat
    with (S (S (2 * length (d1 ++ d2))))%nat by lia.
  red_run. rewrite (PoolCopy_fill _ d1 d2 Hd1). red_run.
  rewrite Hd1, Nat.eqb_refl. unfold initMPU, call. red_run.
  rewrite Hcreate. red_run.
  destruct (chunk (bufferPool fs) =? length (d1 ++ d2))%nat eqn:E.
  { apply Nat.eqb_eq in E. rewrite length_app in E. lia. }
  rewrite <- Hd1, drop_app_length, Hd1.
  rewrite (PoolCopy_fit _ d2) by lia. red_run.
  rewrite Nat.eqb_refl.
  assert (Hsz : wrap_uint64 (wrap_int64 (0 + Z.of_nat (length d2))) =
                Z.of_nat (length d2)).
  { rewrite wrap_int64_small by lia. rewrite wrap_uint64_small; lia. }
  assert (Hoff : wrap_int64
                   (wrap_int64 (0 + Z.of_nat (chunk (bufferPool fs))) +
                    Z.of_nat (length d2)) =
                 Z.of_nat (length d1 + length d2)).
  { rewrite <- Hd1. rewrite (wrap_int64_small (0 + _)) by lia.
    rewrite wrap_int64_small; lia. }
  destruct (length d2 =? chunk (bufferPool fs))%nat; red_run;
    do 4 eexists; (split; [reflexivity|]); simpl;
    (split; [exact Hsz|]); rewrite Hoff, Hd1; reflexivity.
Qed.

(** Buffers of 4 bytes and a write of 6 bytes at offset 0: the size of the
    inode is 2. *)
Lemma WriteFile_size_after_full_buffer_witness :
  let fs := fst (canned_mount (inl (RequestFailure 404))
                              (inl (RequestFailure 404)) 4) in
  let inode := fst (Inode_Create fs root_inode "x" 0 2%positive) in
  let fh := snd (Inode_Create fs root_inode "x" 0 2%positive) in
  exists fs' inode' fh' tr',
    WriteFile fs inode fh 0 (AAAA ++ BB) [] = Done (fs', inode', fh', None, tr') /\
    Size (attrs_of fs' inode') = 2 /\
    nextWriteOffset fh' = 6.
Proof.
  intros fs inode fh.
  apply (WriteFile_size_after_full_buffer fs root_inode "x" 0 2%positive []
           AAAA BB "upload"); simpl; (reflexivity || lia).
Defined.

(** ** Rename *)

Lemma isEmptyDir_trace s3 p tr :
  exists r, isEmptyDir s3 p tr = Done (r, tr ++ [isEmptyDir_request p]).
Proof.
  unfold isEmptyDir, isEmptyDir_request, mbind, run_mbind, run_bind, call.
  destruct (s3ListObjects _ _ _) as [e|resp]; simpl; [eauto|].
  destruct (_ || _); [eauto|].
  destruct (Contents resp) as [|o [|o' cs]]; simpl; eauto.
  destruct (String.eqb _ _); eauto.
Qed.

Lemma mpuCopyParts_loop_trace fuel fs size from to mpuId i rangeTo etags errout
    r tr tr' :
  mpuCopyParts_loop fuel fs size from to mpuId i rangeTo etags errout tr =
    Done (r, tr') ->
  exists ext, tr' = tr ++ ext /\ Forall (copy_request to) ext.
Proof.
  revert i rangeTo etags errout tr.
  induction fuel as [|fuel IH]; intros i rangeTo etags errout tr; simpl.
  - destruct (rangeTo <? size); [done|]. intros [= <- <-].
    exists []. by rewrite app_nil_r.
  - destruct (rangeTo <? size).
    + destruct (_ || _); [done|].
      intros H. apply run_bind_Done in H as ([es eo] & tr1 & H1 & H).
      unfold mpuCopyPart in H1.
      apply run_bind_Done in H1 as (resp & tr2 & Hc & H1).
      unfold call in Hc. injection Hc as <- <-.
      assert (tr1 = tr ++ [RUploadPartCopy to from mpuId rangeTo
                (((if size <? wrap_int64 (i * PART_SIZE) then size
                   else wrap_int64 (i * PART_SIZE))) - 1) i]) as ->.
      { destruct (s3UploadPartCopy _ _ _); by injection H1 as <- <- <-. }
      apply IH in H as (ext & -> & Hext).
      eexists. rewrite <- app_assoc. split; [reflexivity|].
      constructor; [|done]. split; [done|]. done.
    + intros [= <- <-]. exists []. by rewrite app_nil_r.
Qed.

Lemma copyObjectMultipart_trace fs size from to r tr tr' :
  copyObjectMultipart fs size from to tr = Done (r, tr') ->
  exists ext, tr' = tr ++ ext /\ Forall (copy_request to) ext.
Proof.
  unfold copyObjectMultipart. destruct (_ <? 0); [done|].
  intros H. apply run_bind_Done in H as (resp & tr1 & Hc & H).
  unfold call in Hc. injection Hc as <- <-.
  destruct (s3CreateMultipartUpload _ _ _) as [e|id].
  { injection H as <- <-. eexists. split; [reflexivity|].
    constructor; [|done]. split; done. }
  apply run_bind_Done in H as ([es err] & tr2 & Hp & H).
  unfold mpuCopyParts in Hp.
  apply mpuCopyParts_loop_trace in Hp as (ext & -> & Hext).
  destruct err as [e|].
  { injection H as <- <-. eexists. rewrite <- app_assoc. split; [reflexivity|].
    constructor; [|done]. split; done. }
  destruct (completed_parts _ _ _) as [parts|]; [|done].
  apply run_bind_Done in H as (cerr & tr3 & Hc & H).
  unfold call in Hc. injection Hc as <- <-. injection H as <- <-.
  eexists. rewrite <- !app_assoc. split; [reflexivity|].
  constructor; [split; done|]. apply Forall_app. split; [done|].
  constructor; [split; done|done].
Qed.

Lemma copyObjectMaybeMultipart_trace fs size from to r tr tr' :
  copyObjectMaybeMultipart fs size from to tr = Done (r, tr') ->
  exists ext, tr' = tr ++ ext /\ Forall (copy_request to) ext.
Proof.
  unfold copyObjectMaybeMultipart. intros H.
  apply run_bind_Done in H as (sz & tr1 & Hs & H).
  assert (exists pre, tr1 = tr ++ pre /\ Forall (copy_request to) pre)
    as (pre & -> & Hpre).
  { destruct (size =? -1).
    - apply run_bind_Done in Hs as (resp & tr2 & Hc & Hs).
      unfold call in Hc. injection Hc as <- <-.
      exists [RHeadObject from]. split.
      + destruct (s3HeadObject _ _ _); by injection Hs as <- <-.
      + constructor; [split; done|done].
    - injection Hs as <- <-. exists []. by rewrite app_nil_r. }
  destruct sz as [e|sz].
  { injection H as <- <-. eauto. }
  destruct (_ <? sz).
  - apply copyObjectMultipart_trace in H as (ext & -> & Hext).
    exists (pre ++ ext). rewrite app_assoc. split; [done|].
    by apply Forall_app.
  - apply run_bind_Done in H as (cerr & tr2 & Hc & H).
    unfold call in Hc. injection Hc as <- <-. injection H as <- <-.
    exists (pre ++ [RCopyObject (bucket fs +:+ "/" +:+ from) to]).
    rewrite app_assoc. split; [done|]. apply Forall_app. split; [done|].
    constructor; [split; done|done].
Qed.

Lemma completed_parts_Some (es : list (option string)) i n :
  (i + n <= length es)%nat -> is_Some (completed_parts es i n).
Proof.
  revert i. induction n as [|n IH]; intros i H; simpl; [eauto|].
  destruct (lookup_lt_is_Some_2 es i) as [e He]; [lia|]. rewrite He.
  destruct (IH (S i)) as [ps Hps]; [lia|]. rewrite Hps. eauto.
Qed.

Lemma mpuCopyParts_loop_returns fuel fs size from to mpuId i rangeTo etags
    errout tr :
  0 < size < 2 ^ 62 ->
  (Z.of_nat (length etags) - 1) * PART_SIZE < size
    <= Z.of_nat (length etags) * PART_SIZE ->
  1 <= i ->
  rangeTo = Z.min ((i - 1) * PART_SIZE) size ->
  Z.of_nat fuel + i = Z.of_nat (length etags) + 2 ->
  exists es err tr',
    mpuCopyParts_loop fuel fs size from to mpuId i rangeTo etags errout tr =
      Done (es, err, tr') /\
    length es = length etags.
Proof.
  unfold PART_SIZE.
  revert i rangeTo etags errout tr.
  induction fuel as [|fuel IH]; intros i rangeTo etags errout tr
    Hsize Hn Hi Hr Hf; simpl.
  - destruct (rangeTo <? size) eqn:E; [|by eauto 6]. apply Z.ltb_lt in E. lia.
  - destruct (rangeTo <? size) eqn:E; [|by eauto 6]. apply Z.ltb_lt in E.
    assert (Hlt : i - 1 < Z.of_nat (length etags)) by lia.
    destruct (i - 1 <? 0) eqn:E1; [lia|].
    destruct (Z.of_nat (length etags) <=? i - 1) eqn:E2; [lia|]. simpl.
    unfold mbind, run_mbind, run_bind, mpuCopyPart, call, PART_SIZE.
    rewrite (wrap_int64_small (i * _)) by lia.
    rewrite (wrap_int64_small (i + 1)) by lia.
    unfold mbind, run_mbind, run_bind. cbn beta.
    set (rt := if size <? i * (5 * 1024 * 1024 * 1024) then size
               else i * (5 * 1024 * 1024 * 1024)).
    assert (Hrt : rt = Z.min ((i + 1 - 1) * (5 * 1024 * 1024 * 1024)) size).
    { subst rt. destruct (size <? _) eqn:E3; lia. }
    destruct (s3UploadPartCopy _ _ _) as [e|etag];
      unfold mret, run_mret, run_ret; cbn beta iota.
    + apply IH; try lia.
    + edestruct (IH (i + 1) rt (<[Z.to_nat (i - 1) := etag]> etags) errout)
        as (es & err & tr' & Hl & Hlen);
        [..|exists es, err, tr'; split; [exact Hl|]];
        rewrite ?length_insert in *; try lia.
Qed.

Lemma sizeToParts_bounds size :
  0 < size < 2 ^ 62 ->
  0 < sizeToParts size /\
  (sizeToParts size - 1) * PART_SIZE < size <= sizeToParts size * PART_SIZE.
Proof.
  intros H. unfold sizeToParts, PART_SIZE.
  set (P := 5 * 1024 * 1024 * 1024).
  assert (HP : P = 5368709120) by reflexivity.
  rewrite Z.quot_div_nonneg, Z.rem_mod_nonneg by lia.
  pose proof (Z.div_mod size P ltac:(lia)).
  pose proof (Z.mod_pos_bound size P ltac:(lia)).
  assert (0 <= size / P < 2 ^ 62) by (split; [apply Z.div_pos; lia|apply Z.div_lt_upper_bound; lia]).
  rewrite (wrap_int64_small (size / P)) by lia.
  destruct (size mod P =? 0) eqn:E; simpl.
  - apply Z.eqb_eq in E. lia.
  - apply Z.eqb_neq in E. rewrite wrap_int64_small by lia. lia.
Qed.

Lemma copyObjectMultipart_returns fs size from to tr :
  0 < size < 2 ^ 62 ->
  exists r, copyObjectMultipart fs size from to tr = Done r.
Proof.
  intros Hsize. destruct (sizeToParts_bounds size Hsize) as [Hpos Hb].
  unfold copyObjectMultipart.
  destruct (sizeToParts size <? 0) eqn:E; [lia|].
  unfold mbind, run_mbind, run_bind, call. cbn beta iota.
  destruct (s3CreateMultipartUpload _ _ _) as [e|id]; [eauto|].
  unfold mpuCopyParts.
  set (etags := replicate (Z.to_nat (sizeToParts size)) (@None string)).
  assert (Hlen : length etags = Z.to_nat (sizeToParts size))
    by apply length_replicate.
  destruct (mpuCopyParts_loop_returns (S (length etags)) fs size
              from to id 1 0 etags None (tr ++ [RCreateMultipartUpload to]))
    as (es & err & tr2 & Hl & Hes); rewrite ?Hlen; try lia.
  rewrite Hlen in Hl. rewrite Hl. destruct err as [e|]; [eauto|].
  destruct (completed_parts_Some es 0 (Z.to_nat (sizeToParts size)))
    as [parts Hparts]; [lia|].
  rewrite Hparts. eauto.
Qed.

Lemma copyObjectMaybeMultipart_returns fs size from to tr :
  (forall history req resp,
     s3HeadObject (s3 fs) history req = inr resp ->
     ContentLength resp < 2 ^ 62) ->
  size < 2 ^ 62 ->
  exists r, copyObjectMaybeMultipart fs size from to tr = Done r.
Proof.
  intros Hhead Hsize. unfold copyObjectMaybeMultipart.
  assert (Hcopy : forall sz tr1, sz < 2 ^ 62 ->
    exists r,
      (if 5 * 1024 * 1024 * 1024 <? sz
       then copyObjectMultipart fs sz (bucket fs +:+ "/" +:+ from) to
       else
         err ← call (s3CopyObject (s3 fs))
                    (RCopyObject (bucket fs +:+ "/" +:+ from) to);
         mret (option_map mapAwsError err)) tr1 = Done r).
  { intros sz tr1 Hsz. destruct (_ <? sz) eqn:E.
    - apply Z.ltb_lt in E. apply copyObjectMultipart_returns. lia.
    - unfold mbind, run_mbind, run_bind, call. eauto. }
  unfold mbind at 1. unfold run_mbind, run_bind.
  destruct (size =? -1).
  - unfold mbind at 1. unfold run_mbind, run_bind, call.
    destruct (s3HeadObject _ _ _) as [e|resp] eqn:E;
      unfold mret, run_mret, run_ret; cbn beta iota; [eauto|].
    apply Hcopy. eauto.
  - unfold mret, run_mret, run_ret; cbn beta iota. by apply Hcopy.
Qed.

(** C9: [Rename] first classifies the source and then the destination, with
    listings only; when the classification fails (a non-empty source
    directory included) it returns the error and has issued nothing else;
    otherwise it runs the copy, which issues no delete and writes no key but
    the destination; when the copy fails [Rename] returns its error and
    stops, so no [DeleteObject] is issued; only when the copy succeeded is
    the source deleted, as the last request. *)
Theorem Rename_validates_copies_deletes (fs : Goofys) (parent : Inode)
    (from : string) (newParent : Inode) (to : string) (tr : list Request) :
  let src := getChildName parent from in
  let dst := getChildName newParent to in
  exists v tr1,
    Rename_validate fs src dst tr = Done (v, tr1) /\
    (tr1 = tr ++ [isEmptyDir_request src] \/
     tr1 = tr ++ [isEmptyDir_request src; isEmptyDir_request dst]) /\
    (forall resp,
       s3ListObjects (s3 fs) tr (isEmptyDir_request src) = inr resp ->
       (1 <= length (CommonPrefixes resp) \/ 2 <= length (Contents resp))%nat ->
       v = inl ENOTEMPTY /\ tr1 = tr ++ [isEmptyDir_request src]) /\
    match v with
    | inl e => Rename fs parent from newParent to tr = Done (Some e, tr1)
    | inr isDir =>
        tr1 = tr ++ [isEmptyDir_request src; isEmptyDir_request dst] /\
        let '(from_key, to_key, size) := Rename_keys src dst isDir in
        forall cerr tr2,
          copyObjectMaybeMultipart fs size from_key to_key tr1 =
            Done (cerr, tr2) ->
          (exists cext,
             tr2 = tr1 ++ cext /\ Forall (copy_request to_key) cext) /\
          match cerr with
          | Some e => Rename fs parent from newParent to tr = Done (Some e, tr2)
          | None =>
              Rename fs parent from newParent to tr =
                Done (option_map mapAwsError
                        (s3DeleteObject (s3 fs) tr2 (RDeleteObject from_key)),
                      tr2 ++ [RDeleteObject from_key])
          end
    end.
Proof.
  intros src dst. unfold Rename, Rename_validate. fold src dst.
  destruct (isEmptyDir_trace (s3 fs) src tr) as ([b1 e1] & E1).
  rewrite !(run_bind_eq _ _ _ _ _ E1).
  assert (Hne : forall resp,
    s3ListObjects (s3 fs) tr (isEmptyDir_request src) = inr resp ->
    (1 <= length (CommonPrefixes resp) \/ 2 <= length (Contents resp))%nat ->
    e1 = Some ENOTEMPTY).
  { intros resp Hresp Hlen. revert E1.
    unfold isEmptyDir, mbind, run_mbind, run_bind, call.
    fold (isEmptyDir_request src). rewrite Hresp. simpl.
    destruct (CommonPrefixes resp) as [|cp cps];
      [destruct (Contents resp) as [|o [|o' cs]]|]; simpl in *;
      try lia; by intros [= <- <-]. }
  destruct e1 as [e1|].
  { do 2 eexists. split; [reflexivity|]. split; [by left|]. split; [|done].
    intros resp Hresp Hlen. specialize (Hne _ Hresp Hlen). by simplify_eq. }
  destruct (isEmptyDir_trace (s3 fs) dst (tr ++ [isEmptyDir_request src]))
    as ([b2 e2] & E2).
  rewrite !(run_bind_eq _ _ _ _ _ E2). rewrite <- app_assoc. simpl.
  assert (Hno : forall resp,
    s3ListObjects (s3 fs) tr (isEmptyDir_request src) = inr resp ->
    (1 <= length (CommonPrefixes resp) \/ 2 <= length (Contents resp))%nat ->
    False) by (intros resp H1 H2; by specialize (Hne _ H1 H2)).
  destruct e2 as [e2|].
  { do 2 eexists. split; [reflexivity|]. split; [by right|].
    split; [|done]. intros ???. exfalso. eauto. }
  destruct b1, b2; simpl.
  - do 2 eexists. split; [reflexivity|]. split; [by right|].
    split; [intros ???; exfalso; eauto|]. split; [done|].
    intros cerr tr2 Hc. split; [by eapply copyObjectMaybeMultipart_trace|].
    rewrite (run_bind_eq _ _ _ _ _ Hc). by destruct cerr.
  - do 2 eexists. split; [reflexivity|]. split; [by right|].
    split; [intros ???; exfalso; eauto|]. done.
  - do 2 eexists. split; [reflexivity|]. split; [by right|].
    split; [intros ???; exfalso; eauto|]. done.
  - do 2 eexists. split; [reflexivity|]. split; [by right|].
    split; [intros ???; exfalso; eauto|]. split; [done|].
    intros cerr tr2 Hc. split; [by eapply copyObjectMaybeMultipart_trace|].
    rewrite (run_bind_eq _ _ _ _ _ Hc). by destruct cerr.
Qed.

(** [Rename] returns whenever object sizes stay below 2^62. *)
Lemma Rename_returns fs parent from newParent to tr :
  (forall history req resp,
     s3HeadObject (s3 fs) history req = inr resp ->
     ContentLength resp < 2 ^ 62) ->
  exists r, Rename fs parent from newParent to tr = Done r.
Proof.
  intros Hhead. unfold Rename.
  destruct (isEmptyDir_trace (s3 fs) (getChildName parent from) tr)
    as ([b1 e1] & E1).
  rewrite (run_bind_eq _ _ _ _ _ E1).
  destruct e1 as [e1|]; [by eexists|].
  destruct (isEmptyDir_trace (s3 fs) (getChildName newParent to)
              (tr ++ [isEmptyDir_request (getChildName parent from)]))
    as ([b2 e2] & E2).
  rewrite (run_bind_eq _ _ _ _ _ E2).
  destruct e2 as [e2|]; [by eexists|].
  destruct b1, b2; simpl; try by eexists.
  - edestruct (copyObjectMaybeMultipart_returns fs 0) as ([cerr tr2] & Hc);
      [exact Hhead|lia|].
    rewrite (run_bind_eq _ _ _ _ _ Hc). destruct cerr; by eexists.
  - edestruct (copyObjectMaybeMultipart_returns fs (-1)) as ([cerr tr2] & Hc);
      [exact Hhead|lia|].
    rewrite (run_bind_eq _ _ _ _ _ Hc). destruct cerr; by eexists.
Qed.

(** Two renames on the reference store: the non-empty directory [d] is
    refused after one listing; the file [f] is copied and then deleted. *)
Lemma Rename_validates_copies_deletes_witness :
  let fs := fst (scenario_mount [mkObject "d/" 0 0; mkObject "d/a" 1 0;
                                 mkObject "f" 3 0] 8) in
  Rename fs root_inode "d" root_inode "e" [] =
    Done (Some ENOTEMPTY, [isEmptyDir_request "d"])
  /\ Rename fs root_inode "f" root_inode "g" [] =
       Done (None,
             [isEmptyDir_request "f"; isEmptyDir_request "g"; RHeadObject "f";
              RCopyObject "bucket/f" "g"; RDeleteObject "f"]).
Proof.
  intros fs. split.
  - destruct (Rename_validates_copies_deletes fs root_inode "d" root_inode
                "e" []) as (v & tr1 & Hv & _ & _ & Hcase).
    vm_compute in Hv. injection Hv as <- <-. exact Hcase.
  - destruct (Rename_validates_copies_deletes fs root_inode "f" root_inode
                "g" []) as (v & tr1 & Hv & _ & _ & Hcase).
    vm_compute in Hv. injection Hv as <- <-.
    destruct Hcase as [_ Hcase].
    edestruct (Hcase None) as [_ Hdone]; [by_computation|].
    exact Hdone.
Defined.

(** ** The tables and the heap *)

Lemma lookupFromDirHandles_range_new h parent name hs inode :
  lookupFromDirHandles_range h parent name hs = Done (Some inode) ->
  exists a dh attr,
    a ∈ hs /\ dirObjs h !! a = Some dh /\ NameToEntry dh !! name = Some attr /\
    inode = NewInode name (getChildName parent name) (OwnAttrs attr).
Proof.
  induction hs as [|a hs IH]; simpl; [done|].
  destruct (dirObjs h !! a) as [dh|] eqn:Ha; [|done].
  destruct (NameToEntry dh !! name) as [attr|] eqn:Hn.
  - intros [= <-]. exists a, dh, attr. split; [left|done].
  - intros (a' & dh' & attr' & Hin & ?)%IH. exists a', dh', attr'.
    split; [by right|done].
Qed.

Lemma LookUpInodeMaybeDir_select_new fs name fullName notFound err arrivals
    inode err' :
  LookUpInodeMaybeDir_select fs name fullName notFound err arrivals =
    Done (Some inode, err') ->
  exists attrs, inode = NewInode name fullName attrs.
Proof.
  revert notFound err.
  induction arrivals as [|c cs IH]; intros notFound err; simpl; [done|].
  destruct c as [resp|e|resp|e].
  - intros [= <- <-]. eauto.
  - destruct (decide (e = ENOENT)); [destruct notFound; [done|]|]; apply IH.
  - destruct (_ || _); [intros [= <- <-]; eauto|].
    destruct notFound; [done|]. apply IH.
  - apply IH.
Qed.

(** What [Inode.LookUp] hands back is a new inode of the child's name, not
    yet numbered, with one reference, or two when a directory handle
    supplied it. *)
Lemma Inode_LookUp_new fs h parent name sched inode tr tr' :
  Inode_LookUp fs h parent name sched tr = Done (Some inode, None, tr') ->
  Name inode = name /\ FullName inode = getChildName parent name /\
  Id inode = 0 /\ handles inode = [] /\ (refcnt inode = 1 \/ refcnt inode = 2).
Proof.
  unfold Inode_LookUp, lookupFromDirHandles.
  destruct (lookupFromDirHandles_range _ _ _ _) as [[i|]| | |] eqn:Hr;
    try done.
  - intros [= <- <-].
    apply lookupFromDirHandles_range_new in Hr as (a & dh & attr & _ & _ & _ & ->).
    simpl. repeat split; try done. by right.
  - intros H. apply run_bind_Done in H as ([i e] & tr1 & Hl & H).
    destruct e; [done|]. injection H as -> <-.
    unfold LookUpInodeMaybeDir in Hl.
    apply run_bind_Done in Hl as (o & tr2 & _ & Hl).
    apply run_bind_Done in Hl as (d & tr3 & _ & Hl).
    apply lift_Done in Hl as (r & Hl & [= <- <-]).
    apply LookUpInodeMaybeDir_select_new in Hl as (attrs & ->).
    simpl. repeat split; try done. by left.
Qed.

Lemma tables_inv_NewGoofys bucket s3 flags pool now :
  tables_inv (fst (NewGoofys bucket s3 flags pool now))
             (snd (NewGoofys bucket s3 flags pool now)).
Proof.
  split; [split; [|split]|split; [|split]]; simpl.
  - unfold RootInodeID. lia.
  - intros id a [<- <-]%lookup_singleton_Some. unfold RootInodeID, rootAddr. lia.
  - intros key a. by rewrite lookup_empty.
  - unfold RootInodeID. lia.
  - intros id a [<- <-]%lookup_singleton_Some. eexists.
    split; [apply lookup_singleton_eq|done].
  - intros key a. by rewrite lookup_empty.
Qed.

(** A new inode, numbered with the next identifier and put at the next
    address, joins the identifier index (and, with [cached], the name
    index). *)
Lemma tables_inv_register fs h inode (cached : bool) :
  tables_inv fs h ->
  nextInodeID fs + 1 < 2 ^ 64 ->
  Id inode = nextInodeID fs ->
  let a := nextAddr h in
  let h1 := mkHeap (<[a := inode]> (inodeObjs h)) (dirObjs h) (fileObjs h)
                   (Pos.succ a) in
  let fs1 := set_nextInodeID fs (wrap_uint64 (nextInodeID fs + 1)) in
  let fs2 := set_inodes fs1 (<[Id inode := a]> (inodes fs1)) in
  let fs3 := if cached
             then set_inodesCache fs2 (<[FullName inode := a]> (inodesCache fs2))
             else fs2 in
  tables_inv fs3 h1.
Proof.
  intros ((Hn & Hids & Hcache) & Hroot & Hobj & Hnames) Hmax Hid a h1 fs1 fs2 fs3.
  assert (Hw : wrap_uint64 (nextInodeID fs + 1) = nextInodeID fs + 1)
    by (apply wrap_uint64_small; lia).
  assert (Hi : nextInodeID fs3 = nextInodeID fs + 1)
    by (subst fs3 fs2 fs1; destruct cached; simpl; exact Hw).
  assert (Hin : inodes fs3 = <[Id inode := a]> (inodes fs))
    by (subst fs3 fs2 fs1; destruct cached; reflexivity).
  assert (Hfresh : forall b, (b < nextAddr h)%positive ->
            inodeObjs h1 !! b = inodeObjs h !! b).
  { intros b Hb. subst h1 a. simpl. apply lookup_insert_ne. lia. }
  assert (Hnew : inodeObjs h1 !! a = Some inode)
    by (subst h1; simpl; apply lookup_insert_eq).
  assert (Hca : forall key b, inodesCache fs3 !! key = Some b ->
            (key = FullName inode /\ b = a) \/
            inodesCache fs !! key = Some b).
  { intros key b. subst fs3 fs2 fs1. destruct cached; simpl; [|by right].
    intros [[<- <-]|[_ ?]]%lookup_insert_Some; [by left|by right]. }
  assert (Hold : forall id b, inodes fs !! id = Some b ->
            inodes fs3 !! id = Some b).
  { intros id b Hb. rewrite Hin. rewrite lookup_insert_ne; [done|].
    destruct (Hids _ _ Hb). lia. }
  split; [split; [|split]|split; [|split]].
  - rewrite Hi. lia.
  - intros id b. rewrite Hin, Hi.
    intros [[<- <-]|[Hne Hb]]%lookup_insert_Some.
    + subst h1 a. simpl. rewrite Hid. split; lia.
    + destruct (Hids _ _ Hb). subst h1. simpl. split; lia.
  - intros key b [[-> ->]|Hb]%Hca.
    + split; [subst h1 a; simpl; lia|].
      intros i. rewrite Hnew. intros [= <-]. rewrite Hi. lia.
    + destruct (Hcache _ _ Hb) as [Hlt Hlim].
      split; [subst h1; simpl; lia|].
      intros i. rewrite Hfresh by done. intros Hb'%Hlim. rewrite Hi. lia.
  - rewrite Hi. lia.
  - intros id b. rewrite Hin.
    intros [[<- <-]|[Hne Hb]]%lookup_insert_Some; [eauto|].
    destruct (Hids _ _ Hb). rewrite Hfresh by done. eauto.
  - intros key b [[-> ->]|Hb]%Hca.
    + exists inode. split; [done|]. split; [done|].
      rewrite Hin. apply lookup_insert_eq.
    + destruct (Hcache _ _ Hb) as [Hlt _].
      destruct (Hnames _ _ Hb) as (i & Hi1 & Hi2 & Hi3).
      exists i. rewrite Hfresh by done. eauto.
Qed.

(** Rewriting an inode in place, with its identifier and full name kept. *)
Lemma tables_inv_update fs h a inode inode' :
  tables_inv fs h ->
  inodeObjs h !! a = Some inode ->
  Id inode' = Id inode -> FullName inode' = FullName inode ->
  tables_inv fs (set_inodeObjs h (<[a := inode']> (inodeObjs h))).
Proof.
  intros ((Hn & Hids & Hcache) & Hroot & Hobj & Hnames) Ha Hid Hfn.
  split; [split; [|split]|split; [|split]]; simpl; try done.
  - intros key b Hb. destruct (Hcache _ _ Hb) as [Hlt Hlim].
    split; [done|]. intros i.
    destruct (decide (b = a)) as [->|Hne].
    + rewrite lookup_insert_eq. intros [= <-]. rewrite Hid. eauto.
    + rewrite lookup_insert_ne by done. apply Hlim.
  - intros id b Hb. destruct (Hobj _ _ Hb) as (i & Hi1 & Hi2).
    destruct (decide (b = a)) as [->|Hne].
    + rewrite lookup_insert_eq. exists inode'. split; [done|].
      rewrite Hid. congruence.
    + rewrite lookup_insert_ne by done. eauto.
  - intros key b Hb. destruct (Hnames _ _ Hb) as (i & Hi1 & Hi2 & Hi3).
    destruct (decide (b = a)) as [->|Hne].
    + rewrite lookup_insert_eq. exists inode'. split; [done|].
      assert (i = inode) as -> by congruence.
      rewrite Hid, Hfn. done.
    + rewrite lookup_insert_ne by done. eauto.
Qed.

Lemma tables_inv_LookUpInode fs h parentId name sched tr fs' h' r tr' :
  tables_inv fs h ->
  nextInodeID fs + 1 < 2 ^ 64 ->
  LookUpInode fs h parentId name sched tr = Done (fs', h', r, tr') ->
  tables_inv fs' h'.
Proof.
  intros Hinv Hmax. unfold LookUpInode.
  destruct (getInodeOrDie fs h parentId) as [[pa parent]| | |]; try done.
  destruct (inodesCache fs !! getChildName parent name) as [a|] eqn:Hc.
  - destruct (inodeObjs h !! a) as [inode|] eqn:Ha; [|done].
    intros [= <- <- <- <-].
    destruct Hinv as (Hwf & Hroot & Hobj & Hnames).
    destruct (Hnames _ _ Hc) as (i & Hi1 & Hi2 & Hi3).
    assert (i = inode) as -> by congruence.
    assert (Hsame : set_inodes fs (<[Id inode := a]> (inodes fs)) = fs).
    { rewrite insert_id by done. by destruct fs. }
    rewrite Hsame. eapply tables_inv_update; eauto. done.
  - intros H. apply run_bind_Done in H as ([i e] & tr1 & Hl & H).
    destruct e as [e|]; [by injection H as <- <- <- <-|].
    destruct i as [i|]; [|done].
    injection H as <- <- <- <-.
    apply (tables_inv_register fs h (set_Id i (nextInodeID fs)) true);
      done.
Qed.

Lemma tables_inv_MkDir fs h parentId name tr fs' h' r tr' :
  tables_inv fs h ->
  nextInodeID fs + 1 < 2 ^ 64 ->
  MkDir fs h parentId name tr = Done (fs', h', r, tr') ->
  tables_inv fs' h'.
Proof.
  intros Hinv Hmax. unfold MkDir.
  destruct (getInodeOrDie fs h parentId) as [[pa parent]| | |]; try done.
  intros H. apply run_bind_Done in H as ([i e] & tr1 & Hl & H).
  destruct e as [e|]; [by injection H as <- <- <- <-|].
  destruct i as [i|]; [|done].
  injection H as <- <- <- <-.
  apply (tables_inv_register fs h (set_Id i (nextInodeID fs)) false); done.
Qed.

Lemma tables_inv_alloc_file fs h fh :
  tables_inv fs h -> tables_inv fs (snd (alloc_file h fh)).
Proof.
  intros ((Hn & Hids & Hcache) & Hroot & Hobj & Hnames).
  split; [split; [|split]|split; [|split]]; simpl; try done.
  - intros id a Ha. destruct (Hids _ _ Ha). split; [done|lia].
  - intros key a Ha. destruct (Hcache _ _ Ha). split; [lia|done].
Qed.

Lemma tables_inv_handles fs h n m :
  tables_inv fs h ->
  tables_inv (set_fileHandles (set_nextHandleID fs n) m) h.
Proof. intros H. exact H. Qed.

Lemma tables_inv_CreateFile fs h parentId name now fs' h' r :
  tables_inv fs h ->
  nextInodeID fs + 1 < 2 ^ 64 ->
  CreateFile fs h parentId name now = Done (fs', h', r) ->
  tables_inv fs' h'.
Proof.
  intros Hinv Hmax. unfold CreateFile.
  destruct (getInodeOrDie fs h parentId) as [[pa parent]| | |]; try done.
  intros [= <- <- <-].
  pose proof (tables_inv_register fs h
    (set_Id (fst (Inode_Create fs parent name now (nextAddr h)))
            (nextInodeID fs)) true Hinv Hmax eq_refl) as H.
  apply (tables_inv_alloc_file _ _
           (snd (Inode_Create fs parent name now (nextAddr h)))) in H.
  exact H.
Qed.

Lemma tables_inv_ForgetInode fs h id n fs' h' :
  tables_inv fs h ->
  ForgetInode fs h id n = Done (fs', h') ->
  tables_inv fs' h'.
Proof.
  intros Hinv. unfold ForgetInode, getInodeOrDie.
  destruct (inodes fs !! id) as [a|] eqn:Hid; [|done].
  destruct (inodeObjs h !! a) as [inode|] eqn:Ha; [|done].
  unfold DeRef. destruct (refcnt inode <? n); [done|]. simpl.
  pose proof (tables_inv_update fs h a inode
                (set_refcnt inode (refcnt inode - n)) Hinv Ha eq_refl eq_refl)
    as Hup.
  destruct (refcnt inode - n =? 0); intros [= <- <-]; [|done].
  destruct Hinv as (_ & _ & Hobj0 & Hnames0).
  destruct Hup as ((Hn & Hids & Hcache) & Hroot & Hobj & Hnames).
  split; [split; [|split]|split; [|split]]; simpl in *; try done.
  - intros k b [_ Hb]%lookup_delete_Some. eauto.
  - intros key b [_ Hb]%lookup_delete_Some. eauto.
  - intros k b [_ Hb]%lookup_delete_Some. eauto.
  - intros key b [Hne Hb]%lookup_delete_Some.
    destruct (Hnames _ _ Hb) as (i & Hi1 & Hi2 & Hi3).
    exists i. split; [done|]. split; [done|].
    rewrite lookup_delete_ne; [done|]. intros Heq.
    rewrite <- Heq in Hi3. assert (b = a) as -> by congruence.
    rewrite lookup_insert_eq in Hi1. injection Hi1 as <-. simpl in Hi2.
    by apply Hne.
Qed.

Lemma getChildName_Ref parent name :
  getChildName (Ref parent) name = getChildName parent name.
Proof. reflexivity. Qed.

(** The answer of [LookUpInode] when the name index holds the name. *)
Lemma LookUpInode_hit fs h parentId name sched tr pa parent a inode :
  getInodeOrDie fs h parentId = Done (pa, parent) ->
  inodesCache fs !! getChildName parent name = Some a ->
  inodeObjs h !! a = Some inode ->
  LookUpInode fs h parentId name sched tr =
    Done (set_inodes fs (<[Id inode := a]> (inodes fs)),
          set_inodeObjs h (<[a := Ref inode]> (inodeObjs h)),
          inr {| Child := Id inode; EntryAttributes := attrs_of fs inode |},
          tr).
Proof.
  intros Hp Hc Ha. unfold LookUpInode. by rewrite Hp, Hc, Ha.
Qed.

(** The answer of [LookUpInode] when it does not: the inode that
    [Inode.LookUp] found is numbered and filed under both indices. *)
Lemma LookUpInode_miss fs h parentId name sched tr pa parent fs1 h1 e tr1 :
  getInodeOrDie fs h parentId = Done (pa, parent) ->
  inodesCache fs !! getChildName parent name = None ->
  LookUpInode fs h parentId name sched tr = Done (fs1, h1, inr e, tr1) ->
  exists inode,
    Inode_LookUp fs h parent name sched tr = Done (Some inode, None, tr1) /\
    Child e = nextInodeID fs /\
    inodeObjs h1 = <[nextAddr h := set_Id inode (nextInodeID fs)]> (inodeObjs h) /\
    dirObjs h1 = dirObjs h /\
    nextAddr h1 = Pos.succ (nextAddr h) /\
    inodes fs1 = <[nextInodeID fs := nextAddr h]> (inodes fs) /\
    inodesCache fs1 =
      <[getChildName parent name := nextAddr h]> (inodesCache fs) /\
    nextInodeID fs1 = wrap_uint64 (nextInodeID fs + 1).
Proof.
  intros Hp Hc. unfold LookUpInode. rewrite Hp, Hc. intros H.
  apply run_bind_Done in H as ([i err] & tr2 & Hl & H).
  destruct err as [err|]; [done|]. destruct i as [i|]; [|done].
  injection H as <- <- <- <-. exists i.
  destruct (Inode_LookUp_new _ _ _ _ _ _ _ _ Hl) as (_ & Hfn & _).
  simpl. rewrite Hfn. done.
Qed.

Lemma getInodeOrDie_Done fs h id a inode :
  getInodeOrDie fs h id = Done (a, inode) <->
  inodes fs !! id = Some a /\ inodeObjs h !! a = Some inode.
Proof.
  unfold getInodeOrDie. split.
  - destruct (inodes fs !! id) as [b|]; [|done].
    destruct (inodeObjs h !! b) as [i|] eqn:Hb; [|done].
    by intros [= <- <-].
  - by intros [-> ->].
Qed.

(** [CreateFile] files the new inode under its name, so the lookup of that
    name that follows is answered from the tables: it issues no request and
    gives the identifier and the attributes that [CreateFile] gave; the
    inode then holds two references. *)
Theorem CreateFile_then_LookUpInode_same_id (fs : Goofys) (h : Heap)
    (parentId : Z) (name : string) (now : Z) (sched : Schedule)
    (tr : list Request) fs1 h1 e1 handle :
  tables_wf fs h ->
  CreateFile fs h parentId name now = Done (fs1, h1, (e1, handle)) ->
  exists fs2 h2 e2 inode,
    LookUpInode fs1 h1 parentId name sched tr = Done (fs2, h2, inr e2, tr) /\
    Child e2 = Child e1 /\ EntryAttributes e2 = EntryAttributes e1 /\
    getInodeOrDie fs2 h2 (Child e1) = Done (nextAddr h, inode) /\
    refcnt inode = 2.
Proof.
  intros (Hn & Hids & Hcache) Hc. unfold CreateFile in Hc.
  destruct (getInodeOrDie fs h parentId) as [[pa parent]| | |] eqn:Hp;
    try done.
  apply getInodeOrDie_Done in Hp as [Hp1 Hp2].
  destruct (Hids _ _ Hp1) as [Hlt Halt].
  injection Hc as <- <- <- <-.
  set (inode := set_Id (fst (Inode_Create fs parent name now (nextAddr h)))
                       (nextInodeID fs)).
  do 3 eexists. exists (Ref inode). split; [|split; [|split; [|split]]].
  - eapply (LookUpInode_hit _ _ _ _ _ _ pa parent (nextAddr h) inode).
    + apply getInodeOrDie_Done. simpl. split.
      * rewrite lookup_insert_ne by lia. done.
      * rewrite lookup_insert_ne by lia. done.
    + simpl. apply lookup_insert_eq.
    + simpl. apply lookup_insert_eq.
  - reflexivity.
  - reflexivity.
  - apply getInodeOrDie_Done. simpl. split.
    + rewrite insert_insert_eq. apply lookup_insert_eq.
    + apply lookup_insert_eq.
  - reflexivity.
Qed.

(** On a fresh mount: [f] is created with identifier 2, and the lookup of
    [f] answers 2 without a request, although the store would not find it. *)
Lemma CreateFile_then_LookUpInode_same_id_witness :
  let m := canned_mount (inl (RequestFailure 404))
             (inl (RequestFailure 404)) 8 in
  exists fs1 h1 e1 handle,
    CreateFile (fst m) (snd m) RootInodeID "f" 7 =
      Done (fs1, h1, (e1, handle)) /\
    exists fs2 h2 e2 inode,
      LookUpInode fs1 h1 RootInodeID "f" HeadFirst [] =
        Done (fs2, h2, inr e2, []) /\
      Child e2 = Child e1 /\ EntryAttributes e2 = EntryAttributes e1 /\
      getInodeOrDie fs2 h2 (Child e1) = Done (nextAddr (snd m), inode) /\
      refcnt inode = 2.
Proof.
  intros m. do 4 eexists. split; [by_computation|].
  eapply (CreateFile_then_LookUpInode_same_id (fst m) (snd m) RootInodeID "f"
           7 HeadFirst []); [apply canned_tables_wf|by_computation].
Defined.

(** Two lookups of one name in a row: the second is answered from the
    tables, with the identifier of the first, without a request, and it
    takes one more reference on the same inode. *)
Theorem LookUpInode_twice_same_id (fs : Goofys) (h : Heap) (parentId : Z)
    (name : string) (sched sched' : Schedule) (tr : list Request)
    fs1 h1 e1 tr1 :
  tables_inv fs h ->
  nextInodeID fs + 1 < 2 ^ 64 ->
  LookUpInode fs h parentId name sched tr = Done (fs1, h1, inr e1, tr1) ->
  exists fs2 h2 e2 a i1 i2,
    LookUpInode fs1 h1 parentId name sched' tr1 =
      Done (fs2, h2, inr e2, tr1) /\
    Child e2 = Child e1 /\
    getInodeOrDie fs1 h1 (Child e1) = Done (a, i1) /\
    getInodeOrDie fs2 h2 (Child e1) = Done (a, i2) /\
    refcnt i2 = wrap_uint64 (refcnt i1 + 1).
Proof.
  intros Hinv Hmax Hl.
  pose proof Hinv as ((Hn & Hids & Hcache) & Hroot & Hobj & Hnames).
  destruct (getInodeOrDie fs h parentId) as [[pa parent]| | |] eqn:Hp;
    try (unfold LookUpInode in Hl; rewrite Hp in Hl; done).
  pose proof Hp as [Hp1 Hp2]%getInodeOrDie_Done.
  destruct (Hids _ _ Hp1) as [Hplt Hpalt].
  destruct (inodesCache fs !! getChildName parent name) as [a|] eqn:Hc.
  - destruct (Hnames _ _ Hc) as (inode & Ha & Hfn & Hia).
    rewrite (LookUpInode_hit _ _ _ _ _ _ _ _ _ _ Hp Hc Ha) in Hl.
    injection Hl as <- <- <- <-.
    rewrite insert_id by done.
    assert (Hfs : set_inodes fs (inodes fs) = fs) by (by destruct fs).
    rewrite Hfs.
    set (h1 := set_inodeObjs h (<[a := Ref inode]> (inodeObjs h))).
    assert (Ha1 : inodeObjs h1 !! a = Some (Ref inode))
      by apply lookup_insert_eq.
    assert (exists parent', getInodeOrDie fs h1 parentId = Done (pa, parent') /\
              getChildName parent' name = getChildName parent name)
      as (parent' & Hp' & Hcn).
    { destruct (decide (pa = a)) as [->|Hne].
      - exists (Ref inode). split; [by apply getInodeOrDie_Done|].
        assert (parent = inode) as -> by congruence. done.
      - exists parent. split; [|done]. apply getInodeOrDie_Done.
        split; [done|]. subst h1. simpl. by rewrite lookup_insert_ne. }
    rewrite <- Hcn in Hc.
    rewrite (LookUpInode_hit _ _ _ _ sched' tr _ _ _ _ Hp' Hc Ha1).
    rewrite insert_id by done. rewrite Hfs.
    do 3 eexists. exists a, (Ref inode), (Ref (Ref inode)).
    split; [done|]. split; [done|]. split; [by apply getInodeOrDie_Done|].
    split; [|done]. apply getInodeOrDie_Done. split; [done|].
    apply lookup_insert_eq.
  - destruct (LookUpInode_miss _ _ _ _ _ _ _ _ _ _ _ _ Hp Hc Hl)
      as (inode & Hil & Hch & Hh1 & _ & _ & Hin & Hca & _).
    set (new := set_Id inode (nextInodeID fs)) in *.
    assert (Hp' : getInodeOrDie fs1 h1 parentId = Done (pa, parent)).
    { apply getInodeOrDie_Done. rewrite Hin, Hh1.
      rewrite !lookup_insert_ne by lia. done. }
    assert (Hc' : inodesCache fs1 !! getChildName parent name =
                    Some (nextAddr h))
      by (rewrite Hca; apply lookup_insert_eq).
    assert (Ha1 : inodeObjs h1 !! nextAddr h = Some new)
      by (rewrite Hh1; apply lookup_insert_eq).
    rewrite (LookUpInode_hit _ _ _ _ sched' tr1 _ _ _ _ Hp' Hc' Ha1).
    do 3 eexists. exists (nextAddr h), new, (Ref new).
    split; [done|]. split; [by rewrite Hch|]. rewrite Hch.
    split; [|split; [|done]].
    + apply getInodeOrDie_Done. split; [|done]. rewrite Hin.
      apply lookup_insert_eq.
    + apply getInodeOrDie_Done. simpl. split; apply lookup_insert_eq.
Qed.

Lemma LookUpInode_twice_same_id_witness :
  let m := canned_mount (inr (mkHeadObjectOutput 5 0))
             (inl (RequestFailure 404)) 8 in
  exists fs1 h1 e1 tr1,
    LookUpInode (fst m) (snd m) RootInodeID "f" HeadFirst [] =
      Done (fs1, h1, inr e1, tr1) /\
    exists fs2 h2 e2 a i1 i2,
      LookUpInode fs1 h1 RootInodeID "f" ListFirst tr1 =
        Done (fs2, h2, inr e2, tr1) /\
      Child e2 = Child e1 /\
      getInodeOrDie fs1 h1 (Child e1) = Done (a, i1) /\
      getInodeOrDie fs2 h2 (Child e1) = Done (a, i2) /\
      refcnt i2 = wrap_uint64 (refcnt i1 + 1).
Proof.
  intros m. do 4 eexists. split; [by_computation|].
  apply (LookUpInode_twice_same_id (fst m) (snd m) RootInodeID "f" HeadFirst
           ListFirst []);
    [apply tables_inv_NewGoofys|vm_compute; done|by_computation].
Defined.

(** A lookup that had to ask the store, undone: forgetting as many
    references as the new inode holds (one, or two when a directory handle
    supplied it) takes it out of both indices, which are then as they
    were. *)
Theorem LookUpInode_then_ForgetInode_restores (fs : Goofys) (h : Heap)
    (parentId : Z) (name : string) (sched : Schedule) (tr : list Request)
    pa parent fs1 h1 e tr1 :
  tables_inv fs h ->
  getInodeOrDie fs h parentId = Done (pa, parent) ->
  inodesCache fs !! getChildName parent name = None ->
  LookUpInode fs h parentId name sched tr = Done (fs1, h1, inr e, tr1) ->
  exists inode fs2 h2,
    getInodeOrDie fs1 h1 (Child e) = Done (nextAddr h, inode) /\
    (refcnt inode = 1 \/ refcnt inode = 2) /\
    ForgetInode fs1 h1 (Child e) (refcnt inode) = Done (fs2, h2) /\
    inodes fs2 = inodes fs /\ inodesCache fs2 = inodesCache fs.
Proof.
  intros ((Hn & Hids & Hcache) & Hroot & Hobj & Hnames) Hp Hc Hl.
  destruct (LookUpInode_miss _ _ _ _ _ _ _ _ _ _ _ _ Hp Hc Hl)
    as (inode & Hil & Hch & Hh1 & _ & _ & Hin & Hca & _).
  destruct (Inode_LookUp_new _ _ _ _ _ _ _ _ Hil) as (_ & Hfn & _ & _ & Hrc).
  set (new := set_Id inode (nextInodeID fs)) in *.
  assert (Hg : getInodeOrDie fs1 h1 (Child e) = Done (nextAddr h, new)).
  { apply getInodeOrDie_Done. rewrite Hch, Hin, Hh1.
    split; apply lookup_insert_eq. }
  assert (Hfree : inodes fs !! nextInodeID fs = None).
  { destruct (inodes fs !! nextInodeID fs) as [b|] eqn:Hb; [|done].
    destruct (Hids _ _ Hb). lia. }
  exists new. unfold ForgetInode. rewrite Hg. unfold DeRef.
  rewrite Z.ltb_irrefl. simpl. rewrite Z.sub_diag. simpl.
  do 2 eexists. split; [done|]. split; [done|]. split; [done|]. simpl.
  rewrite Hch, Hin, Hca, Hfn. split.
  - rewrite delete_insert_eq. by apply delete_id.
  - rewrite delete_insert_eq. by apply delete_id.
Qed.

Lemma LookUpInode_then_ForgetInode_restores_witness :
  let m := canned_mount (inr (mkHeadObjectOutput 5 0))
             (inl (RequestFailure 404)) 8 in
  exists fs1 h1 e tr1,
    LookUpInode (fst m) (snd m) RootInodeID "f" HeadFirst [] =
      Done (fs1, h1, inr e, tr1) /\
    exists inode fs2 h2,
      getInodeOrDie fs1 h1 (Child e) = Done (nextAddr (snd m), inode) /\
      (refcnt inode = 1 \/ refcnt inode = 2) /\
      ForgetInode fs1 h1 (Child e) (refcnt inode) = Done (fs2, h2) /\
      inodes fs2 = inodes (fst m) /\ inodesCache fs2 = inodesCache (fst m).
Proof.
  intros m. do 4 eexists. split; [by_computation|].
  eapply (LookUpInode_then_ForgetInode_restores (fst m) (snd m) RootInodeID
           "f" HeadFirst [] rootAddr root_inode);
    [apply tables_inv_NewGoofys|reflexivity|reflexivity|by_computation].
Defined.

(** The invariants that [goofys.go] states for the identifier index (every
    key lies between the root's identifier and the next one, and the inode
    filed under [k] carries the identifier [k]), together with the
    consistency of the name index, hold on a fresh mount and are kept by
    every operation that writes the tables, as long as the identifier
    counter does not overflow. *)
Theorem tables_inv_preserved (fs : Goofys) (h : Heap) :
  tables_inv fs h ->
  nextInodeID fs + 1 < 2 ^ 64 ->
  (forall parentId name sched tr fs' h' r tr',
     LookUpInode fs h parentId name sched tr = Done (fs', h', r, tr') ->
     tables_inv fs' h') /\
  (forall parentId name tr fs' h' r tr',
     MkDir fs h parentId name tr = Done (fs', h', r, tr') ->
     tables_inv fs' h') /\
  (forall parentId name now fs' h' r,
     CreateFile fs h parentId name now = Done (fs', h', r) ->
     tables_inv fs' h') /\
  (forall id n fs' h',
     ForgetInode fs h id n = Done (fs', h') -> tables_inv fs' h').
Proof.
  intros Hinv Hmax. split; [|split; [|split]]; intros *.
  - by apply tables_inv_LookUpInode.
  - by apply tables_inv_MkDir.
  - by apply tables_inv_CreateFile.
  - by apply tables_inv_ForgetInode.
Qed.

(** A fresh mount, and the directory made on it. *)
Lemma tables_inv_preserved_witness :
  let m := canned_mount (inl (RequestFailure 404))
             (inl (RequestFailure 404)) 8 in
  tables_inv (fst m) (snd m) /\
  exists fs' h' r tr',
    MkDir (fst m) (snd m) RootInodeID "d" [] = Done (fs', h', r, tr') /\
    tables_inv fs' h'.
Proof.
  intros m. split; [apply tables_inv_NewGoofys|].
  destruct (tables_inv_preserved (fst m) (snd m)) as (_ & Hmk & _);
    [apply tables_inv_NewGoofys|vm_compute; done|].
  do 4 eexists. split; [by_computation|].
  eapply (Hmk RootInodeID "d" []). by_computation.
Defined.

(** ** Removing entries *)



(** [RmDir] returns, and it deletes at most the marker of the directory:
    after the emptiness probe it issues either nothing, and then reports an
    error (not-found when the listing is empty), or the one [DeleteObject]
    for the marker key, and that only when the listing showed the marker
    and nothing else. *)
Theorem RmDir_deletes_only_the_marker (fs : Goofys) (parent : Inode)
    (name : string) (tr : list Request) :
  let p := getChildName parent name in
  let probe := isEmptyDir_request p in
  let del := RDeleteObject (p +:+ "/") in
  exists err tr',
    Inode_RmDir fs parent name tr = Done (err, tr') /\
    ((tr' = tr ++ [probe] /\ (exists e, err = Some e) /\
      (forall resp,
         s3ListObjects (s3 fs) tr probe = inr resp ->
         CommonPrefixes resp = [] -> Contents resp = [] ->
         err = Some ENOENT))
     \/
     (tr' = tr ++ [probe; del] /\
      err = option_map mapAwsError
              (s3DeleteObject (s3 fs) (tr ++ [probe]) del) /\
      exists resp obj,
        s3ListObjects (s3 fs) tr probe = inr resp /\
        CommonPrefixes resp = [] /\ Contents resp = [obj] /\
        Key obj = p +:+ "/")).
Proof.
  intros p probe del. unfold Inode_RmDir, isEmptyDir.
  fold p. unfold mbind, run_mbind, run_bind, call. cbn beta iota.
  change (RListObjects (p +:+ "/") "/" None (Some 2)) with probe.
  destruct (s3ListObjects (s3 fs) tr probe) as [e|resp] eqn:Hl.
  { do 2 eexists. split; [reflexivity|]. left.
    split; [done|]. split; [eauto|]. intros resp [=]. }
  destruct (CommonPrefixes resp) as [|c cs] eqn:Hcp; simpl.
  2:{ do 2 eexists. split; [reflexivity|]. left.
      split; [done|]. split; [eauto|]. intros resp' [= <-] Hcp'. congruence. }
  destruct (Contents resp) as [|o [|o' os]] eqn:Hco; simpl.
  - do 2 eexists. split; [reflexivity|]. left.
    split; [done|]. split; [eauto|]. done.
  - destruct (String.eqb (Key o) (p +:+ "/")) eqn:Hk; simpl.
    + apply String.eqb_eq in Hk.
      do 2 eexists. split; [reflexivity|]. right.
      rewrite <- app_assoc. split; [done|]. split; [done|].
      exists resp, o. done.
    + do 2 eexists. split; [reflexivity|]. left.
      split; [done|]. split; [eauto|]. intros resp' [= <-] _ Hco'. congruence.
  - do 2 eexists. split; [reflexivity|]. left.
    split; [done|]. split; [eauto|]. intros resp' [= <-] _ Hco'. congruence.
Qed.

(** ** Opening and releasing handles *)

Lemma filter_ne_fresh (b : positive) (hs : list positive) :
  b ∉ hs -> filter (λ c, c ≠ b) hs = hs.
Proof.
  induction hs as [|c hs IH]; [done|].
  intros [Hne Hnin]%not_elem_of_cons.
  rewrite filter_cons_True by done. by rewrite IH.
Qed.

(** Opening a directory and releasing the handle again: while the handle is
    open the inode's handle set holds it; after the release the handle table
    and the inode are as they were, and only the handle counter has moved
    on. *)
Theorem OpenDir_ReleaseDirHandle_round_trip (fs : Goofys) (h : Heap) (id : Z)
    (a : positive) (inode : Inode) :
  getInodeOrDie fs h id = Done (a, inode) ->
  nextAddr h ∉ handles inode ->
  dirHandles fs !! nextHandleID fs = None ->
  exists fs1 h1 inode1 fs2 h2,
    Goofys_OpenDir fs h id = Done (fs1, h1, nextHandleID fs) /\
    dirHandles fs1 !! nextHandleID fs = Some (nextAddr h) /\
    dirObjs h1 !! nextAddr h = Some (NewDirHandle a) /\
    inodeObjs h1 !! a = Some inode1 /\
    handles inode1 = nextAddr h :: handles inode /\
    ReleaseDirHandle fs1 h1 (nextHandleID fs) = Done (fs2, h2) /\
    dirHandles fs2 = dirHandles fs /\
    inodeObjs h2 = inodeObjs h /\
    inodes fs2 = inodes fs /\ inodesCache fs2 = inodesCache fs /\
    nextHandleID fs2 = wrap_uint64 (nextHandleID fs + 1).
Proof.
  intros Hg Hfresh Hfree.
  pose proof Hg as [Hg1 Hg2]%getInodeOrDie_Done.
  unfold Goofys_OpenDir.
  change (getInodeOrDie (set_nextHandleID fs _) h id)
    with (getInodeOrDie fs h id).
  rewrite Hg. simpl.
  do 5 eexists. split; [reflexivity|]. simpl.
  split; [apply lookup_insert_eq|].
  split; [apply lookup_insert_eq|].
  split; [apply lookup_insert_eq|].
  split; [reflexivity|].
  unfold ReleaseDirHandle. simpl.
  repeat (rewrite lookup_insert_eq; simpl).
  split; [reflexivity|]. simpl.
  split; [rewrite delete_insert_eq; by apply delete_id|].
  split; [|done].
  rewrite insert_insert_eq. unfold CloseDir.
  change (handles (set_handles inode (nextAddr h :: handles inode)))
    with (nextAddr h :: handles inode).
  rewrite filter_cons_False by (intros Hne; by apply Hne).
  rewrite filter_ne_fresh by done.
  replace (set_handles _ (handles inode)) with inode by (by destruct inode).
  by apply insert_id.
Qed.

Lemma OpenDir_ReleaseDirHandle_round_trip_witness :
  let m := canned_mount (inl (RequestFailure 404))
             (inl (RequestFailure 404)) 8 in
  exists fs1 h1 inode1 fs2 h2,
    Goofys_OpenDir (fst m) (snd m) RootInodeID =
      Done (fs1, h1, nextHandleID (fst m)) /\
    dirHandles fs1 !! nextHandleID (fst m) = Some (nextAddr (snd m)) /\
    dirObjs h1 !! nextAddr (snd m) = Some (NewDirHandle rootAddr) /\
    inodeObjs h1 !! rootAddr = Some inode1 /\
    handles inode1 = nextAddr (snd m) :: handles root_inode /\
    ReleaseDirHandle fs1 h1 (nextHandleID (fst m)) = Done (fs2, h2) /\
    dirHandles fs2 = dirHandles (fst m) /\
    inodeObjs h2 = inodeObjs (snd m) /\
    inodes fs2 = inodes (fst m) /\ inodesCache fs2 = inodesCache (fst m) /\
    nextHandleID fs2 = wrap_uint64 (nextHandleID (fst m) + 1).
Proof.
  intros m.
  apply (OpenDir_ReleaseDirHandle_round_trip (fst m) (snd m) RootInodeID
           rootAddr root_inode);
    [reflexivity|simpl; apply not_elem_of_nil|reflexivity].
Defined.

(** ** Lookups answered by a directory handle *)

Lemma lookupFromDirHandles_range_hit h parent name hs :
  Forall (λ a, is_Some (dirObjs h !! a)) hs ->
  (exists a dh, a ∈ hs /\ dirObjs h !! a = Some dh /\
                is_Some (NameToEntry dh !! name)) ->
  exists inode, lookupFromDirHandles_range h parent name hs = Done (Some inode).
Proof.
  induction hs as [|b hs IH]; intros Hall (a & dh & Hin & Ha & Hn).
  { by apply elem_of_nil in Hin. }
  apply Forall_cons in Hall as [[dhb Hb] Hall]. simpl. rewrite Hb.
  destruct (NameToEntry dhb !! name) as [attr|] eqn:Hnb; [eauto|].
  apply IH; [done|]. apply elem_of_cons in Hin as [->|Hin].
  - rewrite Hb in Ha. injection Ha as <-. rewrite Hnb in Hn.
    by destruct Hn.
  - eauto.
Qed.

Lemma ReadDir_prefixes_names fs prefix es names dirs es' names' :
  ReadDir_prefixes fs prefix es names dirs = Done (es', names') ->
  (forall e, e ∈ es -> is_Some (names !! d_Name e)) ->
  (forall e, e ∈ es' -> is_Some (names' !! d_Name e)) /\
  (forall n, is_Some (names !! n) -> is_Some (names' !! n)).
Proof.
  revert es names. induction dirs as [|dir dirs IH]; intros es names; simpl.
  - intros [= <- <-]. done.
  - destruct (slice_drop_last dir) as [d1|]; [|done].
    destruct (slice_from d1 _) as [d2|]; [|done].
    intros H Hes. apply IH in H as [H1 H2].
    + split; [done|]. intros n Hn. apply H2.
      destruct (decide (d2 = n)) as [->|Hne].
      * rewrite lookup_insert_eq. eauto.
      * by rewrite lookup_insert_ne.
    + intros e [He|He]%elem_of_app.
      * destruct (decide (d2 = d_Name e)) as [->|Hne].
        -- rewrite lookup_insert_eq. eauto.
        -- rewrite lookup_insert_ne by done. by apply Hes.
      * apply list_elem_of_singleton in He as ->. simpl.
        rewrite lookup_insert_eq. eauto.
Qed.

Lemma ReadDir_contents_names fs prefix es names objs es' names' :
  ReadDir_contents fs prefix es names objs = Done (es', names') ->
  (forall e, e ∈ es -> is_Some (names !! d_Name e)) ->
  (forall e, e ∈ es' -> is_Some (names' !! d_Name e)) /\
  (forall n, is_Some (names !! n) -> is_Some (names' !! n)).
Proof.
  revert es names. induction objs as [|obj objs IH]; intros es names; simpl.
  - intros [= <- <-]. done.
  - destruct (slice_from (Key obj) _) as [base|]; [|done].
    destruct (String.length base =? 0)%nat; [apply IH|].
    intros H Hes. apply IH in H as [H1 H2].
    + split; [done|]. intros n Hn. apply H2.
      destruct (decide (base = n)) as [->|Hne].
      * rewrite lookup_insert_eq. eauto.
      * by rewrite lookup_insert_ne.
    + intros e [He|He]%elem_of_app.
      * destruct (decide (base = d_Name e)) as [->|Hne].
        -- rewrite lookup_insert_eq. eauto.
        -- rewrite lookup_insert_ne by done. by apply Hes.
      * apply list_elem_of_singleton in He as ->. simpl.
        rewrite lookup_insert_eq. eauto.
Qed.

(** Every entry of a listed page has its attributes recorded under its
    name, and what the handle had recorded before stays. *)
Lemma ReadDir_list_names fs inode dh dh' tr tr' :
  ReadDir_list fs inode dh tr = Done (dh', None, tr') ->
  (forall es e, Entries dh' = Some es -> e ∈ es ->
     is_Some (NameToEntry dh' !! d_Name e)) /\
  (forall n, is_Some (NameToEntry dh !! n) -> is_Some (NameToEntry dh' !! n)).
Proof.
  unfold ReadDir_list. intros H.
  apply run_bind_Done in H as (resp & tr1 & _ & H).
  destruct resp as [err|resp]; [discriminate|].
  apply run_bind_Done in H as ([es1 n1] & tr2 & H1 & H).
  apply lift_Done in H1 as ([es1' n1'] & H1 & [= <- <- <-]).
  apply run_bind_Done in H as ([es2 n2] & tr3 & H2 & H).
  apply lift_Done in H2 as ([es2' n2'] & H2 & [= <- <- <-]).
  injection H as <- <-. simpl.
  apply ReadDir_prefixes_names in H1 as [H1a H1b];
    [|by intros e ?%elem_of_nil].
  apply ReadDir_contents_names in H2 as [H2a H2b]; [|done].
  split; [|by intros n ?%H1b%H2b].
  intros es e [= <-] (e0 & o & H0 & ->)%fix_offsets_elem. simpl.
  unfold sortDirents in H0. rewrite merge_sort_Permutation in H0.
  by apply H2a.
Qed.

(** A name that an open handle of the directory has listed is looked up
    without asking the store: once a page is listed, [Inode.LookUp] of any
    entry of the page issues no request and answers with a new inode of the
    child's full name that holds two references. *)
Theorem ReadDir_page_answers_LookUp (fs : Goofys) (h : Heap)
    (parent : Inode) (dh dh' : DirHandle) (a : positive)
    (es : list Dirent) (e : Dirent) (sched : Schedule)
    (tr tr' tr2 : list Request) :
  ReadDir_list fs parent dh tr = Done (dh', None, tr') ->
  Entries dh' = Some es -> e ∈ es ->
  Forall (λ b, is_Some (dirObjs h !! b)) (handles parent) ->
  a ∈ handles parent -> dirObjs h !! a = Some dh' ->
  exists inode,
    Inode_LookUp fs h parent (d_Name e) sched tr2 =
      Done (Some inode, None, tr2) /\
    Name inode = d_Name e /\
    FullName inode = getChildName parent (d_Name e) /\
    refcnt inode = 2.
Proof.
  intros Hl Hes He Hall Ha Hdh.
  apply ReadDir_list_names in Hl as [Hl _].
  destruct (lookupFromDirHandles_range_hit h parent (d_Name e)
              (handles parent) Hall) as [inode Hr].
  { exists a, dh'. eauto. }
  pose proof Hr as (b & dhb & attr & _ & _ & _ & ->)%lookupFromDirHandles_range_new.
  eexists. unfold Inode_LookUp, lookupFromDirHandles. rewrite Hr.
  split; [reflexivity|]. done.
Qed.

(** The handle has listed [d/a] and [d/b]; the lookup of [a] under [d] is
    answered from it. *)
Lemma ReadDir_page_answers_LookUp_witness :
  let m := canned_mount (inl (RequestFailure 404))
             (inr (mkListObjectsOutput []
                     [mkObject "d/a" 1 0; mkObject "d/b" 2 0] false None)) 8 in
  let d := mkInode 2 "d" "d" RootAttrs [5%positive] 1 in
  match ReadDir_list (fst m) d (NewDirHandle 2%positive) [] with
  | Done (dh', None, _) =>
      exists inode,
        Inode_LookUp (fst m) (mkHeap ∅ {[ 5%positive := dh' ]} ∅ 6%positive)
                     d "a" HeadFirst [] = Done (Some inode, None, []) /\
        Name inode = "a" /\ FullName inode = "d/a" /\ refcnt inode = 2
  | _ => False
  end.
Proof.
  intros m d.
  destruct (ReadDir_list (fst m) d (NewDirHandle 2%positive) [])
    as [[[dh' [err|]] tr']| | |] eqn:Hl;
    try (vm_compute in Hl; discriminate Hl).
  pose proof Hl as Hv. vm_compute in Hv. injection Hv as <- <-.
  eapply (ReadDir_page_answers_LookUp (fst m) _ d (NewDirHandle 2%positive)
            _ 5%positive _ (mkDirent 3 2 "a" DT_File) HeadFirst [] _ [] Hl).
  - reflexivity.
  - left.
  - constructor; [|constructor]. eexists. apply lookup_singleton_eq.
  - left.
  - apply lookup_singleton_eq.
Defined.

(** ** Multipart copy *)


Lemma completed_parts_numbers (es : list (option string)) i n ps :
  completed_parts es i n = Some ps ->
  cp_PartNumber <$> ps = seqZ (Z.of_nat i + 1) (Z.of_nat n) /\
  forall k p, ps !! k = Some p -> es !! (i + k)%nat = Some (cp_ETag p).
Proof.
  revert i ps. induction n as [|n IH]; intros i ps; simpl.
  - intros [= <-]. done.
  - destruct (es !! i) as [etag|] eqn:He; [|done].
    destruct (completed_parts es (S i) n) as [ps'|] eqn:Hps; [|done].
    intros [= <-]. apply IH in Hps as [Hnum Hetag]. split.
    + rewrite fmap_cons. simpl. rewrite seqZ_cons by lia. f_equal.
      rewrite Hnum. f_equal; lia.
    + intros [|k] p; simpl.
      * intros [= <-]. simpl. by rewrite Nat.add_0_r.
      * intros Hk%Hetag. by replace (i + S k)%nat with (S i + k)%nat by lia.
Qed.



(** The number of parts of a copy is the size divided by five gibibytes,
    rounded up. *)
Theorem sizeToParts_rounds_up (size : Z) :
  0 <= size < 2 ^ 62 ->
  0 <= sizeToParts size /\
  (sizeToParts size - 1) * PART_SIZE < size <= sizeToParts size * PART_SIZE.
Proof.
  intros H. destruct (decide (size = 0)) as [->|Hne].
  - vm_compute. repeat split; discriminate.
  - destruct (sizeToParts_bounds size) as [H1 H2]; [lia|]. lia.
Qed.

Lemma sizeToParts_rounds_up_witness :
  0 <= sizeToParts (PART_SIZE + 1) /\
  (sizeToParts (PART_SIZE + 1) - 1) * PART_SIZE < PART_SIZE + 1
    <= sizeToParts (PART_SIZE + 1) * PART_SIZE.
Proof. apply sizeToParts_rounds_up. unfold PART_SIZE. lia. Defined.

(** [Rename] returns, whatever the store answers, as long as the sizes
    that HEAD reports are below 2^62: no index leaves its slice, and the
    part loop of a multipart copy ends. *)
Theorem Rename_always_returns (fs : Goofys) (parent : Inode) (from : string)
    (newParent : Inode) (to : string) (tr : list Request) :
  (forall history req resp,
     s3HeadObject (s3 fs) history req = inr resp ->
     ContentLength resp < 2 ^ 62) ->
  exists err tr', Rename fs parent from newParent to tr = Done (err, tr').
Proof.
  intros Hhead.
  destruct (Rename_returns fs parent from newParent to tr Hhead)
    as [[err tr'] H]. eauto.
Qed.

Lemma Rename_always_returns_witness :
  let m := canned_mount (inr (mkHeadObjectOutput (3 * PART_SIZE) 0))
             (inr (mkListObjectsOutput [] [] false None)) 8 in
  exists err tr',
    Rename (fst m) root_inode "a" root_inode "b" [] = Done (err, tr').
Proof.
  intros m. apply Rename_always_returns.
  intros history req resp [= <-]. vm_compute. reflexivity.
Defined.

(** ** Filling the destination of a directory read *)

Lemma ReadDir_prefixes_fuel fs prefix es names dirs :
  ReadDir_prefixes fs prefix es names dirs <> OutOfFuel.
Proof.
  revert es names. induction dirs as [|dir dirs IH]; intros es names; simpl;
    [done|].
  destruct (slice_drop_last dir); [|done].
  destruct (slice_from _ _); [|done]. apply IH.
Qed.

Lemma ReadDir_contents_fuel fs prefix es names objs :
  ReadDir_contents fs prefix es names objs <> OutOfFuel.
Proof.
  revert es names. induction objs as [|obj objs IH]; intros es names; simpl;
    [done|].
  destruct (slice_from _ _); [|done].
  destruct (_ =? _)%nat; apply IH.
Qed.

Lemma ReadDir_list_fuel fs inode dh tr :
  ReadDir_list fs inode dh tr <> OutOfFuel.
Proof.
  unfold ReadDir_list, mbind, run_mbind, run_bind, call, lift.
  destruct (s3ListObjects _ _ _) as [e|resp]; [done|].
  pose proof (ReadDir_prefixes_fuel fs
    (if negb (String.length (FullName inode) =? 0)%nat
     then FullName inode +:+ "/" else FullName inode)
    [] (NameToEntry dh) (CommonPrefixes resp)) as H1.
  destruct (ReadDir_prefixes _ _ _ _ _) as [[es1 n1]| | |]; try done.
  pose proof (ReadDir_contents_fuel fs
    (if negb (String.length (FullName inode) =? 0)%nat
     then FullName inode +:+ "/" else FullName inode)
    es1 n1 (Contents resp)) as H2.
  destruct (ReadDir_contents _ _ _ _ _) as [[es2 n2]| | |]; done.
Qed.

Lemma ReadDir_fuel fs inode dh offset tr :
  ReadDir fs inode dh offset tr <> OutOfFuel.
Proof.
  unfold ReadDir.
  destruct (offset =? 0); [done|]. destruct (offset =? 1); [done|].
  destruct (_ <? 0); [done|].
  destruct (if len_Entries dh <=? _ then _ else _) as [dh1 i].
  destruct (5000 <? i); [done|].
  unfold mbind, run_mbind, run_bind.
  destruct (Entries dh1) as [es|] eqn:Hes.
  - unfold mret, run_mret, run_ret. simpl.
    destruct (i =? _); [done|]. destruct (_ <? i); [done|].
    rewrite Hes. destruct (es !! _); done.
  - pose proof (ReadDir_list_fuel fs inode dh1 tr) as Hl.
    destruct (ReadDir_list fs inode dh1 tr) as [[[dh2 err] tr2]| | |];
      try done.
    destruct err; [done|].
    destruct (i =? _); [done|]. destruct (_ <? i); [done|].
    destruct (Entries dh2) as [es|]; [|done]. destruct (es !! _); done.
Qed.

Lemma direntSize_pos e : (0 < direntSize e)%nat.
Proof. unfold direntSize. lia. Qed.

Lemma ReadDir_loop_fuel fuel fs inode dh i room written tr :
  (room < fuel)%nat ->
  ReadDir_loop fuel fs inode dh i room written tr <> OutOfFuel.
Proof.
  revert dh i room written tr.
  induction fuel as [|fuel IH]; intros dh i room written tr Hf; [lia|].
  simpl. unfold mbind, run_mbind, run_bind.
  pose proof (ReadDir_fuel fs inode dh i tr) as Hr.
  destruct (ReadDir fs inode dh i tr) as [[[[dh1 e] err] tr1]| | |]; try done.
  destruct err; [done|]. destruct e as [e|]; [|done].
  unfold WriteDirent. pose proof (direntSize_pos e).
  destruct (direntSize e <=? room)%nat eqn:E; [|done].
  apply Nat.leb_le in E.
  destruct (direntSize e =? 0)%nat eqn:E0; [done|].
  apply IH. lia.
Qed.

Lemma ReadDir_loop_fits fuel fs inode dh i room written tr dh' out err tr' :
  ReadDir_loop fuel fs inode dh i room written tr = Done (dh', out, err, tr') ->
  exists new,
    out = written ++ new /\ (sum_list (direntSize <$> new) <= room)%nat.
Proof.
  revert dh i room written tr.
  induction fuel as [|fuel IH]; intros dh i room written tr; [done|].
  simpl. intros H.
  apply run_bind_Done in H as ([[dh1 e] err1] & tr1 & _ & H).
  assert (Hnil : exists new, written = written ++ new /\
                   (sum_list (direntSize <$> new) <= room)%nat).
  { exists []. rewrite app_nil_r. simpl. split; [done|lia]. }
  destruct err1; [by injection H as <- <- <- <-|].
  destruct e as [e|]; [|by injection H as <- <- <- <-].
  unfold WriteDirent in H.
  destruct (direntSize e <=? room)%nat eqn:E;
    [|by injection H as <- <- <- <-].
  apply Nat.leb_le in E.
  destruct (direntSize e =? 0)%nat; [by injection H as <- <- <- <-|].
  apply IH in H as (new & -> & Hsum).
  exists (e :: new). rewrite <- app_assoc. split; [done|].
  rewrite fmap_cons. generalize dependent (direntSize e). intros n E Hsum.
  simpl. lia.
Qed.

(** One [ReadDir] operation ends, and the entries it writes fit the
    destination: their sizes add up to no more than the room given. *)
Theorem Goofys_ReadDir_fits_room (fs : Goofys) (inode : Inode)
    (dh : DirHandle) (offset : Z) (room : nat) (tr : list Request) :
  Goofys_ReadDir fs inode dh offset room tr <> OutOfFuel /\
  forall dh' out err tr',
    Goofys_ReadDir fs inode dh offset room tr = Done (dh', out, err, tr') ->
    (sum_list (direntSize <$> out) <= room)%nat.
Proof.
  unfold Goofys_ReadDir. split.
  - apply ReadDir_loop_fuel. lia.
  - intros dh' out err tr' (new & -> & Hsum)%ReadDir_loop_fits. done.
Qed.

(** ** The upload pipeline *)

Lemma keeps_refl fh : keeps fh fh.
Proof. by repeat split. Qed.

Lemma keeps_trans fh1 fh2 fh3 : keeps fh1 fh2 -> keeps fh2 fh3 -> keeps fh1 fh3.
Proof.
  unfold keeps. intros (?&?&?&?&?&?) (?&?&?&?&?&?). repeat split; congruence.
Qed.

Lemma error_grows_refl fh : error_grows fh fh.
Proof. by left. Qed.

Lemma error_grows_trans fh1 fh2 fh3 :
  error_grows fh1 fh2 -> error_grows fh2 fh3 -> error_grows fh1 fh3.
Proof.
  unfold error_grows. intros [H1|[H1 H1']] [H2|[H2 H2']].
  - left. congruence.
  - right. split; congruence.
  - right. split; congruence.
  - congruence.
Qed.


(** [mpuPartNoSpawn]: one request; on success the ETag lands in the slot of
    the part. *)
Lemma mpuPartNoSpawn_spec fs inode fh b p tr fh' err tr' :
  mpuPartNoSpawn fs inode fh b p tr = Done (fh', err, tr') ->
  let req := RUploadPart (FullName inode) (mpuId fh) p (bytes_of b) in
  tr' = tr ++ [req] /\ p <= 10000 /\ keeps fh fh' /\
  lastWriteError fh' = lastWriteError fh /\ mpuWG fh' = mpuWG fh /\
  match err with
  | None =>
      exists etag,
        1 <= p /\
        s3UploadPart (s3 fs) tr req = inr etag /\
        etags fh' = <[Z.to_nat (p - 1) := etag]> (etags fh) /\
        (Z.to_nat (p - 1) < length (etags fh))%nat
  | Some e =>
      etags fh' = etags fh /\
      exists e0, s3UploadPart (s3 fs) tr req = inl e0 /\ e = mapAwsError e0
  end.
Proof.
  intros H req. unfold mpuPartNoSpawn in H.
  destruct (_ || _) eqn:Hp; [done|].
  apply orb_false_iff in Hp as [Hp0 Hp1].
  apply Z.eqb_neq in Hp0. apply Z.ltb_ge in Hp1.
  apply run_bind_Done in H as (resp & tr1 & Hc & H).
  unfold call in Hc. injection Hc as <- <-.
  apply run_bind_Done in H as ([fh1 err1] & tr2 & H1 & H).
  assert (Hfree : tr' = tr2 /\ err = err1 /\ keeps fh1 fh' /\
                  lastWriteError fh' = lastWriteError fh1 /\
                  mpuWG fh' = mpuWG fh1 /\ etags fh' = etags fh1).
  { destruct b as [b'|].
    - destruct (buf_cap b' =? 0)%nat.
      + run_simpl. by repeat split.
      + apply run_bind_Done in H as (fh2 & tr3 & Hf & H).
        apply lift_Done in Hf as (fh2' & Hf & [= <- <-]).
        unfold free_buf in Hf. destruct (poolHandle fh1); [|done].
        run_simpl. by repeat split.
    - run_simpl. by repeat split. }
  destruct Hfree as (-> & -> & Hk & He & Hw & Het). clear H.
  fold req in H1.
  destruct (s3UploadPart (s3 fs) tr req) as [e|etag] eqn:Hresp.
  - run_simpl. split; [done|]. split; [lia|]. split; [done|].
    split; [done|]. split; [done|]. split; [done|]. eauto.
  - destruct (p <? 1) eqn:Hp2; [done|]. apply Z.ltb_ge in Hp2.
    destruct (etags fh !! Z.to_nat (p - 1)) as [[x|]|] eqn:Hslot; [done| |done].
    run_simpl. split; [done|]. split; [lia|].
    split; [exact Hk|]. split; [exact He|]. split; [exact Hw|].
    exists etag. split; [lia|]. split; [done|]. split; [exact Het|].
    by eapply lookup_lt_Some.
Qed.

(** One part upload finishes: one [UploadPart] goes out, and nothing changes
    but the slot of the part or the sticky error. *)
Lemma mpuPart_frame fs inode fh t tr fh' tr' :
  mpuPart fs inode fh t tr = Done (fh', tr') ->
  keeps fh fh' /\ error_grows fh fh' /\ mpuWG fh' = mpuWG fh /\
  tr' = tr ++ [RUploadPart (FullName inode) (mpuId fh) (task_part t)
                 (buf_bytes (task_buf t))].
Proof.
  intros H. unfold mpuPart in H.
  destruct (mpuId fh) as [id|] eqn:Hid; [|done].
  apply run_bind_Done in H as ([fh1 err] & tr1 & Hp & H).
  apply mpuPartNoSpawn_spec in Hp as (-> & Hmax & Hk & He & Hw & Hres).
  rewrite Hid in *. simpl.
  destruct err as [e|].
  - destruct (lastWriteError fh1) as [e1|] eqn:He1; run_simpl.
    + split; [done|]. split; [left; congruence|]. done.
    + split; [done|]. split; [right; split; [congruence|done]|]. done.
  - run_simpl. split; [done|]. split; [by left|]. done.
Qed.

Lemma mpuWG_Wait_tasks_frame fs inode ts fh tr fh' tr' :
  mpuWG_Wait_tasks fs inode fh ts tr = Done (fh', tr') ->
  keeps fh fh' /\ error_grows fh fh' /\ mpuWG fh' = mpuWG fh /\
  exists ext, tr' = tr ++ ext /\ Forall (λ r, is_upload_part r = true) ext.
Proof.
  revert fh tr.
  induction ts as [|t ts IH]; intros fh tr H; simpl in H.
  - run_simpl. split; [apply keeps_refl|].
    split; [apply error_grows_refl|]. split; [done|].
    exists []. by rewrite app_nil_r.
  - apply run_bind_Done in H as (fh1 & tr1 & Hp & H).
    apply mpuPart_frame in Hp as (Hk1 & He1 & Hw1 & ->).
    apply IH in H as (Hk2 & He2 & Hw2 & ext2 & -> & Hext2).
    split; [by eapply keeps_trans|].
    split; [by eapply error_grows_trans|]. split; [congruence|].
    eexists (_ :: ext2). rewrite <- app_assoc. split; [done|].
    by constructor.
Qed.

Lemma mpuWG_Wait_frame fs inode fh tr fh' tr' :
  mpuWG_Wait fs inode fh tr = Done (fh', tr') ->
  keeps fh fh' /\ error_grows fh fh' /\ mpuWG fh' = [] /\
  exists ext, tr' = tr ++ ext /\ Forall (λ r, is_upload_part r = true) ext.
Proof.
  intros H. unfold mpuWG_Wait in H.
  apply mpuWG_Wait_tasks_frame in H as (H1 & H2 & H3 & H4). done.
Qed.



Lemma FlushFile_clean fs inode fh tr fh' err tr' :
  FlushFile fs inode fh tr = Done (fh', err, tr') -> dirty fh' = false.
Proof.
  unfold FlushFile. destruct (dirty fh) eqn:Hd; simpl.
  - intros H.
    apply run_bind_Done in H as ([fh1 err1] & tr1 & _ & H).
    apply run_bind_Done in H as (fh2 & tr2 & Hdef & H).
    injection H as <- <- <-.
    unfold FlushFile_deferred in Hdef.
    apply run_bind_Done in Hdef as (fh3 & tr3 & _ & Hdef).
    by injection Hdef as <- <-.
  - by intros [= <- <- <-].
Qed.



(** A flush right after a flush does nothing: it sends no request and
    reports success, whatever the first flush reported. *)
Theorem FlushFile_twice (fs : Goofys) (inode : Inode) (fh : FileHandle)
    (tr : list Request) fh' err tr' :
  FlushFile fs inode fh tr = Done (fh', err, tr') ->
  FlushFile fs inode fh' tr' = Done (fh', None, tr').
Proof.
  intros H%FlushFile_clean. unfold FlushFile. by rewrite H.
Qed.

Lemma FlushFile_twice_witness :
  let fs := fst (canned_mount (inl (RequestFailure 404))
                              (inl (RequestFailure 404)) 4) in
  let inode := fst (Inode_Create fs root_inode "x" 0 2%positive) in
  let fh := snd (Inode_Create fs root_inode "x" 0 2%positive) in
  exists fh' err tr',
    FlushFile fs inode fh [] = Done (fh', err, tr') /\
    FlushFile fs inode fh' tr' = Done (fh', None, tr').
Proof.
  intros fs inode fh. do 3 eexists. split; [by_computation|].
  eapply (FlushFile_twice fs inode fh []). by_computation.
Defined.





(** ** Small files *)

Lemma buffering_write fs key st w d tr :
  buffering fs key st w ->
  (length w + length d < chunk (bufferPool fs))%nat ->
  Z.of_nat (chunk (bufferPool fs)) < 2 ^ 63 ->
  exists st',
    step st (AWrite (Z.of_nat (length w)) d) tr = Done (st', None, tr) /\
    buffering fs key st' (w ++ d).
Proof.
  destruct st as [fs0 inode fh].
  intros (Hfs & Hkey & (a & Hattr & Hsize) & Hd & He & Hmi & Hp & Ho &
          (ph & Hph & Hch) & Hb & Hcap) Hlen Hmax.
  simpl in *. subst fs0.
  destruct fh as [fi di wi wg et mi nwo lp pho bf lwe]. simpl in *.
  subst di lwe lp nwo pho mi.
  unfold WriteFile, mbind, run_mbind, run_bind. simpl lastWriteError.
  cbv iota. simpl nextWriteOffset. rewrite Z.eqb_refl. simpl negb. cbv iota.
  replace (2 * length d + 2)%nat with (S (S (2 * length d))) by lia.
  set (fh1 := if Z.of_nat (length w) =? 0 then _ else _).
  assert (Hfh1 : exists ph1, ph_chunk ph1 = chunk (bufferPool fs) /\
            fh1 = mkFileHandle fi true wi wg et None (Z.of_nat (length w)) 0
                    (Some ph1) bf None).
  { subst fh1. destruct (Z.of_nat (length w) =? 0).
    - exists (NewPoolHandle (bufferPool fs)). done.
    - exists ph. done. }
  destruct Hfh1 as (ph1 & Hch1 & ->).
  assert (Hoff : wrap_int64 (Z.of_nat (length w) + Z.of_nat (length d)) =
                 Z.of_nat (length (w ++ d))).
  { rewrite wrap_int64_small by lia. rewrite length_app. lia. }
  assert (Hsz : wrap_uint64 (wrap_int64 (Z.of_nat (length w) +
                                         Z.of_nat (length d))) =
                Z.of_nat (length (w ++ d))).
  { rewrite Hoff. apply wrap_uint64_small. rewrite length_app. lia. }
  assert (Hmin : forall n, (length w + length d < n)%nat ->
            Nat.min (length d) (n - length w) = length d) by lia.
  destruct Hcap as [->|(b & -> & Hbc)].
  - (* no buffer yet *)
    simpl in Hb. subst w. simpl in *.
    unfold WriteFile_loop. simpl cap_of. simpl poolHandle.
    unfold mbind, run_mbind, run_bind, mret, run_mret, run_ret.
    cbn -[wrap_int64 wrap_uint64 Z.of_nat Nat.min firstn].
    rewrite Hch1, Nat.sub_0_r, Nat.min_l by lia.
    rewrite firstn_all.
    destruct (length d =? chunk (bufferPool fs))%nat eqn:E;
      [apply Nat.eqb_eq in E; lia|].
    rewrite Nat.eqb_refl. unfold store_Size. rewrite Hattr.
    eexists. split; [reflexivity|].
    simpl in Hsz, Hoff.
    repeat split; simpl; try done;
      try (eexists; split; [reflexivity|]; simpl;
           first [exact Hsz|exact Hch1|done]).
    right. eexists. split; [reflexivity|]. done.
  - destruct b as [bb bc]. simpl in Hb, Hbc. subst bb bc.
    assert (E0 : (chunk (bufferPool fs) =? 0)%nat = false)
      by (apply Nat.eqb_neq; lia).
    unfold WriteFile_loop.
    unfold mbind, run_mbind, run_bind, mret, run_mret, run_ret.
    cbn -[wrap_int64 wrap_uint64 Z.of_nat Nat.min firstn].
    rewrite E0.
    cbn -[wrap_int64 wrap_uint64 Z.of_nat Nat.min firstn].
    rewrite Hmin by lia. rewrite firstn_all.
    rewrite length_app.
    destruct (length w + length d =? chunk (bufferPool fs))%nat eqn:E;
      [apply Nat.eqb_eq in E; lia|].
    rewrite Nat.eqb_refl. unfold store_Size. rewrite Hattr.
    eexists. split; [reflexivity|].
    rewrite length_app in Hsz, Hoff.
    repeat split; simpl; rewrite ?length_app; try done;
      try (eexists; split; [reflexivity|]; simpl; rewrite ?length_app;
           first [exact Hsz|exact Hch1|done]).
    right. eexists. split; [reflexivity|]. done.
Qed.

Lemma buffering_flush fs key st w tr :
  buffering fs key st w ->
  exists st',
    step st AFlush tr =
      Done (st',
            option_map mapAwsError
              (s3PutObject (s3 fs) tr (RPutObject key w)),
            tr ++ [RPutObject key w]) /\
    hs_fs st' = fs /\ hs_inode st' = hs_inode st /\
    dirty (hs_fh st') = false /\ buf (hs_fh st') = None.
Proof.
  destruct st as [fs0 inode fh].
  intros (Hfs & Hkey & _ & Hd & He & Hmi & Hp & Ho & (ph & Hph & Hch) & Hb &
          Hcap).
  simpl in *. subst fs0.
  destruct fh as [fi di wi wg et mi nwo lp pho bf lwe]. simpl in *.
  subst di lwe lp nwo pho key w mi.
  unfold FlushFile, FlushFile_body, flushSmallFile, FlushFile_deferred,
    free_buf, call, lift, mbind, run_mbind, run_bind, mret, run_mret, run_ret.
  simpl.
  destruct (s3PutObject _ _ _) as [e|]; simpl;
    destruct (cap_of bf =? 0)%nat; simpl;
    destruct bf as [b|]; simpl;
    eexists; (split; [reflexivity|]); done.
Qed.

Lemma steps_app st acts1 acts2 tr st1 errs1 tr1 :
  steps st acts1 tr = Done (st1, errs1, tr1) ->
  steps st (acts1 ++ acts2) tr =
    ('(st2, errs2) ← steps st1 acts2; mret (st2, errs1 ++ errs2)) tr1.
Proof.
  revert st tr errs1.
  induction acts1 as [|a acts1 IH]; intros st tr errs1 H; simpl in *.
  - injection H as <- <- <-. unfold mbind, run_mbind, run_bind.
    destruct (steps st acts2 tr) as [[[st2 errs2] tr2]| | |]; done.
  - apply run_bind_Done in H as ([st' err] & tr' & Hs & H).
    apply run_bind_Done in H as ([st'' errs] & tr'' & Hss & H).
    injection H as <- <- <-.
    rewrite (run_bind_eq _ _ _ _ _ Hs). cbn beta iota.
    unfold mbind, run_mbind, run_bind. rewrite (IH _ _ _ Hss).
    unfold mbind, run_mbind, run_bind.
    destruct (steps _ acts2 _) as [[[st2 errs2] tr2]| | |]; done.
Qed.

Lemma steps_singleton st a tr st' err tr' :
  step st a tr = Done (st', err, tr') ->
  steps st [a] tr = Done (st', [err], tr').
Proof. intros H. simpl. by rewrite (run_bind_eq _ _ _ _ _ H). Qed.

Lemma buffering_writes fs key ds st w tr :
  buffering fs key st w ->
  (length w + length (concat ds) < chunk (bufferPool fs))%nat ->
  Z.of_nat (chunk (bufferPool fs)) < 2 ^ 63 ->
  exists st',
    steps st (sequential_writes (Z.of_nat (length w)) ds) tr =
      Done (st', replicate (length ds) None, tr) /\
    buffering fs key st' (w ++ concat ds).
Proof.
  revert st w.
  induction ds as [|d ds IH]; intros st w Hb Hlen Hmax; simpl in *.
  - exists st. by rewrite app_nil_r.
  - rewrite length_app in Hlen.
    destruct (buffering_write fs key st w d tr Hb) as (st1 & Hs & Hb1);
      [lia|done|].
    destruct (IH st1 (w ++ d) Hb1) as (st2 & Hss & Hb2);
      [rewrite length_app; lia|done|].
    rewrite length_app, Nat2Z.inj_add in Hss.
    exists st2. rewrite (run_bind_eq _ _ _ _ _ Hs).
    rewrite (run_bind_eq _ _ _ _ _ Hss). rewrite <- app_assoc in Hb2. done.
Qed.

(** A file that is created, written front to back with data that stays
    below the size of one buffer, and flushed, reaches the store as exactly
    one [PutObject] of the written bytes under the full name of the inode;
    every write succeeds without a request, the flush returns what the PUT
    returned, and the size of the inode is the number of bytes written. *)
Theorem small_file_is_one_put (fs : Goofys) (parent : Inode) (name : string)
    (now : Z) (a : positive) (ds : list (list byte)) (tr : list Request) :
  let inode := fst (Inode_Create fs parent name now a) in
  let fh := snd (Inode_Create fs parent name now a) in
  let put := RPutObject (getChildName parent name) (concat ds) in
  (length (concat ds) < chunk (bufferPool fs))%nat ->
  Z.of_nat (chunk (bufferPool fs)) < 2 ^ 63 ->
  exists st,
    steps (mkHandleState fs inode fh) (sequential_writes 0 ds ++ [AFlush]) tr =
      Done (st,
            replicate (length ds) None ++
              [option_map mapAwsError (s3PutObject (s3 fs) tr put)],
            tr ++ [put]) /\
    Size (attrs_of fs (hs_inode st)) = Z.of_nat (length (concat ds)) /\
    dirty (hs_fh st) = false /\ buf (hs_fh st) = None.
Proof.
  intros inode fh put Hlen Hmax.
  assert (Hb : buffering fs (getChildName parent name)
                 (mkHandleState fs inode fh) []).
  { repeat split; simpl; try done.
    - eexists. split; [reflexivity|]. done.
    - eexists. split; [reflexivity|]. done.
    - by left. }
  destruct (buffering_writes fs _ ds _ [] tr Hb) as (st1 & Hs & Hb1);
    [simpl; lia|done|].
  simpl in Hs, Hb1.
  destruct (buffering_flush fs _ st1 _ tr Hb1)
    as (st2 & Hf & Hfs & Hin & Hd & Hbuf).
  exists st2. rewrite (steps_app _ _ _ _ _ _ _ Hs).
  rewrite (run_bind_eq _ _ _ _ _ (steps_singleton _ _ _ _ _ _ Hf)).
  split; [done|].
  split; [|done]. rewrite Hin.
  destruct Hb1 as (_ & _ & (at1 & Hat & Hsz) & _).
  unfold attrs_of. by rewrite Hat.
Qed.

(** [hello] in two writes, with buffers of 8 bytes. *)
Lemma small_file_is_one_put_witness :
  let fs := fst (canned_mount (inl (RequestFailure 404))
                              (inl (RequestFailure 404)) 8) in
  let inode := fst (Inode_Create fs root_inode "x" 0 2%positive) in
  let fh := snd (Inode_Create fs root_inode "x" 0 2%positive) in
  let ds := [list_byte_of_string "hel"; list_byte_of_string "lo"] in
  exists st,
    steps (mkHandleState fs inode fh) (sequential_writes 0 ds ++ [AFlush]) [] =
      Done (st, [None; None; None],
            [RPutObject "x" (list_byte_of_string "hello")]) /\
    Size (attrs_of fs (hs_inode st)) = 5 /\
    dirty (hs_fh st) = false /\ buf (hs_fh st) = None.
Proof.
  intros fs inode fh ds.
  apply (small_file_is_one_put fs root_inode "x" 0 2%positive ds []);
    simpl; lia.
Defined.

(** ** The loop of a write ends *)










(** [initMPU]: one request; the upload identifier is set, or the sticky
    error; the slots of the parts are all empty. *)
Lemma initMPU_frame fs inode fh tr :
  exists fh',
    initMPU fs inode fh tr =
      Done (fh', tr ++ [RCreateMultipartUpload (FullName inode)]) /\
    dirty fh' = dirty fh /\ writeInit fh' = writeInit fh /\
    nextWriteOffset fh' = nextWriteOffset fh /\
    lastPartId fh' = lastPartId fh /\ buf fh' = buf fh /\
    poolHandle fh' = poolHandle fh /\ mpuWG fh' = mpuWG fh /\
    etags fh' = replicate MaxParts None /\
    match s3CreateMultipartUpload (s3 fs) tr
            (RCreateMultipartUpload (FullName inode)) with
    | inl e =>
        mpuId fh' = None /\ lastWriteError fh' = Some (mapAwsError e)
    | inr id =>
        mpuId fh' = Some id /\ lastWriteError fh' = lastWriteError fh
    end.
Proof.
  unfold initMPU, mbind, run_mbind, run_bind, call.
  destruct (s3CreateMultipartUpload _ _ _) as [e|id];
    eexists; (split; [reflexivity|]); repeat split; reflexivity.
Qed.

Lemma initWrite_frame fs inode fh tr fh' tr' :
  initWrite fs inode fh tr = Done (fh', tr') ->
  dirty fh' = dirty fh /\ nextWriteOffset fh' = nextWriteOffset fh /\
  lastPartId fh' = lastPartId fh /\ buf fh' = buf fh /\
  poolHandle fh' = poolHandle fh /\ mpuWG fh' = mpuWG fh /\
  exists ext, tr' = tr ++ ext /\ Forall (λ r, is_abort r = false) ext.
Proof.
  unfold initWrite. destruct (writeInit fh).
  - intros [= <- <-]. repeat split; try done.
    exists []. by rewrite app_nil_r.
  - destruct (initMPU_frame fs inode (set_writeInit fh true) tr)
      as (fh1 & -> & H1 & H2 & H3 & H4 & H5 & H6 & H7 & _).
    intros [= <- <-]. repeat split; try done.
    eexists. split; [done|]. by repeat constructor.
Qed.



Lemma waitForCreateMPU_buf fs inode fh tr fh' err tr' :
  waitForCreateMPU fs inode fh tr = Done (fh', err, tr') -> buf fh' = buf fh.
Proof.
  intros H. unfold waitForCreateMPU in H.
  destruct (mpuId fh); [by injection H as <- <- <-|].
  apply run_bind_Done in H as (fh1 & tr1 & Hi & H).
  apply run_bind_Done in H as (fh2 & tr2 & Hw & H).
  assert (Hb1 : buf fh1 = buf fh).
  { by apply initWrite_frame in Hi as (_ & _ & _ & Hb & _). }
  apply mpuWG_Wait_frame in Hw as ((_ & _ & _ & _ & _ & Hb2) & _).
  destruct (lastWriteError fh2); injection H as <- <- <-; congruence.
Qed.




(** ** The parts of an upload *)

Lemma recorded_mono s key id tr ext p e :
  recorded s key id tr p e -> recorded s key id (tr ++ ext) p e.
Proof.
  intros (j & body & Hj & Hr). exists j, body.
  pose proof (lookup_lt_Some _ _ _ Hj) as Hlt.
  split; [by apply lookup_app_l_Some|].
  rewrite take_app_le by lia. done.
Qed.

Lemma write_inv_error s key tr fh pending tr' fh' pending' :
  write_inv s key tr fh pending ->
  keeps fh fh' -> lastWriteError fh' <> None ->
  write_inv s key tr' fh' pending'.
Proof.
  intros [Hd _] (Hk1 & _ & _ & Hk4 & Hk5 & _) He. split; [|by left].
  rewrite Hk1, Hk4, Hk5. exact Hd.
Qed.

(** One part upload finishes. *)
Lemma mpuPart_inv s key fs inode fh t l1 l2 tr fh' tr' :
  s3 fs = s -> FullName inode = key ->
  write_inv s key tr fh (l1 ++ t :: l2) ->
  mpuPart fs inode fh t tr = Done (fh', tr') ->
  write_inv s key tr' fh' (l1 ++ l2).
Proof.
  intros Hs Hkey Hinv H. unfold mpuPart in H.
  destruct (mpuId fh) as [id|] eqn:Hid; [|done].
  apply run_bind_Done in H as ([fh1 err] & tr1 & Hp & H).
  apply mpuPartNoSpawn_spec in Hp as (-> & Hmax & Hk & He & Hw & Hres).
  destruct err as [e|].
  - destruct (lastWriteError fh1) as [e1|] eqn:He1; run_simpl.
    + eapply write_inv_error; [exact Hinv|exact Hk|congruence].
    + eapply write_inv_error; [exact Hinv| |done]. exact Hk.
  - run_simpl. destruct Hres as (etag & Hp1 & Hresp & Het & Hlen).
    destruct Hinv as [Hd Hinv].
    pose proof Hk as (Hk1 & Hk2 & Hk3 & Hk4 & Hk5 & Hk6).
    split; [by rewrite Hk1, Hk4, Hk5|].
    destruct Hinv as [Herr|(Hrange & Hnone & Hparts)]; [left; congruence|].
    right. rewrite Hk5. split; [done|].
    split; [rewrite Hk3, Hid; done|].
    intros p Hp.
    destruct (decide (p = task_part t)) as [->|Hne].
    + right. exists etag. rewrite Het. split.
      * by apply list_lookup_insert_eq.
      * rewrite Hk3. eexists (length tr), _. split.
        -- rewrite lookup_app_r by lia. by rewrite Nat.sub_diag.
        -- rewrite take_app_length. exact Hresp.
    + destruct (Hparts p Hp) as [(t' & Hin & Ht')|(e & Hslot & Hrec)].
      * left. exists t'. split; [|done].
        rewrite elem_of_app in Hin. rewrite elem_of_app.
        destruct Hin as [Hin|Hin]; [by left|].
        apply elem_of_cons in Hin as [->|Hin]; [done|by right].
      * right. exists e. split.
        -- rewrite Het. rewrite list_lookup_insert_ne by lia. done.
        -- rewrite Hk3. by apply recorded_mono.
Qed.

(** The wait group: every outstanding part finishes. *)
Lemma mpuWG_Wait_tasks_inv s key fs inode ts fh tr fh' tr' :
  s3 fs = s -> FullName inode = key ->
  write_inv s key tr fh ts ->
  mpuWG_Wait_tasks fs inode fh ts tr = Done (fh', tr') ->
  write_inv s key tr' fh' [].
Proof.
  intros Hs Hkey. revert fh tr.
  induction ts as [|t ts IH]; intros fh tr Hinv H; simpl in H.
  - by run_simpl.
  - apply run_bind_Done in H as (fh1 & tr1 & Hp & H).
    eapply (mpuPart_inv s key fs inode fh t [] ts) in Hp; [|done..].
    by apply IH in H.
Qed.

Lemma mpuWG_Wait_inv s key fs inode fh tr fh' tr' :
  s3 fs = s -> FullName inode = key ->
  write_inv s key tr fh (mpuWG fh) ->
  mpuWG_Wait fs inode fh tr = Done (fh', tr') ->
  write_inv s key tr' fh' [].
Proof.
  intros Hs Hkey Hinv H. unfold mpuWG_Wait in H.
  eapply mpuWG_Wait_tasks_inv in H; [done..|]. exact Hinv.
Qed.

Lemma waitForCreateMPU_inv s key fs inode fh tr fh' err tr' :
  s3 fs = s -> FullName inode = key ->
  write_inv s key tr fh (mpuWG fh) ->
  waitForCreateMPU fs inode fh tr = Done (fh', err, tr') ->
  write_inv s key tr' fh' (mpuWG fh') /\
  dirty fh' = dirty fh /\ nextWriteOffset fh' = nextWriteOffset fh /\
  lastPartId fh' = lastPartId fh /\ buf fh' = buf fh /\
  (err = None -> lastWriteError fh' <> None \/ mpuId fh' <> None).
Proof.
  intros Hs Hkey Hinv H. unfold waitForCreateMPU in H.
  destruct (mpuId fh) as [id|] eqn:Hid.
  { injection H as <- <- <-. split; [exact Hinv|].
    do 4 (split; [reflexivity|]). intros _. right. congruence. }
  apply run_bind_Done in H as (fh1 & tr1 & Hi & H).
  apply run_bind_Done in H as (fh2 & tr2 & Hw & H).
  (* the initializer *)
  assert (Hinit :
    write_inv s key tr1 fh1 (mpuWG fh1) /\
    dirty fh1 = dirty fh /\ nextWriteOffset fh1 = nextWriteOffset fh /\
    lastPartId fh1 = lastPartId fh /\ buf fh1 = buf fh /\
    (lastWriteError fh1 <> None \/ mpuId fh1 <> None)).
  { unfold initWrite in Hi. destruct Hinv as [Hd Hinv].
    revert Hi. case_eq (writeInit fh); intros Hwi Hi.
    - injection Hi as <- <-. split; [by split|].
      do 4 (split; [reflexivity|]).
      destruct Hinv as [?|(_ & Hnone & _)]; [by left|].
      destruct (Hnone Hid) as (_ & _ & ?). congruence.
    - destruct (initMPU_frame fs inode (set_writeInit fh true) tr)
        as (fh0 & Heq & H1 & H2 & H3 & H4 & H5 & H6 & H7 & H8 & H9).
      rewrite Heq in Hi. injection Hi as <- <-.
      simpl in H1, H2, H3, H4, H5, H6, H7.
      destruct (s3CreateMultipartUpload _ _ _) as [e|id];
        destruct H9 as [Hm He]; simpl in He.
      + split; [|do 4 (split; [done|]); left; congruence].
        split; [by rewrite H1, H3, H4|]. left. congruence.
      + split; [|do 4 (split; [done|]); right; congruence].
        split; [by rewrite H1, H3, H4|].
        destruct Hinv as [Herr|(Hrange & Hnone & _)];
          [left; rewrite He; exact Herr|].
        right. destruct (Hnone Hid) as (HL & _ & _).
        rewrite H4. split; [done|]. split; [congruence|].
        intros p Hp. lia. }
  destruct Hinit as (Hinv1 & Hc1 & Hc2 & Hc3 & Hc4 & Hm1).
  pose proof (mpuWG_Wait_frame _ _ _ _ _ _ Hw)
    as ((Hk1 & Hk2 & Hk3 & Hk4 & Hk5 & Hk6) & Heg & Hwg & _).
  eapply mpuWG_Wait_inv in Hw; [|done..].
  assert (Hm2 : lastWriteError fh2 <> None \/ mpuId fh2 <> None).
  { destruct Hm1 as [Hm1|Hm1]; [left|right; congruence].
    destruct Heg as [Heg|[Heg _]]; congruence. }
  destruct (lastWriteError fh2) as [e|] eqn:Herr; injection H as <- <- <-.
  - rewrite Hwg. split; [exact Hw|]. do 4 (split; [congruence|]). done.
  - rewrite Hwg. split; [exact Hw|]. do 4 (split; [congruence|]).
    intros _. right. destruct Hm2 as [?|?]; [congruence|done].
Qed.

Lemma write_inv_transfer s key tr fh fh' pending :
  write_inv s key tr fh pending ->
  dirty fh' = true ->
  lastWriteError fh' = lastWriteError fh -> lastPartId fh' = lastPartId fh ->
  mpuId fh' = mpuId fh -> writeInit fh' = writeInit fh ->
  etags fh' = etags fh ->
  write_inv s key tr fh' pending.
Proof.
  intros [_ Hinv] Hd He HL Hm Hw Het. split; [left; exact Hd|].
  rewrite He, HL, Hm, Hw, Het. exact Hinv.
Qed.

Lemma wrap_int64_le z : - 2 ^ 63 <= z -> wrap_int64 z <= z.
Proof.
  intros H. unfold wrap_int64.
  pose proof (Z.mod_le (z + 2 ^ 63) (2 ^ 64)). lia.
Qed.

(** A full buffer is detached and its upload spawned. *)
Lemma spawn_inv s key tr fh b :
  write_inv s key tr fh (mpuWG fh) -> dirty fh = true ->
  lastWriteError fh <> None \/ mpuId fh <> None ->
  let part := wrap_int64 (lastPartId fh + 1) in
  write_inv s key tr
    (set_mpuWG (set_buf (set_lastPartId fh part) None)
               (mpuWG fh ++ [mkPartTask b part]))
    (mpuWG fh ++ [mkPartTask b part]).
Proof.
  intros [_ Hinv] Hd Hm part. split; [left; exact Hd|].
  change (lastWriteError fh <> None \/
          (- 2 ^ 63 <= part < 2 ^ 63 /\
           (mpuId fh = None ->
              part = 0 /\ mpuWG fh ++ [mkPartTask b part] = [] /\
              writeInit fh = false) /\
           forall p, 1 <= p <= part ->
             (exists t, t ∈ mpuWG fh ++ [mkPartTask b part] /\
                        task_part t = p) \/
             (exists e, etags fh !! Z.to_nat (p - 1) = Some e /\
                        recorded s key (mpuId fh) tr p e))).
  destruct Hinv as [Herr|(Hrange & Hnone & Hparts)]; [left; exact Herr|].
  destruct Hm as [Herr|Hm]; [left; exact Herr|].
  right.
  split; [apply wrap_int64_range|]. split; [intros Hn; contradiction|].
  intros p Hp.
  assert (Hle : part <= lastPartId fh + 1) by (apply wrap_int64_le; lia).
  destruct (decide (p <= lastPartId fh)) as [Hold|Hnew].
  - destruct (Hparts p) as [(t & Hin & Ht)|Hrec]; [lia| |right; exact Hrec].
    left. exists t. split; [|exact Ht]. apply elem_of_app. left. exact Hin.
  - left. exists (mkPartTask b part). split.
    + apply elem_of_app. right. apply list_elem_of_singleton. reflexivity.
    + change (part = p). lia.
Qed.

Lemma WriteFile_loop_inv s key fs inode fuel fh data tr fh' err rem tr' :
  s3 fs = s -> FullName inode = key ->
  write_inv s key tr fh (mpuWG fh) -> dirty fh = true ->
  WriteFile_loop fuel fs inode fh data tr = Done (fh', err, rem, tr') ->
  write_inv s key tr' fh' (mpuWG fh') /\ dirty fh' = true.
Proof.
  intros Hs Hkey. revert fh data tr.
  induction fuel as [|fuel IH]; intros fh data tr Hinv Hd H; [done|].
  cbn -[PoolCopy wrap_int64] in H.
  apply run_bind_Done in H as ([fha b] & tr1 & Hreq & H).
  assert (Ha : tr1 = tr /\ write_inv s key tr fha (mpuWG fha) /\
               dirty fha = true).
  { destruct (cap_of (buf fh) =? 0)%nat.
    - destruct (poolHandle fh) as [ph|]; [|done].
      injection Hreq as <- <- <-.
      split; [done|]. split; [|done]. by eapply write_inv_transfer.
    - destruct (buf fh); [|done]. by injection Hreq as <- <- <-. }
  destruct Ha as (-> & Hinva & Hda). clear Hreq.
  destruct (PoolCopy b data) as [b' nCopied].
  set (fhb := set_nextWriteOffset (set_buf fha (Some b')) _) in H.
  assert (Hinvb : write_inv s key tr fhb (mpuWG fhb))
    by (by eapply write_inv_transfer).
  assert (Hdb : dirty fhb = true) by done.
  clearbody fhb.
  apply run_bind_Done in H as ([fhc errc] & tr2 & Hfull & H).
  assert (Hc : write_inv s key tr2 fhc (mpuWG fhc) /\ dirty fhc = true).
  { destruct (length (buf_bytes b') =? buf_cap b')%nat.
    - apply run_bind_Done in Hfull as ([fhw errw] & tr3 & Hw & Hfull).
      eapply waitForCreateMPU_inv in Hw
        as (Hinvw & Hk1 & Hk2 & Hk3 & Hk4 & Hmpu); [|done..].
      destruct errw as [e|]; injection Hfull as <- <- <-.
      + split; [done|congruence].
      + split; [|simpl; congruence].
        apply spawn_inv; [done|congruence|by apply Hmpu].
    - by injection Hfull as <- <- <-. }
  destruct Hc as (Hinvc & Hdc).
  destruct errc as [e|]; [by injection H as <- <- <- <-|].
  destruct (nCopied =? length data)%nat; [by injection H as <- <- <- <-|].
  by apply IH in H.
Qed.

(** A write keeps the invariant. *)
Lemma WriteFile_inv s key fs inode fh offset data tr fs' inode' fh' err tr' :
  s3 fs = s -> FullName inode = key ->
  write_inv s key tr fh (mpuWG fh) ->
  WriteFile fs inode fh offset data tr = Done (fs', inode', fh', err, tr') ->
  write_inv s key tr' fh' (mpuWG fh') /\ s3 fs' = s /\ FullName inode' = key.
Proof.
  intros Hs Hkey Hinv H. unfold WriteFile in H.
  destruct (lastWriteError fh) as [e|] eqn:He;
    [by injection H as <- <- <- <- <-|].
  destruct (negb (offset =? nextWriteOffset fh)) eqn:Hoff.
  { injection H as <- <- <- <- <-. split; [|done].
    destruct Hinv as [Hd _]. split; [exact Hd|]. by left. }
  apply negb_false_iff, Z.eqb_eq in Hoff.
  apply run_bind_Done in H as ([[fh1 err1] rest] & tr1 & Hl & H).
  eapply (WriteFile_loop_inv s key) in Hl as [Hinv1 Hd1]; [|done|done| |].
  - destruct err1 as [e|]; [by injection H as <- <- <- <- <-|].
    unfold store_Size in H.
    destruct (Attributes inode); injection H as <- <- <- <- <-; done.
  - destruct (offset =? 0); [|exact Hinv].
    destruct Hinv as [_ Hinv]. split; [by left|]. exact Hinv.
  - destruct (offset =? 0) eqn:E0; [done|].
    destruct Hinv as [[Hd|[Hn _]] _]; [done|].
    apply Z.eqb_neq in E0. congruence.
Qed.

(** Any action but a flush keeps the invariant. *)
Lemma step_inv s key st a tr st' err tr' :
  s3 (hs_fs st) = s -> FullName (hs_inode st) = key ->
  is_flush a = false ->
  write_inv s key tr (hs_fh st) (mpuWG (hs_fh st)) ->
  step st a tr = Done (st', err, tr') ->
  write_inv s key tr' (hs_fh st') (mpuWG (hs_fh st')) /\
  s3 (hs_fs st') = s /\ FullName (hs_inode st') = key.
Proof.
  destruct st as [fs inode fh]. simpl. intros Hs Hkey Hnf Hinv H.
  destruct a as [o d| |k]; [| done |].
  - apply run_bind_Done in H as ([[[fs1 inode1] fh1] err1] & tr1 & Hw & H).
    injection H as <- <- <-. simpl.
    by eapply WriteFile_inv in Hw.
  - destruct (mpuWG fh !! k) as [t|] eqn:Hk;
      [|by injection H as <- <- <-].
    destruct (mpuId fh) as [id|] eqn:Hid; [|by injection H as <- <- <-].
    apply run_bind_Done in H as (fh1 & tr1 & Hp & H).
    injection H as <- <- <-. simpl.
    pose proof (mpuPart_frame _ _ _ _ _ _ _ Hp) as (_ & _ & Hwg & _).
    split; [|done]. rewrite Hwg. simpl.
    eapply (mpuPart_inv s key fs inode _ t (take k (mpuWG fh))
              (drop (S k) (mpuWG fh))) in Hp; [|done|done|].
    + by rewrite delete_take_drop.
    + rewrite take_drop_middle by done. exact Hinv.
Qed.

Lemma steps_inv s key acts st tr st' errs tr' :
  s3 (hs_fs st) = s -> FullName (hs_inode st) = key ->
  forallb (λ a, negb (is_flush a)) acts = true ->
  write_inv s key tr (hs_fh st) (mpuWG (hs_fh st)) ->
  steps st acts tr = Done (st', errs, tr') ->
  write_inv s key tr' (hs_fh st') (mpuWG (hs_fh st')) /\
  s3 (hs_fs st') = s /\ FullName (hs_inode st') = key.
Proof.
  revert st tr errs.
  induction acts as [|a acts IH]; intros st tr errs Hs Hkey Hnf Hinv H;
    simpl in H.
  - by injection H as <- <- <-.
  - simpl in Hnf. apply andb_true_iff in Hnf as [Ha Hnf].
    apply negb_true_iff in Ha.
    apply run_bind_Done in H as ([st1 err1] & tr1 & Hst & H).
    apply run_bind_Done in H as ([st2 errs2] & tr2 & Hss & H).
    injection H as <- <- <-.
    eapply step_inv in Hst as (Hinv1 & Hs1 & Hkey1); [|done..].
    eapply IH in Hss; done.
Qed.

Lemma FlushFile_body_parts s key fs inode fh tr fh' tr' :
  s3 fs = s -> FullName inode = key ->
  write_inv s key tr fh (mpuWG fh) ->
  lastPartId fh <> 0 ->
  FlushFile_body fs inode fh tr = Done (fh', None, tr') ->
  exists id parts,
    last tr' = Some (RCompleteMultipartUpload key (Some id) parts) /\
    Z.of_nat (length parts) =
      lastPartId fh + match buf fh with Some _ => 1 | None => 0 end /\
    cp_PartNumber <$> parts = seqZ 1 (Z.of_nat (length parts)) /\
    Forall (λ p, recorded s key (Some id) tr' (cp_PartNumber p) (cp_ETag p))
           parts.
Proof.
  intros Hs Hkey Hinv HL H. unfold FlushFile_body in H.
  destruct (lastPartId fh =? 0) eqn:E0; [apply Z.eqb_eq in E0; done|].
  clear E0.
  apply run_bind_Done in H as (fh1 & tr1 & Hw & H).
  pose proof (mpuWG_Wait_frame _ _ _ _ _ _ Hw)
    as ((Hk1 & Hk2 & Hk3 & Hk4 & Hk5 & Hk6) & _ & _ & _).
  eapply mpuWG_Wait_inv in Hw; [|done..].
  destruct (lastWriteError fh1) as [e|] eqn:Herr; [done|].
  destruct Hw as [_ [Hw|(Hrange & Hnone & Hparts)]]; [done|].
  destruct (mpuId fh1) as [id|] eqn:Hid.
  2:{ destruct Hnone as (? & _); [done|]. congruence. }
  clear Hnone.
  assert (Hrec : forall p, 1 <= p <= lastPartId fh1 ->
            exists e, etags fh1 !! Z.to_nat (p - 1) = Some e /\
                      recorded s key (Some id) tr1 p e).
  { intros p Hp. destruct (Hparts p Hp) as [(t & Hin & _)|Hr]; [|done].
    by apply elem_of_nil in Hin. }
  clear Hparts.
  apply run_bind_Done in H as ([[fh2 n] err2] & tr2 & Hp & H).
  destruct err2 as [e|]; [done|].
  (* the trailing part *)
  assert (Hlast :
    n = lastPartId fh + match buf fh with Some _ => 1 | None => 0 end /\ mpuId fh2 = Some id /\
    exists ext, tr2 = tr1 ++ ext /\
    forall p, 1 <= p <= n ->
      exists e, etags fh2 !! Z.to_nat (p - 1) = Some e /\
                recorded s key (Some id) tr2 p e).
  { rewrite <- Hk6, <- Hk5. destruct (buf fh1) as [b|] eqn:Hb.
    - apply run_bind_Done in Hp as ([fh3 err3] & tr3 & Hp & Hr).
      injection Hr as ? ? ? ?. subst fh3 n err3 tr3.
      apply mpuPartNoSpawn_spec in Hp
        as (-> & Hmax & (_ & _ & Hm & _) & _ & _ & etag & Hp1 & Hresp & Het &
            Hlen).
      rewrite Hid in Hresp. rewrite Hs, Hkey in Hresp.
      pose proof (wrap_int64_le (lastPartId fh1 + 1) ltac:(lia)) as Hle.
      assert (Hn : wrap_int64 (lastPartId fh1 + 1) = lastPartId fh1 + 1).
      { apply wrap_int64_small.
        destruct (decide (lastPartId fh1 + 1 < 2 ^ 63)) as [|Hbig]; [lia|].
        assert (lastPartId fh1 + 1 = 2 ^ 63) as Heq by lia.
        rewrite Heq in Hp1. exfalso. revert Hp1. by vm_compute. }
      rewrite Hn in *.
      split; [done|]. split; [congruence|].
      eexists. split; [done|]. intros p Hp.
      destruct (decide (p = lastPartId fh1 + 1)) as [->|Hne].
      + exists etag. rewrite Het. split; [by apply list_lookup_insert_eq|].
        rewrite Hid, Hkey. eexists (length tr1), _. split.
        * rewrite lookup_app_r by lia. by rewrite Nat.sub_diag.
        * rewrite take_app_length. exact Hresp.
      + destruct (Hrec p) as (e & He & Hr); [lia|].
        exists e. rewrite Het. split.
        * rewrite list_lookup_insert_ne by lia. done.
        * by apply recorded_mono.
    - injection Hp as ? ? ?. subst fh2 n tr2. split; [lia|]. split; [done|].
      exists []. rewrite app_nil_r. split; [done|].
      intros p Hp. apply Hrec. lia. }
  destruct Hlast as (Hn & Hid2 & ext & -> & Hrec2).
  destruct (n <? 0) eqn:En; [done|]. apply Z.ltb_ge in En.
  destruct (completed_parts (etags fh2) 0 (Z.to_nat n)) as [parts|] eqn:Hcp;
    [|done].
  apply run_bind_Done in H as (cerr & tr3 & Hc & H).
  unfold call in Hc. injection Hc as <- <-.
  destruct (s3CompleteMultipartUpload _ _ _); [done|].
  injection H as <- <-.
  pose proof (completed_parts_numbers _ _ _ _ Hcp) as [Hnum Hetag].
  assert (Hlen : length parts = Z.to_nat n).
  { rewrite <- (length_fmap cp_PartNumber), Hnum, length_seqZ. lia. }
  exists id, parts. rewrite Hid2, Hkey. split; [apply last_snoc|].
  split; [lia|]. split; [rewrite Hnum, Hlen; f_equal; lia|].
  apply Forall_lookup. intros k p Hk.
  pose proof (lookup_lt_Some _ _ _ Hk) as Hklt.
  assert (Hpn : cp_PartNumber p = Z.of_nat k + 1).
  { assert ((cp_PartNumber <$> parts) !! k = Some (cp_PartNumber p))
      as Hx by (by rewrite list_lookup_fmap, Hk).
    rewrite Hnum in Hx. apply lookup_seqZ in Hx as [-> _]. simpl. lia. }
  apply Hetag in Hk. simpl in Hk.
  destruct (Hrec2 (Z.of_nat k + 1)) as (e & He & Hr); [lia|].
  replace (Z.to_nat (Z.of_nat k + 1 - 1)) with k in He by lia.
  rewrite Hk in He. injection He as <-.
  rewrite Hpn. by apply recorded_mono.
Qed.

(** The parts of a completed upload.  A file is created and then written,
    with part uploads finishing in between in any order; the flush that
    follows takes the multipart path and succeeds.  Then the last request is
    the [CompleteMultipartUpload] of the upload; its parts are numbered 1,
    2, ... without a gap, as many as parts were spawned and one more for a
    trailing buffer; and each part carries the ETag that the store
    returned for the [UploadPart] of that number under this upload. *)
Theorem multipart_flush_completes_dense_parts (fs : Goofys) (parent : Inode)
    (name : string) (now : Z) (a : positive) (acts : list Action)
    (tr : list Request) st errs tr1 st' tr' :
  let inode := fst (Inode_Create fs parent name now a) in
  let fh := snd (Inode_Create fs parent name now a) in
  let key := getChildName parent name in
  forallb (λ a, negb (is_flush a)) acts = true ->
  steps (mkHandleState fs inode fh) acts tr = Done (st, errs, tr1) ->
  lastPartId (hs_fh st) <> 0 ->
  step st AFlush tr1 = Done (st', None, tr') ->
  exists id parts,
    last tr' = Some (RCompleteMultipartUpload key (Some id) parts) /\
    Z.of_nat (length parts) =
      lastPartId (hs_fh st) + match buf (hs_fh st) with Some _ => 1 | None => 0 end /\
    cp_PartNumber <$> parts = seqZ 1 (Z.of_nat (length parts)) /\
    Forall (λ p, recorded (s3 fs) key (Some id) tr'
                   (cp_PartNumber p) (cp_ETag p)) parts.
Proof.
  intros inode fh key Hnf Hsteps HL Hflush.
  eapply (steps_inv (s3 fs) key) in Hsteps as (Hinv & Hs & Hkey);
    [|done|done|done|].
  2:{ split; [by left|]. right. simpl. split; [lia|]. split; [done|].
      intros p Hp. lia. }
  destruct st as [fs1 inode1 fh1]. simpl in *.
  apply run_bind_Done in Hflush as ([fh2 err2] & tr2 & Hf & Hflush).
  injection Hflush as ? ? ?. subst st' err2 tr2.
  unfold FlushFile in Hf.
  assert (Hd : dirty fh1 = true).
  { destruct Hinv as [[Hd|[_ ?]] _]; done. }
  rewrite Hd in Hf. simpl in Hf.
  apply run_bind_Done in Hf as ([fh3 err3] & tr3 & Hb & Hf).
  apply run_bind_Done in Hf as (fh4 & tr4 & Hdef & Hf).
  injection Hf as ? ? ?. subst fh4 err3 tr4.
  unfold FlushFile_deferred in Hdef. simpl in Hdef.
  apply run_bind_Done in Hdef as (fh5 & tr5 & Hr & Hfin).
  injection Hfin as ? ?. injection Hr as ? ?. subst fh5 tr5 tr'.
  eapply FlushFile_body_parts in Hb; [exact Hb|done..].
Qed.

(** Buffers of 4 bytes, a write of 6 bytes, the upload of the first part
    finishing, and the flush: two parts. *)
Lemma multipart_flush_completes_dense_parts_witness :
  let fs := fst (canned_mount (inl (RequestFailure 404))
                              (inl (RequestFailure 404)) 4) in
  let inode := fst (Inode_Create fs root_inode "x" 0 2%positive) in
  let fh := snd (Inode_Create fs root_inode "x" 0 2%positive) in
  let acts := [AWrite 0 (AAAA ++ BB); APartDone 0] in
  exists st errs tr1 st' tr',
    steps (mkHandleState fs inode fh) acts [] = Done (st, errs, tr1) /\
    step st AFlush tr1 = Done (st', None, tr') /\
    exists id parts,
      last tr' = Some (RCompleteMultipartUpload "x" (Some id) parts) /\
      Z.of_nat (length parts) =
        lastPartId (hs_fh st) + match buf (hs_fh st) with Some _ => 1 | None => 0 end /\
      cp_PartNumber <$> parts = seqZ 1 (Z.of_nat (length parts)) /\
      Forall (λ p, recorded (s3 fs) "x" (Some id) tr'
                     (cp_PartNumber p) (cp_ETag p)) parts.
Proof.
  intros fs inode fh acts. do 5 eexists.
  split; [by_computation|]. split; [by_computation|].
  eapply (multipart_flush_completes_dense_parts fs root_inode "x" 0
            2%positive acts []);
    [reflexivity|by_computation|vm_compute; discriminate|by_computation].
Defined.

(** ** The read path *)

Lemma Body_Read_spec r n :
  (0 < n)%nat ->
  exists k r' err,
    Body_Read r n = (r', take k (body_rest r), err) /\
    body_rest r' = drop k (body_rest r) /\
    (k <= n)%nat /\
    (body_rest r <> [] -> (0 < k)%nat) /\
    (err = None \/ err = Some EOF) /\
    (err = Some EOF -> (length (body_rest r) <= k)%nat) /\
    (body_rest r = [] -> err = Some EOF).
Proof.
  intros Hn. unfold Body_Read. destruct (body_rest r) as [|x xs] eqn:Hr.
  - exists 0%nat, r, (Some EOF). rewrite Hr. simpl.
    repeat split; try done; try lia. by right.
  - set (k := Nat.min n (Nat.max 1 (hd n (body_pace r)))).
    exists k. do 2 eexists. split; [reflexivity|]. cbn [body_rest].
    split; [done|]. split; [lia|]. split; [lia|]. split.
    + destruct (_ && _); [by right|by left].
    + split; [|done].
      destruct (body_eof_with_data r); cbn [andb]; [|done].
      destruct (Nat.leb_spec (length (x :: xs)) k); done.
Qed.

Lemma tryReadAll_loop_spec fuel r toRead got :
  (toRead <= fuel)%nat ->
  exists r' err,
    tryReadAll_loop fuel r toRead got =
      Done (r', got ++ take toRead (body_rest r), err) /\
    body_rest r' = drop toRead (body_rest r) /\
    (err = None \/ err = Some EOF) /\
    (err = None -> (toRead <= length (body_rest r))%nat) /\
    ((length (body_rest r) < toRead)%nat -> err = Some EOF) /\
    (toRead = 0%nat -> err = None) /\
    (err = Some EOF -> (length (body_rest r) <= toRead)%nat).
Proof.
  revert r toRead got.
  induction fuel as [|fuel IH]; intros r toRead got Hf.
  - assert (toRead = 0%nat) as -> by lia. simpl.
    exists r, None. rewrite take_0, app_nil_r, drop_0.
    repeat split; try done; try lia. by left.
  - simpl. destruct (toRead =? 0)%nat eqn:E0.
    + apply Nat.eqb_eq in E0 as ->.
      exists r, None. rewrite take_0, app_nil_r, drop_0.
      repeat split; try done; try lia. by left.
    + apply Nat.eqb_neq in E0.
      destruct (Body_Read_spec r toRead) as
        (k & r1 & err1 & -> & Hr1 & Hk & Hpos & Herr & Heof & Hnil0); [lia|].
      destruct err1 as [e|].
      * destruct Herr as [?|[= ->]]; [done|].
        specialize (Heof eq_refl).
        exists r1, (Some EOF). rewrite Hr1.
        rewrite !take_ge by lia. rewrite !drop_ge by lia.
        repeat split; try done; try lia. by right.
      * destruct (decide (body_rest r = [])) as [Hnil|Hne].
        { by specialize (Hnil0 Hnil). }
        specialize (Hpos Hne).
        rewrite length_take.
        destruct (IH r1 (toRead - Nat.min k (length (body_rest r)))%nat
                    (got ++ take k (body_rest r)))
          as (r2 & err2 & -> & H2 & H3 & H4 & H5 & _ & H6).
        { assert (0 < length (body_rest r))%nat
            by (destruct (body_rest r); simpl; [done|lia]). lia. }
        rewrite Hr1 in *. exists r2, err2.
        rewrite length_drop in *.
        split; [|split; [|split; [done|split; [|split; [|split; [lia|]]]]]].
        -- f_equal. f_equal. rewrite <- app_assoc. f_equal.
           destruct (decide (k <= length (body_rest r))%nat) as [Hle|Hgt].
           ++ rewrite Nat.min_l by lia.
              rewrite <- (take_drop k (body_rest r)) at 3.
              rewrite take_app_ge by (rewrite length_take; lia).
              rewrite length_take, Nat.min_l by lia. done.
           ++ rewrite Nat.min_r by lia.
              rewrite (take_ge (body_rest r) k) by lia.
              rewrite (drop_ge (body_rest r) k) by lia.
              rewrite take_nil, app_nil_r.
              by rewrite (take_ge (body_rest r) toRead) by lia.
        -- rewrite H2, drop_drop.
           destruct (decide (k <= length (body_rest r))%nat) as [Hle|Hgt].
           ++ f_equal. lia.
           ++ rewrite !drop_ge by lia. done.
        -- intros He. specialize (H4 He). lia.
        -- intros Hlt. apply H5. lia.
        -- intros He. specialize (H6 He). lia.
Qed.

Lemma tryReadAll_reads_the_prefix_aux (r : Body) (n : nat) :
  exists r' err,
    tryReadAll r n = Done (r', take n (body_rest r), err) /\
    body_rest r' = drop n (body_rest r) /\
    (err = None \/ err = Some EOF) /\
    (err = None -> (n <= length (body_rest r))%nat) /\
    ((length (body_rest r) < n)%nat -> err = Some EOF) /\
    (n = 0%nat -> err = None) /\
    (err = Some EOF -> (length (body_rest r) <= n)%nat).
Proof.
  unfold tryReadAll.
  destruct (tryReadAll_loop_spec n r n []) as (r' & err & H); [lia|].
  exists r', err. exact H.
Qed.


Lemma tryReadAll_from content pos (r : Body) (n : nat) :
  body_rest r = drop pos content ->
  exists r' err,
    tryReadAll r n = Done (r', take n (drop pos content), err) /\
    body_rest r' =
      drop (pos + length (take n (drop pos content))) content /\
    (err = None \/ err = Some EOF) /\
    (err = None -> length (take n (drop pos content)) = n) /\
    ((0 < n)%nat -> (pos < length content)%nat ->
       (0 < length (take n (drop pos content)))%nat) /\
    (n = 0%nat -> err = None) /\
    (err = Some EOF -> (length content <= pos + n)%nat).
Proof.
  intros Hr.
  destruct (tryReadAll_reads_the_prefix_aux r n)
    as (r' & err & Ht & Hr' & Herr & Hnone & _ & Hzero & Heof).
  rewrite Hr in *. exists r', err. split; [done|].
  split.
  { rewrite Hr', drop_drop, length_take, length_drop.
    destruct (decide (n <= length content - pos)%nat).
    - by rewrite Nat.min_l by lia.
    - rewrite Nat.min_r by lia. by rewrite !drop_ge by lia. }
  split; [done|]. split.
  - intros He. specialize (Hnone He). rewrite length_take. lia.
  - split; [|split; [done|]].
    + intros Hn Hpos. rewrite length_take, length_drop. lia.
    + intros He. specialize (Heof He). rewrite length_drop in Heof. lia.
Qed.

Lemma positioned_after content r err pos :
  0 <= pos ->
  body_rest r = drop (Z.to_nat pos) content ->
  positioned content (mkReadHandle (reader_after r err) pos).
Proof.
  intros Hpos Hr r'. unfold reader_after. simpl.
  destruct (decide (err = Some EOF)); [done|]. by intros [= <-].
Qed.

Lemma ReadFile_get_spec get inode fh offset n gets content :
  serves get (FullName inode) content ->
  Z.of_nat (length content) < 2 ^ 62 ->
  0 <= offset < Z.of_nat (length content) ->
  (0 < n)%nat ->
  readBufOffset fh = offset ->
  let bytes := take n (drop (Z.to_nat offset) content) in
  let req := RGetObject (FullName inode)
                        (if offset =? 0 then None else Some offset) in
  exists fh',
    ReadFile_get get inode fh [] offset n gets =
      Done (fh', bytes, None, gets ++ [req]) /\
    positioned content fh' /\
    readBufOffset fh' = offset + Z.of_nat (length bytes).
Proof.
  intros Hserves Hmax Hoff Hn Hrbo bytes req.
  assert (Hlen : Z.of_nat (length bytes) <= Z.of_nat (length content)).
  { subst bytes. rewrite length_take, length_drop. lia. }
  unfold ReadFile_get. simpl length. rewrite Z.add_0_r, Nat.sub_0_r.
  rewrite (wrap_int64_small offset) by lia. fold req.
  destruct (Hserves gets (if offset =? 0 then None else Some offset))
    as (body & Hg & Hbody).
  fold req in Hg. rewrite Hg.
  assert (Hd : default 0 (if offset =? 0 then None else Some offset) = offset).
  { destruct (offset =? 0) eqn:E; [apply Z.eqb_eq in E|]; simpl; lia. }
  rewrite Hd in Hbody.
  destruct (tryReadAll_from content (Z.to_nat offset) body n Hbody)
    as (r' & err & -> & Hr' & Herr & Hfull & Hsome & _ & _).
  fold bytes in Hr', Hfull, Hsome |- *.
  specialize (Hsome Hn ltac:(lia)).
  rewrite Hrbo.
  rewrite (wrap_int64_small (offset + Z.of_nat (length bytes))) by lia.
  eexists. split.
  { simpl. unfold ReadFile_deferred.
    destruct (length bytes =? 0)%nat eqn:E0;
      [apply Nat.eqb_eq in E0; lia|]. done. }
  split; [|reflexivity].
  apply positioned_after; [lia|]. rewrite Hr'. f_equal. lia.
Qed.

(** Reading a file whose content the store holds.  On a handle whose
    reader, if it has one, stands at [readBufOffset] (and which, without a
    reader, is asked for the offset it stands at), a read at an offset
    inside the file returns the bytes of the file from that offset on, as
    many as asked for or all that are left, and no error; the handle then
    stands behind the bytes read.  A read at the offset where the reader
    stands is served from the reader, without a request; otherwise at most
    one GetObject is issued, for the range that starts at the offset (no
    range at offset 0). *)
Theorem ReadFile_returns_requested_bytes (get : GetClient) (fs : Goofys)
    (inode : Inode) (fh : ReadHandle) (offset : Z) (n : nat)
    (gets : list GetRequest) (content : list byte) :
  serves get (FullName inode) content ->
  Size (attrs_of fs inode) = Z.of_nat (length content) ->
  Z.of_nat (length content) < 2 ^ 62 ->
  positioned content fh ->
  (reader fh = None -> readBufOffset fh = offset) ->
  0 <= offset < Z.of_nat (length content) ->
  let bytes := take n (drop (Z.to_nat offset) content) in
  let req := RGetObject (FullName inode)
                        (if offset =? 0 then None else Some offset) in
  exists fh' gets',
    ReadFile get fs inode fh offset n gets = Done (fh', bytes, None, gets') /\
    positioned content fh' /\
    readBufOffset fh' = offset + Z.of_nat (length bytes) /\
    (gets' = gets \/ gets' = gets ++ [req]) /\
    (forall r, reader fh = Some r -> readBufOffset fh = offset ->
       gets' = gets).
Proof.
  intros Hserves Hsize Hmax Hpos Hnone Hoff bytes req.
  assert (Hlen : Z.of_nat (length bytes) <= Z.of_nat (length content)).
  { subst bytes. rewrite length_take, length_drop. lia. }
  unfold ReadFile. rewrite Hsize.
  rewrite (wrap_uint64_small offset) by lia.
  destruct (Z.of_nat (length content) <=? offset) eqn:E; [lia|]. clear E.
  destruct (offset =? Z.of_nat (length content)) eqn:E; [lia|]. clear E.
  (* without a stream to continue *)
  assert (Hfresh : forall fh0,
    readBufOffset fh0 = offset -> reader fh0 = None ->
    exists fh' gets',
      (if (length (@nil byte) =? n)%nat || false
       then Done (fh0, [], None, gets)
       else ReadFile_get get inode fh0 [] offset n gets) =
        Done (fh', bytes, None, gets') /\
      positioned content fh' /\
      readBufOffset fh' = offset + Z.of_nat (length bytes) /\
      (gets' = gets \/ gets' = gets ++ [req])).
  { intros fh0 Hrbo Hr0. simpl length. rewrite orb_false_r.
    destruct (0 =? n)%nat eqn:En.
    - apply Nat.eqb_eq in En. subst n bytes. rewrite take_0. simpl.
      exists fh0, gets. split; [done|]. split; [by intros r; rewrite Hr0|].
      split; [lia|by left].
    - apply Nat.eqb_neq in En.
      destruct (ReadFile_get_spec get inode fh0 offset n gets content)
        as (fh' & Hg & Hp & Ho); try done; [lia|].
      exists fh', (gets ++ [req]). split; [exact Hg|]. split; [done|].
      split; [done|by right]. }
  unfold readFromStream.
  destruct (reader fh) as [r|] eqn:Hr.
  - destruct (Hpos r Hr) as [Hrbo Hrest].
    destruct (offset =? readBufOffset fh) eqn:Eo.
    + (* the read continues the stream *)
      apply Z.eqb_eq in Eo. rewrite <- Eo in *.
      destruct (tryReadAll_from content (Z.to_nat offset) r n Hrest)
        as (r' & err & -> & Hr' & Herr & Hfull & Hsome & Hzero & _).
      fold bytes in Hr', Hfull, Hsome |- *.
      rewrite (wrap_int64_small (offset + Z.of_nat (length bytes))) by lia.
      assert (Hp' : positioned content
                (mkReadHandle (reader_after r' err)
                   (offset + Z.of_nat (length bytes)))).
      { apply positioned_after; [lia|]. rewrite Hr'. f_equal. lia. }
      destruct err as [e|].
      * destruct (decide (n = 0%nat)) as [Hn0|Hn0];
          [by specialize (Hzero Hn0)|].
        specialize (Hsome ltac:(lia) ltac:(lia)).
        unfold ReadFile_deferred.
        destruct (length bytes =? 0)%nat eqn:E0;
          [apply Nat.eqb_eq in E0; lia|]. simpl.
        do 2 eexists. split; [reflexivity|]. split; [exact Hp'|].
        split; [done|]. split; [by left|done].
      * replace (length bytes =? n)%nat with true
          by (symmetry; apply Nat.eqb_eq; exact (Hfull eq_refl)).
        simpl.
        do 2 eexists. split; [reflexivity|]. split; [exact Hp'|].
        split; [done|]. split; [by left|done].
    + (* out of order: the stream is dropped *)
      apply Z.eqb_neq in Eo.
      destruct (Hfresh (mkReadHandle None offset)) as
        (fh' & gets' & Hg & Hp & Ho & Hgets); [done|done|].
      exists fh', gets'. split; [exact Hg|]. split; [done|].
      split; [done|]. split; [done|]. intros r0 _ Heq. congruence.
  - destruct (Hfresh fh) as (fh' & gets' & Hg & Hp & Ho & Hgets);
      [by apply Hnone|done|].
    exists fh', gets'. split; [exact Hg|]. split; [done|].
    split; [done|]. split; [done|]. intros r0 [=].
Qed.

(** [hello] is read in two reads, the second from the stream of the
    first. *)
Lemma ReadFile_returns_requested_bytes_witness :
  let fs := fst (canned_mount (inl (RequestFailure 404))
                              (inl (RequestFailure 404)) 8) in
  let content := list_byte_of_string "hello" in
  let get := canned_get content [2%nat] in
  let inode := file_inode "x" 5 in
  exists fh1 fh2,
    ReadFile get fs inode (mkReadHandle None 0) 0 3 [] =
      Done (fh1, list_byte_of_string "hel", None, [RGetObject "x" None]) /\
    ReadFile get fs inode fh1 3 2 [RGetObject "x" None] =
      Done (fh2, list_byte_of_string "lo", None, [RGetObject "x" None]).
Proof.
  intros fs content get inode.
  assert (Hserves : serves get (FullName inode) content).
  { intros gets range. eexists. split; reflexivity. }
  destruct (ReadFile_returns_requested_bytes get fs inode
              (mkReadHandle None 0) 0 3 [] content)
    as (fh1 & gets1 & H1 & Hp1 & Ho1 & _ & _);
    [exact Hserves|reflexivity|vm_compute; reflexivity|by intros r|done|
     vm_compute; split; [discriminate|reflexivity]|].
  assert (Hv : ReadFile get fs inode (mkReadHandle None 0) 0 3 [] =
                 Done (mkReadHandle
                         (Some (mkBody (list_byte_of_string "lo") [] false)) 3,
                       list_byte_of_string "hel", None, [RGetObject "x" None]))
    by by_computation.
  rewrite Hv in H1. injection H1 as <- <-.
  destruct (ReadFile_returns_requested_bytes get fs inode
              (mkReadHandle
                 (Some (mkBody (list_byte_of_string "lo") [] false)) 3)
              3 2 [RGetObject "x" None] content)
    as (fh2 & gets2 & H2 & _ & _ & _ & Hsame);
    [exact Hserves|reflexivity|vm_compute; reflexivity|exact Hp1|done|
     vm_compute; split; [discriminate|reflexivity]|].
  rewrite (Hsame _ eq_refl eq_refl) in H2.
  do 2 eexists. split; [exact Hv|exact H2].
Defined.

(** The first read of a handle at an offset other than zero.  The handle
    has no reader, so [readFromStream] leaves [readBufOffset] at zero, and
    the read adds the bytes read to it: the new reader stands at
    [offset + n], while [readBufOffset] says [n].  The read that follows at
    offset [n] is then taken for the continuation of the stream: it issues
    no request and returns the bytes of the file from [offset + n] on. *)
Theorem ReadFile_first_read_misplaces_cursor (get : GetClient) (fs : Goofys)
    (inode : Inode) (gets : list GetRequest) (content : list byte)
    (offset : Z) (n m : nat) :
  serves get (FullName inode) content ->
  Size (attrs_of fs inode) = Z.of_nat (length content) ->
  Z.of_nat (length content) < 2 ^ 62 ->
  0 < offset -> (0 < n)%nat -> (0 < m)%nat ->
  offset + Z.of_nat n < Z.of_nat (length content) ->
  let req := RGetObject (FullName inode) (Some offset) in
  exists fh1 fh2 r,
    ReadFile get fs inode (mkReadHandle None 0) offset n gets =
      Done (fh1, take n (drop (Z.to_nat offset) content), None,
            gets ++ [req]) /\
    readBufOffset fh1 = Z.of_nat n /\
    reader fh1 = Some r /\
    body_rest r = drop (Z.to_nat offset + n) content /\
    ReadFile get fs inode fh1 (Z.of_nat n) m (gets ++ [req]) =
      Done (fh2, take m (drop (Z.to_nat offset + n) content), None,
            gets ++ [req]).
Proof.
  intros Hserves Hsize Hmax Hoff Hn Hm Hend req.
  (* the first read *)
  unfold ReadFile at 1. rewrite Hsize.
  rewrite (wrap_uint64_small offset) by lia.
  destruct (Z.of_nat (length content) <=? offset) eqn:E; [lia|]. clear E.
  destruct (offset =? Z.of_nat (length content)) eqn:E; [lia|]. clear E.
  unfold readFromStream. simpl reader. cbv iota. simpl length.
  destruct (0 =? n)%nat eqn:E; [apply Nat.eqb_eq in E; lia|]. clear E.
  simpl orb. cbv iota.
  unfold ReadFile_get. simpl length. rewrite Z.add_0_r, Nat.sub_0_r.
  rewrite (wrap_int64_small offset) by lia.
  destruct (offset =? 0) eqn:E; [lia|]. clear E. fold req.
  destruct (Hserves gets (Some offset)) as (body & Hg & Hbody).
  fold req in Hg. rewrite Hg. simpl in Hbody.
  destruct (tryReadAll_from content (Z.to_nat offset) body n Hbody)
    as (r1 & err1 & -> & Hr1 & Herr1 & Hfull1 & Hsome1 & _ & Heof1).
  set (bytes1 := take n (drop (Z.to_nat offset) content)) in *.
  assert (err1 = None) as ->.
  { destruct Herr1 as [ Hx | Hx ]; [done|subst err1]. specialize (Heof1 eq_refl). lia. }
  specialize (Hfull1 eq_refl).
  simpl readBufOffset. rewrite Hfull1.
  rewrite (wrap_int64_small (0 + Z.of_nat n)) by lia. rewrite Z.add_0_l.
  rewrite Hfull1 in Hr1.
  unfold reader_after. rewrite decide_False by done.
  simpl app. unfold ReadFile_deferred. rewrite Hfull1.
  destruct (n =? 0)%nat eqn:E; [apply Nat.eqb_eq in E; lia|]. clear E.
  simpl negb. cbv iota.
  (* the second read *)
  assert (H2 : exists fh2,
    ReadFile get fs inode (mkReadHandle (Some r1) (Z.of_nat n)) (Z.of_nat n)
             m (gets ++ [req]) =
      Done (fh2, take m (drop (Z.to_nat offset + n) content), None,
            gets ++ [req])).
  { unfold ReadFile. rewrite Hsize.
    rewrite (wrap_uint64_small (Z.of_nat n)) by lia.
    destruct (Z.of_nat (length content) <=? Z.of_nat n) eqn:E; [lia|].
    clear E.
    destruct (Z.of_nat n =? Z.of_nat (length content)) eqn:E; [lia|].
    clear E.
    unfold readFromStream. simpl reader. simpl readBufOffset.
    rewrite Z.eqb_refl.
    destruct (tryReadAll_from content (Z.to_nat offset + n) r1 m Hr1)
      as (r2 & err2 & -> & Hr2 & Herr2 & Hfull2 & Hsome2 & _ & _).
    set (bytes2 := take m (drop (Z.to_nat offset + n) content)) in *.
    specialize (Hsome2 Hm ltac:(lia)).
    destruct err2 as [e|].
    - unfold ReadFile_deferred.
      destruct (length bytes2 =? 0)%nat eqn:E;
        [apply Nat.eqb_eq in E; lia|]. simpl. eauto.
    - replace (length bytes2 =? m)%nat with true
        by (symmetry; apply Nat.eqb_eq; exact (Hfull2 eq_refl)).
      simpl. eauto. }
  destruct H2 as [fh2 H2].
  exists (mkReadHandle (Some r1) (Z.of_nat n)), fh2, r1.
  split; [reflexivity|]. split; [reflexivity|]. split; [reflexivity|].
  split; [exact Hr1|exact H2].
Qed.

(** The file holds [0123456789]; the bytes [45] are read at offset 4, and
    the read at offset 2 that follows gets [67]. *)
Lemma ReadFile_first_read_misplaces_cursor_witness :
  let fs := fst (canned_mount (inl (RequestFailure 404))
                              (inl (RequestFailure 404)) 8) in
  let content := list_byte_of_string "0123456789" in
  let get := canned_get content [] in
  let inode := file_inode "x" 10 in
  exists fh1 fh2,
    ReadFile get fs inode (mkReadHandle None 0) 4 2 [] =
      Done (fh1, list_byte_of_string "45", None, [RGetObject "x" (Some 4)]) /\
    readBufOffset fh1 = 2 /\
    ReadFile get fs inode fh1 2 2 [RGetObject "x" (Some 4)] =
      Done (fh2, list_byte_of_string "67", None, [RGetObject "x" (Some 4)]).
Proof.
  intros fs content get inode.
  destruct (ReadFile_first_read_misplaces_cursor get fs inode [] content
              4 2 2)
    as (fh1 & fh2 & r & H1 & Ho & _ & _ & H2);
    [intros gets range; eexists; split; reflexivity
    |reflexivity|reflexivity|lia|lia|lia|reflexivity|].
  exists fh1, fh2. split; [exact H1|]. split; [exact Ho|exact H2].
Defined.
